(** * Minimum spanning trees by Kruskal and Prim: the DSU and the two engines

    A shallow embedding of [final.py] (the DSU class, [kruskals_mst],
    [prims_mst], and [main] from the rows of the file to the two costs:
    the identifier dictionary, the edge list and the adjacency list) and of
    [index.py] (its remapping by an offset, its variant of [kruskals_mst]
    and its script from the rows to the figures it prints; its DSU is the
    same class), once over values and once, for the engines, over a store
    of mutable objects, followed by the properties of the specification,
    proved or refuted on it, and by further properties of the code.

    The first part holds the programs; the second their theory: parent
    chains of the DSU, undirected connectivity, the cut property of
    spanning trees, the invariants of the two loops, and the statements
    about the DSU, the engines, the remapping and the caller's objects;
    then the ranks of the DSU, forests, end points out of range, [main]
    and the script of [index.py].

    Conventions of the embedding.
    - Vertex indices are natural numbers (the callers remap identifiers
      before the engines run); an index beyond the end of a list raises
      [IndexError] as in Python.  Python's negative indices are outside
      the embedding.
    - The rows of a file are the integers of its int64 columns of
      identifiers.  The embedding follows what pandas and numpy do to
      them on the way to the engines (a row read through float64 is
      rounded, an offset subtracted in int64 wraps around); the theorems
      about [main] and about the script of [index.py] state the range of
      identifiers on which this is exact.
    - [num_vertices] is an integer ([Z]): the code subtracts one from it
      and hands it to [range].
    - Weights are whatever the caller puts in the third field; the
      engines only add them and compare them, so the embedding is
      polymorphic in a [Weight] structure, instantiated with Python's
      unbounded integers ([Z]) and with binary64 floats.
    - Recursion and the [while] loop run on fuel; the fuel that [find] and
      [prims_mst] take is shown to be enough. *)

From Stdlib Require Import ZArith Lia.
From Stdlib Require Floats.PrimFloat.
From stdpp Require Import base option relations list sorting gmap.

Set Default Proof Using "Type".
Set Warnings "-clear-no-such-hyp".

(** ** Exceptions and results *)

Inductive exn := IndexError | KeyError | RecursionError | TypeError.

Inductive outcome (A : Type) :=
| Ok (a : A)
| Raise (e : exn).
Arguments Ok {A} a.
Arguments Raise {A} e.

Definition bind {A B} (m : outcome A) (f : A → outcome B) : outcome B :=
  match m with
  | Ok a => f a
  | Raise e => Raise e
  end.

Notation "'let!' x ':=' m 'in' k" := (bind m (λ x, k))
  (at level 10, x name, m at level 200, k at level 200,
   format "'let!'  x  ':='  m  'in'  '//' k").

(** [l[i]] and [l[i] = x] on a Python list, for a non-negative index. *)
Definition py_getitem {A} (l : list A) (i : nat) : outcome A :=
  match l !! i with
  | Some x => Ok x
  | None => Raise IndexError
  end.

Definition py_setitem {A} (l : list A) (i : nat) (x : A) : outcome (list A) :=
  if decide (i < length l) then Ok (<[i:=x]> l) else Raise IndexError.

(** ** Weights *)

Class Weight (W : Type) := {
  w_zero : W;
  w_add : W → W → W;
  w_ltb : W → W → bool;
  w_eqb : W → W → bool
}.

#[global] Instance Z_weight : Weight Z :=
  {| w_zero := 0%Z; w_add := Z.add; w_ltb := Z.ltb; w_eqb := Z.eqb |}.

#[global] Instance float_weight : Weight PrimFloat.float :=
  {| w_zero := PrimFloat.zero; w_add := PrimFloat.add;
     w_ltb := PrimFloat.ltb; w_eqb := PrimFloat.eqb |}.

(** ** The DSU class *)

Record DSU := mkDSU { parent : list nat; rank : list nat }.

(** [DSU.__init__]: [list(range(n))] and [[1] * n]; both are empty for a
    negative [n]. *)
Definition DSU_init (n : Z) : outcome DSU :=
  Ok (mkDSU (seq 0 (Z.to_nat n)) (replicate (Z.to_nat n) 1)).

(** [DSU.find], recursive with path compression.  The recursion is on
    [fuel]; running out of it is Python's [RecursionError]. *)
Fixpoint find_rec (fuel : nat) (d : DSU) (i : nat) : outcome (DSU * nat) :=
  match fuel with
  | O => Raise RecursionError
  | S fuel' =>
      match py_getitem (parent d) i with
      | Raise e => Raise e
      | Ok p =>
          if decide (p = i) then Ok (d, i)
          else
            match find_rec fuel' d p with
            | Raise e => Raise e
            | Ok (d1, r) =>
                match py_setitem (parent d1) i r with
                | Raise e => Raise e
                | Ok parent' =>
                    let d2 := mkDSU parent' (rank d1) in
                    match py_getitem (parent d2) i with
                    | Raise e => Raise e
                    | Ok r' => Ok (d2, r')
                    end
                end
            end
      end
  end.

(** A parent chain without a cycle visits at most [length (parent d)]
    entries, so this much fuel separates the chains that end from those
    that loop.  (The interpreter's own recursion limit is not modelled.) *)
Definition find (d : DSU) (i : nat) : outcome (DSU * nat) :=
  find_rec (S (length (parent d))) d i.

(** [DSU.union]. *)
Definition union (d : DSU) (x y : nat) : outcome (DSU * bool) :=
  let! fx := find d x in
  let '(d1, root_x) := fx in
  let! fy := find d1 y in
  let '(d2, root_y) := fy in
  if decide (root_x ≠ root_y) then
    let! rank_x := py_getitem (rank d2) root_x in
    let! rank_y := py_getitem (rank d2) root_y in
    if decide (rank_x < rank_y) then
      let! parent' := py_setitem (parent d2) root_x root_y in
      Ok (mkDSU parent' (rank d2), true)
    else if decide (rank_y < rank_x) then
      let! parent' := py_setitem (parent d2) root_y root_x in
      Ok (mkDSU parent' (rank d2), true)
    else
      let! parent' := py_setitem (parent d2) root_y root_x in
      let! rank' := py_setitem (rank d2) root_x (rank_x + 1) in
      Ok (mkDSU parent' rank', true)
  else Ok (d2, false).

(** ** The engines *)

(** The adjacency list is a [dict] from a vertex to its
    [(vizinho, peso)] pairs. *)
Abbreviation adjacency W := (gmap nat (list (nat * W))) (only parsing).

Section Engines.
Context {W : Type} {WW : Weight W}.

(** An edge [[u, v, peso]]. *)
Definition edge : Type := nat * nat * W.
Definition e_src (e : edge) : nat := e.1.1.
Definition e_dst (e : edge) : nat := e.1.2.
Definition e_weight (e : edge) : W := e.2.

(** [sorted(edge_list, key=lambda item: item[2])]: a stable sort that
    compares keys with [<] only. *)
Fixpoint insert_by_weight (e : edge) (l : list edge) : list edge :=
  match l with
  | [] => [e]
  | x :: l' =>
      if w_ltb (e_weight x) (e_weight e) then x :: insert_by_weight e l'
      else e :: x :: l'
  end.

Definition sorted_by_weight (l : list edge) : list edge :=
  foldr insert_by_weight [] l.

(** The [for] loop of [kruskals_mst], with its [break]. *)
Fixpoint kruskal_loop (num_vertices : Z) (es : list edge) (dsu : DSU)
    (mst_cost : W) (mst_edges : list edge) : outcome (W * list edge) :=
  match es with
  | [] => Ok (mst_cost, mst_edges)
  | (node1, node2, weight) :: es' =>
      match union dsu node1 node2 with
      | Raise e => Raise e
      | Ok (dsu', true) =>
          let mst_cost' := w_add mst_cost weight in
          let mst_edges' := mst_edges ++ [(node1, node2, weight)] in
          if decide (Z.of_nat (length mst_edges') = (num_vertices - 1)%Z)
          then Ok (mst_cost', mst_edges')
          else kruskal_loop num_vertices es' dsu' mst_cost' mst_edges'
      | Ok (dsu', false) =>
          kruskal_loop num_vertices es' dsu' mst_cost mst_edges
      end
  end.

Definition kruskals_mst (num_vertices : Z) (edge_list : list edge)
    : outcome (W * list edge) :=
  let sorted_edge_list := sorted_by_weight edge_list in
  let! dsu := DSU_init num_vertices in
  kruskal_loop num_vertices sorted_edge_list dsu w_zero [].

(** *** Prim *)

(** Heap entries are tuples [(peso, origem, destino)]; Python compares
    them field by field: the first field that differs (by [==]) decides,
    by [<]. *)
Definition entry : Type := W * nat * nat.

Definition entry_ltb (a b : entry) : bool :=
  let '(wa, ua, va) := a in
  let '(wb, ub, vb) := b in
  if negb (w_eqb wa wb) then w_ltb wa wb
  else if negb (ua =? ub) then ua <? ub
  else va <? vb.

(** [heapq] is the standard library's binary heap.  It is modelled by what
    it guarantees: [heappop] hands out a least entry.  With integer weights
    (and with floats other than NaN and signed zeros) entries that compare
    equal are equal tuples, so keeping the queue as an ordered list yields
    the same sequence of popped values as the array heap. *)
Fixpoint heappush (h : list entry) (x : entry) : list entry :=
  match h with
  | [] => [x]
  | y :: h' => if entry_ltb x y then x :: y :: h' else y :: heappush h' x
  end.


(** [adj_list.get(v, [])] *)
Definition adj_get (adj_list : adjacency W) (v : nat) : list (nat * W) :=
  default [] (adj_list !! v).

(** The [for] loop that seeds the queue with the edges of the start vertex. *)
Definition push_start (start_vertex : nat) (nbrs : list (nat * W))
    (min_heap : list entry) : list entry :=
  foldl (λ h '(neighbor, weight), heappush h (weight, start_vertex, neighbor))
        min_heap nbrs.

(** The inner [for] loop: the edges of the new vertex towards vertices not
    yet visited. *)
Definition push_unvisited (v : nat) (visited : gset nat)
    (nbrs : list (nat * W)) (min_heap : list entry) : list entry :=
  foldl (λ h '(next_neighbor, next_weight),
           if decide (next_neighbor ∉ visited)
           then heappush h (next_weight, v, next_neighbor) else h)
        min_heap nbrs.

(** The variables of the [while] loop. *)
Record prim_state := mkPrim {
  st_heap : list entry;
  st_visited : gset nat;
  st_cost : W;
  st_edges : list edge
}.

(** One turn of the [while] loop; [None] when its condition is false. *)
Definition prim_step (num_vertices : Z) (adj_list : adjacency W)
    (s : prim_state) : option prim_state :=
  match st_heap s with
  | [] => None
  | (weight, u, v) :: min_heap' =>
      if decide (Z.of_nat (size (st_visited s)) < num_vertices)%Z then
        if decide (v ∉ st_visited s) then
          let visited' := st_visited s ∪ {[v]} in
          Some (mkPrim
                  (push_unvisited v visited' (adj_get adj_list v) min_heap')
                  visited'
                  (w_add (st_cost s) weight)
                  (st_edges s ++ [(u, v, weight)]))
        else Some (mkPrim min_heap' (st_visited s) (st_cost s) (st_edges s))
      else None
  end.

(** The [while] loop; [None] when [fuel] turns did not finish it. *)
Fixpoint prim_loop (fuel : nat) (num_vertices : Z) (adj_list : adjacency W)
    (s : prim_state) : option prim_state :=
  match fuel with
  | O => None
  | S fuel' =>
      match prim_step num_vertices adj_list s with
      | None => Some s
      | Some s' => prim_loop fuel' num_vertices adj_list s'
      end
  end.

(** Every turn pops one entry, and a vertex pushes its edges once, so the
    loop runs at most once per adjacency entry, plus those of the start
    vertex. *)
Definition total_degree (adj_list : adjacency W) : nat :=
  sum_list_with (λ kv, length kv.2) (map_to_list adj_list).

Definition prim_fuel (adj_list : adjacency W) : nat :=
  S (length (adj_get adj_list 0) + total_degree adj_list).

(** The state before the loop: the start vertex is 0. *)
Definition prim_start (adj_list : adjacency W) : prim_state :=
  let start_vertex := 0 in
  mkPrim (push_start start_vertex (adj_get adj_list start_vertex) [])
         {[start_vertex]} w_zero [].

Definition prims_mst_fuel (fuel : nat) (num_vertices : Z)
    (adj_list : adjacency W) : option (W * list edge) :=
  if decide (num_vertices = 0%Z) then Some (w_zero, [])
  else
    match prim_loop fuel num_vertices adj_list (prim_start adj_list) with
    | Some s => Some (st_cost s, st_edges s)
    | None => None
    end.

Definition prims_mst (num_vertices : Z) (adj_list : adjacency W)
    : option (W * list edge) :=
  prims_mst_fuel (prim_fuel adj_list) num_vertices adj_list.

(** The adjacency list as [main] builds it from the remapped rows:
    [adj_list[k].append(x)] raises [KeyError] for a key that is not there. *)
Definition adj_append (adj_list : adjacency W) (k : nat) (x : nat * W)
    : outcome (adjacency W) :=
  match adj_list !! k with
  | Some l => Ok (<[k := l ++ [x]]> adj_list)
  | None => Raise KeyError
  end.

Fixpoint adj_fill (adj_list : adjacency W) (edge_list : list edge)
    : outcome (adjacency W) :=
  match edge_list with
  | [] => Ok adj_list
  | (remapped_source, remapped_dest, weight) :: rows =>
      let! adj1 := adj_append adj_list remapped_source (remapped_dest, weight) in
      let! adj2 := adj_append adj1 remapped_dest (remapped_source, weight) in
      adj_fill adj2 rows
  end.

Definition build_adj (num_vertices : nat) (edge_list : list edge)
    : outcome (adjacency W) :=
  adj_fill (list_to_map ((λ i, (i, [])) <$> seq 0 num_vertices)) edge_list.

(** The cost of a list of edges, added up from the left as the loops do. *)
Definition sum_weights (l : list edge) : W :=
  foldl (λ acc e, w_add acc (e_weight e)) w_zero l.

End Engines.

Definition scenario_edges : list (@edge Z) :=
  [(0, 1, 1%Z); (1, 2, 2%Z); (2, 3, 3%Z); (0, 3, 10%Z); (0, 2, 4%Z)].

Definition scenario_mst : list (@edge Z) :=
  [(0, 1, 1%Z); (1, 2, 2%Z); (2, 3, 3%Z)].

(** ** The remapping of the identifiers in [final.py] *)

(** [{original_id: i for i, original_id in enumerate(all_node_ids)}];
    [iteration] is the order in which Python iterates over the set. *)
Definition map_id_to_idx (iteration : list Z) : gmap Z nat :=
  foldl (λ m p, <[p.2 := p.1]> m) ∅
        (zip (seq 0 (length iteration)) iteration).

(** ** [main] of [final.py], from the rows of the file to the two costs

    pandas holds the two columns of identifiers as int64 and the column
    of weights as int64 or as float64; [rows] holds their values, a weight
    as [float(row["peso"])] gives it: [main] runs the engines on floats. *)

(** [iterrows()] hands out a row as one Series, of a dtype that holds all
    three columns: next to a float64 column of weights an identifier
    comes as the float64 nearest to it (ties go to the even 53-bit
    significand), and [int(...)] gives the integer of that float. *)
Definition via_float64 (z : Z) : Z :=
  let a := Z.abs z in
  if (a <? 2 ^ 53)%Z then z
  else
    let ulp := (2 ^ (Z.log2 a - 52))%Z in
    let q := (a / ulp)%Z in
    let r := (a mod ulp)%Z in
    let q' := if (ulp <? 2 * r)%Z || ((2 * r =? ulp)%Z && Z.odd q)
              then (q + 1)%Z else q in
    (Z.sgn z * (q' * ulp))%Z.

(** [int(row["node1_orig"])]; [float_weights] tells whether the column of
    weights is float64. *)
Definition row_id (float_weights : bool) (id : Z) : Z :=
  if float_weights then via_float64 id else id.

(** [set(data_df["node1_orig"]).union(set(data_df["node2_orig"]))], for
    rows [(node1_orig, node2_orig, peso)]: the sets are of the columns, so
    they hold the identifiers themselves. *)
Definition all_node_ids (rows : list (Z * Z * PrimFloat.float)) : gset Z :=
  list_to_set (rows.*1.*1) ∪ list_to_set (rows.*1.*2).

(** [d[k]] on the dictionary: a key that is not there raises [KeyError]. *)
Definition dict_getitem (d : gmap Z nat) (k : Z) : outcome nat :=
  match d !! k with
  | Some i => Ok i
  | None => Raise KeyError
  end.

(** The loop over the rows (lines 138 to 151). *)
Fixpoint main_rows (float_weights : bool) (id_to_idx : gmap Z nat)
    (rows : list (Z * Z * PrimFloat.float))
    (edge_list : list (@edge PrimFloat.float))
    (adj_list : adjacency PrimFloat.float)
    (original_total_weight : PrimFloat.float)
    : outcome (list (@edge PrimFloat.float) * adjacency PrimFloat.float
               * PrimFloat.float) :=
  match rows with
  | [] => Ok (edge_list, adj_list, original_total_weight)
  | (node1_orig, node2_orig, weight) :: rows' =>
      let source_orig := row_id float_weights node1_orig in
      let dest_orig := row_id float_weights node2_orig in
      let! remapped_source := dict_getitem id_to_idx source_orig in
      let! remapped_dest := dict_getitem id_to_idx dest_orig in
      let edge_list' :=
        edge_list ++ [(remapped_source, remapped_dest, weight)] in
      let! adj1 := adj_append adj_list remapped_source (remapped_dest, weight) in
      let! adj2 := adj_append adj1 remapped_dest (remapped_source, weight) in
      main_rows float_weights id_to_idx rows' edge_list' adj2
                (w_add original_total_weight weight)
  end.

(** What [main] comes to: one of its two messages about a file without
    nodes, the figures of its table, or an exception. *)
Inductive main_result :=
| NoNodeFound
| NoVertexToProcess
| Costs (num_vertices : nat)
        (original_total_weight kruskal_cost : PrimFloat.float)
        (prim_cost : option PrimFloat.float)
| Raised (e : exn).

(** Lines 125 to 166; [iteration] is the order in which Python iterates
    over the set [all_node_ids]. *)
Definition main_costs (float_weights : bool) (iteration : list Z)
    (rows : list (Z * Z * PrimFloat.float)) : main_result :=
  if decide (all_node_ids rows = ∅) then NoNodeFound
  else
    let num_vertices := size (all_node_ids rows) in
    let adj0 : adjacency PrimFloat.float :=
      list_to_map ((λ i, (i, [])) <$> seq 0 num_vertices) in
    match main_rows float_weights (map_id_to_idx iteration) rows [] adj0 w_zero
    with
    | Raise e => Raised e
    | Ok (edge_list, adj_list, original_total_weight) =>
        if decide (0 < num_vertices) then
          match kruskals_mst (Z.of_nat num_vertices) edge_list with
          | Raise e => Raised e
          | Ok (kruskal_cost, _) =>
              Costs num_vertices original_total_weight kruskal_cost
                    (fst <$> prims_mst (Z.of_nat num_vertices) adj_list)
          end
        else NoVertexToProcess
    end.

(** ** [index.py]: the remapping by an offset, and its Kruskal *)

Module Index.

(** The set of the identifiers of both columns. *)
Definition all_node_ids_in_file (rows : list (Z * Z)) : gset Z :=
  list_to_set (rows.*1) ∪ list_to_set (rows.*2).

(** Lines 92 to 118: [None] when the script exits for want of a node. *)
Definition id_offset (all_ids : gset Z) : option Z :=
  match elements all_ids with
  | [] => None
  | x :: l =>
      let min_id_from_file := foldr Z.min x l in
      let max_id_from_file := foldr Z.max x l in
      let actual_num_distinct_nodes := Z.of_nat (size all_ids) in
      Some
        (if decide (min_id_from_file = 1 ∧
                    max_id_from_file = actual_num_distinct_nodes)%Z
         then 1
         else if decide (min_id_from_file = 0 ∧
                         max_id_from_file = actual_num_distinct_nodes - 1)%Z
         then 0
         else if decide (min_id_from_file ≠ 0)%Z then min_id_from_file
         else 0)%Z
  end.

(** [a - b] in numpy's int64: a difference out of range wraps around. *)
Definition int64_sub (a b : Z) : Z :=
  ((a - b + 2 ^ 63) mod 2 ^ 64 - 2 ^ 63)%Z.

(** Lines 121 to 137: the edges handed to [kruskals_mst], with the random
    weights as a parameter, and the number of vertices handed with them.
    [rows] holds the values of the two int64 columns.  The offset of the
    third case is a numpy int64 and the subtraction numpy's; in the other
    cases it is Python's, of integers whose difference lies within int64
    as well.  The offset is 0, or the least identifier, so a difference
    is negative only when it has wrapped around (Python would take it as
    an index from the end, which is outside the embedding). *)
Definition kruskal_edges (rows : list (Z * Z)) (weights : list Z)
    : option (Z * list (@edge Z)) :=
  offset ← id_offset (all_node_ids_in_file rows);
  Some (Z.of_nat (size (all_node_ids_in_file rows)),
        zip_with (λ '(source_orig, destination_orig) weight,
                    (Z.to_nat (int64_sub source_orig offset),
                     Z.to_nat (int64_sub destination_orig offset), weight))
                 rows weights).

(** [comparator(a, b)], which [cmp_to_key] turns into the order of the
    sort: [a] comes first when it is negative. *)
Definition comparator (a b : @edge Z) : Z := (e_weight a - e_weight b)%Z.

Fixpoint insert_by_cmp (e : @edge Z) (l : list (@edge Z)) : list (@edge Z) :=
  match l with
  | [] => [e]
  | x :: l' =>
      if (comparator x e <? 0)%Z then x :: insert_by_cmp e l'
      else e :: x :: l'
  end.

Definition sorted_by_cmp (l : list (@edge Z)) : list (@edge Z) :=
  foldr insert_by_cmp [] l.

(** The loop of [index.py]: it asks [find] twice before it calls [union],
    and counts the edges instead of keeping them. *)
Fixpoint kruskal_loop (num_total_vertices : Z) (es : list (@edge Z))
    (dsu : DSU) (mst_cost : Z) (mst_edge_count : nat) : outcome (Z * nat) :=
  match es with
  | [] => Ok (mst_cost, mst_edge_count)
  | (node1, node2, weight) :: es' =>
      match find dsu node1 with
      | Raise e => Raise e
      | Ok (d1, r1) =>
          match find d1 node2 with
          | Raise e => Raise e
          | Ok (d2, r2) =>
              if decide (r1 ≠ r2) then
                match union d2 node1 node2 with
                | Raise e => Raise e
                | Ok (d3, _) =>
                    let mst_cost' := (mst_cost + weight)%Z in
                    let mst_edge_count' := S mst_edge_count in
                    if decide (Z.of_nat mst_edge_count' =
                               (num_total_vertices - 1)%Z)
                    then Ok (mst_cost', mst_edge_count')
                    else kruskal_loop num_total_vertices es' d3
                                      mst_cost' mst_edge_count'
                end
              else kruskal_loop num_total_vertices es' d2
                                mst_cost mst_edge_count
          end
      end
  end.

(** [kruskals_mst] of [index.py] returns the cost alone; the boolean tells
    whether it printed its warning about a graph that is not connected. *)
Definition kruskals_mst (num_total_vertices : Z) (edge_list : list (@edge Z))
    : outcome (Z * bool) :=
  let sorted_edge_list := sorted_by_cmp edge_list in
  match DSU_init num_total_vertices with
  | Raise e => Raise e
  | Ok dsu =>
      match kruskal_loop num_total_vertices sorted_edge_list dsu 0%Z 0 with
      | Raise e => Raise e
      | Ok (mst_cost, mst_edge_count) =>
          Ok (mst_cost,
              bool_decide ((Z.of_nat mst_edge_count < num_total_vertices - 1)%Z
                           ∧ (num_total_vertices > 0)%Z))
      end
  end.

(** What the script comes to: its message about a file without nodes, its
    message about no vertex, the figures it prints (with whether
    [kruskals_mst] printed its warning), or an exception. *)
Inductive script_result :=
| NoNode
| NoVertex
| Report (total_mst_cost original_weight cost_economized valor : Z)
         (warned : bool)
| Raised (e : exn).

(** Lines 121 to 153; [average_price_per_meter] is 2. *)
Definition script (rows : list (Z * Z)) (weights : list Z) : script_result :=
  match kruskal_edges rows weights with
  | None => NoNode
  | Some (num_vertices_for_kruskal, edges) =>
      let original_weight := foldl (λ acc e, acc + e_weight e)%Z 0%Z edges in
      if decide (num_vertices_for_kruskal > 0)%Z then
        match kruskals_mst num_vertices_for_kruskal edges with
        | Raise e => Raised e
        | Ok (total_mst_cost, warned) =>
            let cost_economized := (original_weight - total_mst_cost)%Z in
            Report total_mst_cost original_weight cost_economized
                   (cost_economized * 2)%Z warned
        end
      else NoVertex
  end.

End Index.

(** ** The engines over a store of objects

    The caller owns [edge_list] (a list of lists [[u, v, peso]]) and
    [adj_list] (a dictionary of lists of tuples) and passes references to
    them.  Here the engines run over a store that holds those objects
    together with the ones the engines create: the sorted list, the DSU
    instance with its two lists, the queue, the set of visited vertices,
    the result list and its rows.  Creating an object takes a reference
    that the store does not use yet; [py_store] can overwrite any object of
    the store; a run hands back the store also when it raises.  An object
    of an unexpected shape raises; [TypeError] stands for all such
    exceptions. *)

Definition loc := nat.

Section ObjectModel.
Context {W : Type} {WW : Weight W}.

(** A vertex, a weight, a reference to an object, a tuple
    [(vizinho, peso)]. *)
Inductive pyval :=
| VInt (n : nat)
| VWeight (w : W)
| VRef (l : loc)
| VTuple (n : nat) (w : W).

(** A list; a dictionary from vertices to lists; a set of vertices; the
    list [min_heap], as [heapq] keeps it; an instance of [DSU], whose
    attributes refer to its two lists. *)
Inductive pyobj :=
| OList (items : list pyval)
| ODict (entries : gmap nat loc)
| OSet (elems : gset nat)
| OHeap (entries : list (@entry W))
| OInstance (parent_ref rank_ref : loc).

Abbreviation store := (gmap loc pyobj) (only parsing).

(** A run from a store gives a value or an exception, and a store. *)
Definition py (A : Type) : Type := store → outcome A * store.

Definition ret {A} (a : A) : py A := λ σ, (Ok a, σ).

Definition throw {A} (e : exn) : py A := λ σ, (Raise e, σ).

Definition bind_py {A B} (m : py A) (f : A → py B) : py B :=
  λ σ, let '(r, σ1) := m σ in
       match r with
       | Ok a => f a σ1
       | Raise e => (Raise e, σ1)
       end.

(** A new object. *)
Definition py_alloc (o : pyobj) : py loc :=
  λ σ, let l := fresh (dom σ) in (Ok l, <[l := o]> σ).

(** Following a reference. *)
Definition py_load (l : loc) : py pyobj :=
  λ σ, (match σ !! l with Some o => Ok o | None => Raise TypeError end, σ).

(** Mutating the object behind a reference. *)
Definition py_store (l : loc) (o : pyobj) : py unit :=
  λ σ, (Ok tt, <[l := o]> σ).

End ObjectModel.

Notation "'do!' x ':=' m 'in' k" := (bind_py m (λ x, k))
  (at level 10, x name, m at level 200, k at level 200,
   format "'do!'  x  ':='  m  'in'  '//' k").

Section ObjectEngines.
Context {W : Type} {WW : Weight W}.

Abbreviation store := (gmap loc (@pyobj W)) (only parsing).

(** *** Lists, sets and the queue *)

Definition list_load (l : loc) : py (list (@pyval W)) :=
  do! o := py_load l in
  match o with
  | OList items => ret items
  | _ => throw TypeError
  end.

(** [l[i]] *)
Definition list_getitem (l : loc) (i : nat) : py (@pyval W) :=
  do! items := list_load l in
  match items !! i with
  | Some v => ret v
  | None => throw IndexError
  end.

(** [l[i]], an integer. *)
Definition int_getitem (l : loc) (i : nat) : py nat :=
  do! v := list_getitem l i in
  match v with
  | VInt n => ret n
  | _ => throw (W:=W) TypeError
  end.

(** [l[i] = v] *)
Definition list_setitem (l : loc) (i : nat) (v : @pyval W) : py unit :=
  do! items := list_load l in
  if decide (i < length items) then py_store l (OList (<[i:=v]> items))
  else throw IndexError.

(** [l.append(v)] *)
Definition list_append (l : loc) (v : @pyval W) : py unit :=
  do! items := list_load l in
  py_store l (OList (items ++ [v])).

(** [len(l)] *)
Definition list_len (l : loc) : py nat :=
  do! items := list_load l in
  ret (length items).

Definition set_load (s : loc) : py (gset nat) :=
  do! o := py_load s in
  match o with
  | OSet elems => ret elems
  | _ => throw (W:=W) TypeError
  end.

(** [s.add(v)] *)
Definition set_add (s : loc) (v : nat) : py unit :=
  do! elems := set_load s in
  py_store (W:=W) s (OSet (elems ∪ {[v]})).

Definition heap_load (h : loc) : py (list (@entry W)) :=
  do! o := py_load h in
  match o with
  | OHeap entries => ret entries
  | _ => throw TypeError
  end.

(** [heapq.heappush(h, x)] *)
Definition heappush_obj (h : loc) (x : @entry W) : py unit :=
  do! entries := heap_load h in
  py_store h (OHeap (heappush entries x)).

(** [heapq.heappop(h)] *)
Definition heappop_obj (h : loc) : py (@entry W) :=
  do! entries := heap_load h in
  match entries with
  | [] => throw IndexError
  | x :: entries' =>
      do! _ := py_store h (OHeap entries') in
      ret x
  end.

(** *** The DSU instance *)

(** [DSU(n)]: the two lists and the instance that holds them. *)
Definition DSU_init_obj (n : Z) : py loc :=
  do! parent_ref := py_alloc (OList (VInt (W:=W) <$> seq 0 (Z.to_nat n))) in
  do! rank_ref := py_alloc (OList (replicate (Z.to_nat n) (VInt (W:=W) 1))) in
  py_alloc (OInstance parent_ref rank_ref).

(** [self.parent] and [self.rank] *)
Definition attr_parent (self : loc) : py loc :=
  do! o := py_load (W:=W) self in
  match o with
  | OInstance parent_ref _ => ret parent_ref
  | _ => throw TypeError
  end.

Definition attr_rank (self : loc) : py loc :=
  do! o := py_load (W:=W) self in
  match o with
  | OInstance _ rank_ref => ret rank_ref
  | _ => throw TypeError
  end.

(** [self.parent[i]] *)
Definition parent_getitem (self : loc) (i : nat) : py nat :=
  do! parent_ref := attr_parent self in
  int_getitem parent_ref i.

(** [self.parent[i] = v] *)
Definition parent_setitem (self : loc) (i v : nat) : py unit :=
  do! parent_ref := attr_parent self in
  list_setitem parent_ref i (VInt v).

(** [self.rank[i]] *)
Definition rank_getitem (self : loc) (i : nat) : py nat :=
  do! rank_ref := attr_rank self in
  int_getitem rank_ref i.

(** [self.rank[i] = v] *)
Definition rank_setitem (self : loc) (i v : nat) : py unit :=
  do! rank_ref := attr_rank self in
  list_setitem rank_ref i (VInt v).

Fixpoint find_rec_obj (fuel : nat) (self : loc) (i : nat) : py nat :=
  match fuel with
  | O => throw (W:=W) RecursionError
  | S fuel' =>
      do! p := parent_getitem self i in
      if decide (p = i) then ret i
      else
        do! p' := parent_getitem self i in
        do! root := find_rec_obj fuel' self p' in
        do! _ := parent_setitem self i root in
        parent_getitem self i
  end.

(** [self.find(i)], with the fuel of [find]. *)
Definition find_obj (self : loc) (i : nat) : py nat :=
  do! parent_ref := attr_parent self in
  do! items := list_load parent_ref in
  find_rec_obj (S (length items)) self i.

(** [self.union(x, y)] *)
Definition union_obj (self : loc) (x y : nat) : py bool :=
  do! root_x := find_obj self x in
  do! root_y := find_obj self y in
  if decide (root_x ≠ root_y) then
    do! rank_x := rank_getitem self root_x in
    do! rank_y := rank_getitem self root_y in
    if decide (rank_x < rank_y) then
      do! _ := parent_setitem self root_x root_y in
      ret true
    else
      do! rank_x := rank_getitem self root_x in
      do! rank_y := rank_getitem self root_y in
      if decide (rank_y < rank_x) then
        do! _ := parent_setitem self root_y root_x in
        ret true
      else
        do! _ := parent_setitem self root_y root_x in
        do! rank_x := rank_getitem self root_x in
        do! _ := rank_setitem self root_x (rank_x + 1) in
        ret true
  else ret false.

(** *** Kruskal *)

(** [item[2]], the sort key. *)
Definition py_key (item : @pyval W) : py W :=
  match item with
  | VRef l =>
      do! v := list_getitem l 2 in
      match v with
      | VWeight w => ret w
      | _ => throw TypeError
      end
  | _ => throw TypeError
  end.

Fixpoint py_keys (items : list (@pyval W)) : py (list (W * @pyval W)) :=
  match items with
  | [] => ret []
  | item :: rest =>
      do! w := py_key item in
      do! l := py_keys rest in
      ret ((w, item) :: l)
  end.

Fixpoint insert_by_key (x : W * @pyval W) (l : list (W * @pyval W))
    : list (W * @pyval W) :=
  match l with
  | [] => [x]
  | y :: l' =>
      if w_ltb y.1 x.1 then y :: insert_by_key x l' else x :: y :: l'
  end.

(** [sorted(edge_list, key=lambda item: item[2])]: a new list of the same
    items. *)
Definition py_sorted (edge_list : loc) : py loc :=
  do! items := list_load edge_list in
  do! ks := py_keys items in
  py_alloc (OList ((foldr insert_by_key [] ks).*2)).

(** [node1, node2, weight = item] *)
Definition py_unpack_edge (item : @pyval W) : py (@edge W) :=
  match item with
  | VRef l =>
      do! fields := list_load l in
      match fields with
      | [VInt node1; VInt node2; VWeight weight] => ret (node1, node2, weight)
      | _ => throw TypeError
      end
  | _ => throw TypeError
  end.

(** The [for] loop of [kruskals_mst] over the items of the sorted list;
    [mst_edges.append([node1, node2, weight])] appends a new list. *)
Fixpoint kruskal_loop_obj (num_vertices : Z) (items : list (@pyval W))
    (dsu mst_edges : loc) (mst_cost : W) : py W :=
  match items with
  | [] => ret mst_cost
  | item :: rest =>
      do! e := py_unpack_edge item in
      let '(node1, node2, weight) := e in
      do! merged := union_obj dsu node1 node2 in
      if merged : bool then
        let mst_cost' := w_add mst_cost weight in
        do! row := py_alloc (OList [VInt node1; VInt node2; VWeight weight]) in
        do! _ := list_append mst_edges (VRef row) in
        do! n := list_len mst_edges in
        if decide (Z.of_nat n = (num_vertices - 1)%Z) then ret mst_cost'
        else kruskal_loop_obj num_vertices rest dsu mst_edges mst_cost'
      else kruskal_loop_obj num_vertices rest dsu mst_edges mst_cost
  end.

(** [kruskals_mst] of [final.py]: the cost and the reference of
    [mst_edges]. *)
Definition kruskals_mst_obj (num_vertices : Z) (edge_list : loc)
    : py (W * loc) :=
  do! sorted_edge_list := py_sorted edge_list in
  do! dsu := DSU_init_obj num_vertices in
  let mst_cost := w_zero in
  do! mst_edges := py_alloc (OList []) in
  do! items := list_load sorted_edge_list in
  do! mst_cost := kruskal_loop_obj num_vertices items dsu mst_edges mst_cost in
  ret (mst_cost, mst_edges).

(** *** Prim *)

(** The tuples of a neighbour list, as the [for] loops unpack them. *)
Fixpoint py_pairs (items : list (@pyval W)) : outcome (list (nat * W)) :=
  match items with
  | [] => Ok []
  | VTuple n w :: rest =>
      match py_pairs rest with
      | Ok l => Ok ((n, w) :: l)
      | Raise e => Raise e
      end
  | _ => Raise TypeError
  end.

(** [adj_list.get(v, [])] *)
Definition adj_get_obj (adj_list : loc) (v : nat) : py (list (nat * W)) :=
  do! o := py_load adj_list in
  match o with
  | ODict entries =>
      match entries !! v with
      | None => ret []
      | Some lv =>
          do! items := list_load lv in
          match py_pairs items with
          | Ok nbrs => ret nbrs
          | Raise e => throw e
          end
      end
  | _ => throw TypeError
  end.

(** The [for] loop that seeds the queue. *)
Fixpoint push_start_obj (min_heap : loc) (start_vertex : nat)
    (nbrs : list (nat * W)) : py unit :=
  match nbrs with
  | [] => ret (W:=W) tt
  | (neighbor, weight) :: rest =>
      do! _ := heappush_obj min_heap (weight, start_vertex, neighbor) in
      push_start_obj min_heap start_vertex rest
  end.

(** The inner [for] loop. *)
Fixpoint push_unvisited_obj (min_heap visited : loc) (v : nat)
    (nbrs : list (nat * W)) : py unit :=
  match nbrs with
  | [] => ret (W:=W) tt
  | (next_neighbor, next_weight) :: rest =>
      do! seen := set_load visited in
      do! _ := (if decide (next_neighbor ∉ seen)
                then heappush_obj min_heap (next_weight, v, next_neighbor)
                else ret tt) in
      push_unvisited_obj min_heap visited v rest
  end.

(** One turn of the [while] loop: [None] when its condition is false, the
    new cost otherwise. *)
Definition prim_step_obj (num_vertices : Z)
    (adj_list min_heap visited mst_edges : loc) (mst_cost : W)
    : py (option W) :=
  do! entries := heap_load min_heap in
  match entries with
  | [] => ret None
  | _ :: _ =>
      do! seen := set_load visited in
      if decide (Z.of_nat (size seen) < num_vertices)%Z then
        do! x := heappop_obj min_heap in
        let '(weight, u, v) := x in
        do! seen := set_load visited in
        if decide (v ∉ seen) then
          do! _ := set_add visited v in
          let mst_cost' := w_add mst_cost weight in
          do! row := py_alloc (OList [VInt u; VInt v; VWeight weight]) in
          do! _ := list_append mst_edges (VRef row) in
          do! nbrs := adj_get_obj adj_list v in
          do! _ := push_unvisited_obj min_heap visited v nbrs in
          ret (Some mst_cost')
        else ret (Some mst_cost)
      else ret None
  end.

(** The [while] loop; [None] when [fuel] turns did not finish it. *)
Fixpoint prim_loop_obj (fuel : nat) (num_vertices : Z)
    (adj_list min_heap visited mst_edges : loc) (mst_cost : W)
    : py (option W) :=
  match fuel with
  | O => ret None
  | S fuel' =>
      do! r := prim_step_obj num_vertices adj_list min_heap visited mst_edges
                             mst_cost in
      match r with
      | None => ret (Some mst_cost)
      | Some mst_cost' =>
          prim_loop_obj fuel' num_vertices adj_list min_heap visited mst_edges
                        mst_cost'
      end
  end.

(** [prims_mst]: the cost and the reference of [mst_edges]. *)
Definition prims_mst_obj (fuel : nat) (num_vertices : Z) (adj_list : loc)
    : py (option (W * loc)) :=
  if decide (num_vertices = 0%Z) then
    do! mst_edges := py_alloc (OList []) in
    ret (Some (w_zero, mst_edges))
  else
    do! min_heap := py_alloc (OHeap []) in
    do! visited := py_alloc (OSet ∅) in
    let mst_cost := w_zero in
    do! mst_edges := py_alloc (OList []) in
    let start_vertex := 0 in
    do! _ := set_add visited start_vertex in
    do! nbrs := adj_get_obj adj_list start_vertex in
    do! _ := push_start_obj min_heap start_vertex nbrs in
    do! r := prim_loop_obj fuel num_vertices adj_list min_heap visited
                           mst_edges mst_cost in
    match r with
    | Some mst_cost => ret (Some (mst_cost, mst_edges))
    | None => ret None
    end.

End ObjectEngines.

(** *** [kruskals_mst] of [index.py] *)

Module IndexObj.

(** [comparator(a, b)]: it reads [a[2]] and [b[2]]. *)
Definition comparator (a b : @pyval Z) : py (W:=Z) Z :=
  do! x := py_key a in
  do! y := py_key b in
  ret (x - y)%Z.

(** The sort with [cmp_to_key(comparator)], which calls the comparator on
    the items it compares. *)
Fixpoint insert_by_cmp (x : @pyval Z) (l : list (@pyval Z))
    : py (W:=Z) (list (@pyval Z)) :=
  match l with
  | [] => ret [x]
  | y :: l' =>
      do! c := comparator y x in
      if (c <? 0)%Z then
        do! l'' := insert_by_cmp x l' in
        ret (y :: l'')
      else ret (x :: y :: l')
  end.

Fixpoint sort_by_cmp (items : list (@pyval Z)) : py (W:=Z) (list (@pyval Z)) :=
  match items with
  | [] => ret []
  | x :: rest =>
      do! sorted_rest := sort_by_cmp rest in
      insert_by_cmp x sorted_rest
  end.

Definition py_sorted (edge_list : loc) : py (W:=Z) loc :=
  do! items := list_load edge_list in
  do! sorted_items := sort_by_cmp items in
  py_alloc (OList sorted_items).

Fixpoint kruskal_loop (num_total_vertices : Z) (items : list (@pyval Z))
    (dsu : loc) (mst_cost : Z) (mst_edge_count : nat) : py (W:=Z) (Z * nat) :=
  match items with
  | [] => ret (mst_cost, mst_edge_count)
  | item :: rest =>
      do! e := py_unpack_edge item in
      let '(node1, node2, weight) := e in
      do! r1 := find_obj dsu node1 in
      do! r2 := find_obj dsu node2 in
      if decide (r1 ≠ r2) then
        do! _ := union_obj dsu node1 node2 in
        let mst_cost' := (mst_cost + weight)%Z in
        let mst_edge_count' := S mst_edge_count in
        if decide (Z.of_nat mst_edge_count' = (num_total_vertices - 1)%Z)
        then ret (mst_cost', mst_edge_count')
        else kruskal_loop num_total_vertices rest dsu mst_cost' mst_edge_count'
      else kruskal_loop num_total_vertices rest dsu mst_cost mst_edge_count
  end.

Definition kruskals_mst (num_total_vertices : Z) (edge_list : loc)
    : py (W:=Z) (Z * bool) :=
  do! sorted_edge_list := py_sorted edge_list in
  do! dsu := DSU_init_obj num_total_vertices in
  do! items := list_load sorted_edge_list in
  do! r := kruskal_loop num_total_vertices items dsu 0%Z 0 in
  let '(mst_cost, mst_edge_count) := r in
  ret (mst_cost,
       bool_decide ((Z.of_nat mst_edge_count < num_total_vertices - 1)%Z
                    ∧ (num_total_vertices > 0)%Z)).

End IndexObj.



(** * Parent chains of the DSU *)

(** [chain p k i r]: following the parent entries of [p] from [i], the
    root [r] is reached after [k] steps. *)
Inductive chain (p : list nat) : nat → nat → nat → Prop :=
| chain_root r : p !! r = Some r → chain p 0 r r
| chain_step k i j r :
    p !! i = Some j → j ≠ i → chain p k j r → chain p (S k) i r.

Definition root_of (p : list nat) (i r : nat) : Prop := ∃ k, chain p k i r.

Definition same_set (p : list nat) (i j : nat) : Prop :=
  ∃ r, root_of p i r ∧ root_of p j r.

Lemma chain_fun p k i r k' r' :
  chain p k i r → chain p k' i r' → k = k' ∧ r = r'.
Proof.
  intros Hc. revert k' r'.
  induction Hc as [r Hr|k i j r Hi Hne Hc IH]; intros k' r' Hc'.
  - inversion Hc'; subst; [done | congruence].
  - inversion Hc' as [|k2 i2 j2 r2 Hi2 Hne2 Hc2]; subst; [congruence|].
    assert (j2 = j) as -> by congruence.
    destruct (IH _ _ Hc2) as [-> ->]. done.
Qed.

Lemma root_of_fun p i r r' : root_of p i r → root_of p i r' → r = r'.
Proof. intros [k Hk] [k' Hk']. by destruct (chain_fun _ _ _ _ _ _ Hk Hk'). Qed.

Lemma chain_end_root p k i r : chain p k i r → p !! r = Some r.
Proof. induction 1; auto. Qed.

Lemma chain_start_lt p k i r : chain p k i r → i < length p.
Proof. destruct 1; eapply lookup_lt_Some; eauto. Qed.

Lemma root_of_lt p i r : root_of p i r → i < length p.
Proof. intros [k Hk]. eapply chain_start_lt, Hk. Qed.

Lemma root_of_root p i r : root_of p i r → root_of p r r.
Proof. intros [k Hk]. exists 0. constructor. eapply chain_end_root, Hk. Qed.

Lemma root_of_self p r : p !! r = Some r → root_of p r r.
Proof. exists 0. by constructor. Qed.

Lemma root_of_self_inv p i : root_of p i i → p !! i = Some i.
Proof. intros [k Hk]. eapply chain_end_root, Hk. Qed.

Lemma root_of_step p i j r :
  p !! i = Some j → root_of p j r → root_of p i r.
Proof.
  intros Hi [k Hk]. destruct (decide (j = i)) as [->|Hne].
  - by exists k.
  - exists (S k). econstructor; eauto.
Qed.

(** The entries of a chain are pairwise distinct: a chain that ends is no
    longer than the array. *)
Lemma chain_nodes p k i r :
  chain p k i r →
  ∃ L : list nat, length L = S k ∧ NoDup L ∧
    ∀ x, x ∈ L → ∃ k', k' ≤ k ∧ chain p k' x r.
Proof.
  induction 1 as [r Hr|k i j r Hi Hne Hc (L & HL & HND & HLx)].
  - exists [r]. split_and!; [done|apply NoDup_singleton|].
    intros x ->%list_elem_of_singleton. exists 0. split; [lia|by constructor].
  - exists (i :: L). split_and!.
    + simpl. by rewrite HL.
    + apply NoDup_cons. split; [|done].
      intros (k' & Hk' & Hc')%HLx.
      assert (chain p (S k) i r) as Hc2 by (econstructor; eauto).
      destruct (chain_fun _ _ _ _ _ _ Hc' Hc2). lia.
    + intros x [->|Hx]%elem_of_cons.
      * exists (S k). split; [lia|]. econstructor; eauto.
      * destruct (HLx _ Hx) as (k' & ? & ?). exists k'. split; [lia|done].
Qed.

Lemma chain_bound p k i r : chain p k i r → k < length p.
Proof.
  intros (L & HL & HND & HLx)%chain_nodes.
  assert (L ⊆+ seq 0 (length p)) as Hsub.
  { apply NoDup_submseteq; [done|]. intros x (k' & _ & Hc)%HLx.
    apply elem_of_seq. split; [lia|]. simpl. eapply chain_start_lt, Hc. }
  apply submseteq_length in Hsub. rewrite length_seq in Hsub. lia.
Qed.

(** Path compression: redirecting a non-root entry to its root leaves the
    root of every entry as it was. *)
Lemma root_of_compress p i r :
  root_of p i r → i ≠ r →
  ∀ j r', root_of (<[i:=r]> p) j r' ↔ root_of p j r'.
Proof.
  intros Hir Hne j r'.
  assert (Hi : i < length p) by eauto using root_of_lt.
  assert (Hnr : p !! i ≠ Some i).
  { intros Hroot. apply Hne. eapply root_of_fun; [apply root_of_self|]; done. }
  split.
  - intros [k Hk]. induction Hk as [r' Hr'|k j q r' Hj Hq Hc IH].
    + destruct (decide (r' = i)) as [->|Hd].
      * rewrite list_lookup_insert_eq in Hr' by done. congruence.
      * rewrite list_lookup_insert_ne in Hr' by done. by apply root_of_self.
    + destruct (decide (j = i)) as [->|Hd].
      * rewrite list_lookup_insert_eq in Hj by done. simplify_eq.
        assert (r' = q) as ->; [|done].
        symmetry. eapply root_of_fun; [|apply IH]. eauto using root_of_root.
      * rewrite list_lookup_insert_ne in Hj by done.
        eapply root_of_step; eauto.
  - intros [k Hk]. induction Hk as [r' Hr'|k j q r' Hj Hq Hc IH].
    + apply root_of_self. rewrite list_lookup_insert_ne; [done|congruence].
    + destruct (decide (j = i)) as [->|Hd].
      * assert (r' = r) as ->.
        { eapply root_of_fun; [|apply Hir]. exists (S k). econstructor; eauto. }
        eapply root_of_step; [by apply list_lookup_insert_eq|].
        apply root_of_self. rewrite list_lookup_insert_ne by done.
        eapply root_of_self_inv, root_of_root, Hir.
      * eapply root_of_step; [|apply IH].
        by rewrite list_lookup_insert_ne.
Qed.

(** Linking the root [a] under the root [b]. *)
Lemma root_of_link p a b :
  p !! a = Some a → p !! b = Some b → a ≠ b →
  ∀ j r', root_of (<[a:=b]> p) j r' ↔
          (root_of p j r' ∧ r' ≠ a) ∨ (root_of p j a ∧ r' = b).
Proof.
  intros Ha Hb Hab j r'.
  assert (Hla : a < length p) by eauto using lookup_lt_Some.
  split.
  - intros [k Hk]. induction Hk as [r' Hr'|k j q r' Hj Hq Hc IH].
    + destruct (decide (r' = a)) as [->|Hd].
      * rewrite list_lookup_insert_eq in Hr' by done. congruence.
      * rewrite list_lookup_insert_ne in Hr' by done.
        left. split; [by apply root_of_self|done].
    + destruct (decide (j = a)) as [->|Hd].
      * rewrite list_lookup_insert_eq in Hj by done. simplify_eq.
        right. split; [by apply root_of_self|].
        destruct IH as [[Hq' _]|[Hq' _]].
        -- eapply root_of_fun; [apply Hq'|by apply root_of_self].
        -- exfalso. apply Hab. eapply root_of_fun; [apply Hq'|by apply root_of_self].
      * rewrite list_lookup_insert_ne in Hj by done.
        destruct IH as [[Hq' ?]|[Hq' ?]]; [left|right];
          (split; [eapply root_of_step; eauto|done]).
  - intros [[[k Hk] Hne]|[[k Hk] ->]].
    + induction Hk as [r' Hr'|k j q r' Hj Hq Hc IH].
      * apply root_of_self. by rewrite list_lookup_insert_ne.
      * eapply root_of_step; [|by apply IH].
        rewrite list_lookup_insert_ne; [done|congruence].
    + remember a as a' eqn:Ea in Hk.
      induction Hk as [r' Hr'|k j q r' Hj Hq Hc IH]; subst.
      * eapply root_of_step; [by apply list_lookup_insert_eq|].
        apply root_of_self. by rewrite list_lookup_insert_ne.
      * eapply root_of_step; [|by apply IH].
        rewrite list_lookup_insert_ne; [done|congruence].
Qed.

(** * What [find] and [union] compute *)

Lemma find_rec_chain fuel d k i r :
  chain (parent d) k i r → k < fuel →
  ∃ p', find_rec fuel d i = Ok (mkDSU p' (rank d), r) ∧
        length p' = length (parent d) ∧
        p' !! r = Some r ∧ (i ≠ r → p' !! i = Some r) ∧
        (∀ j r', root_of p' j r' ↔ root_of (parent d) j r').
Proof.
  revert k i. induction fuel as [|fuel IH]; intros k i Hc Hk; [lia|].
  inversion Hc as [r0 Hr|k0 i0 j r0 Hi Hne Hc']; subst.
  - exists (parent d). simpl. unfold py_getitem. rewrite Hr.
    rewrite decide_True by done. destruct d; simpl in *. by split_and!.
  - destruct (IH k0 j Hc' ltac:(lia)) as (p1 & Hf & Hlen & Hr1 & Hj1 & Hroots).
    assert (Hil : i < length p1).
    { rewrite Hlen. eapply lookup_lt_Some, Hi. }
    assert (Hir : i ≠ r).
    { intros ->. apply chain_end_root in Hc'. congruence. }
    assert (Hroot1 : root_of p1 i r) by (apply Hroots; by exists (S k0)).
    exists (<[i:=r]> p1). simpl. unfold py_getitem at 1. rewrite Hi.
    rewrite decide_False by done. rewrite Hf. unfold py_setitem. simpl.
    rewrite decide_True by done. unfold py_getitem. simpl.
    rewrite list_lookup_insert_eq by done. split_and!.
    + done.
    + by rewrite length_insert.
    + by rewrite list_lookup_insert_ne.
    + done.
    + intros j' r'. rewrite root_of_compress by done. apply Hroots.
Qed.

(** The state that makes [find] well defined: both arrays have [n] entries
    and every parent chain ends in a root. *)
Definition dsu_ok (n : nat) (d : DSU) : Prop :=
  length (parent d) = n ∧ length (rank d) = n ∧
  ∀ i, i < n → ∃ r, root_of (parent d) i r.

Definition find_post (n : nat) (d : DSU) (i : nat) (d' : DSU) (r : nat) : Prop :=
  root_of (parent d) i r ∧ rank d' = rank d ∧ dsu_ok n d' ∧
  parent d' !! r = Some r ∧ (i ≠ r → parent d' !! i = Some r) ∧
  ∀ j r', root_of (parent d') j r' ↔ root_of (parent d) j r'.

Lemma find_rec_spec n d i fuel :
  dsu_ok n d → i < n → n < fuel →
  ∃ d' r, find_rec fuel d i = Ok (d', r) ∧ find_post n d i d' r.
Proof.
  intros (Hp & Hr & Hroots) Hi Hfuel.
  destruct (Hroots i Hi) as (r & k & Hk).
  assert (k < fuel) as Hkf by (apply chain_bound in Hk; lia).
  destruct (find_rec_chain fuel d k i r Hk Hkf) as (p' & Hf & Hlen & Hrr & Hir & Hpres).
  exists (mkDSU p' (rank d)), r. split; [done|].
  split_and!; simpl; try done.
  - by exists k.
  - split_and!; simpl; [congruence|done|].
    intros j Hj. destruct (Hroots j Hj) as [rj Hrj]. exists rj. by apply Hpres.
Qed.

Lemma find_spec n d i :
  dsu_ok n d → i < n →
  ∃ d' r, find d i = Ok (d', r) ∧ find_post n d i d' r.
Proof.
  intros Hok Hi. apply find_rec_spec; [done..|]. destruct Hok as [-> _]. lia.
Qed.

(** A second [find] on compressed entries changes nothing. *)
Lemma find_compressed d i r :
  parent d !! i = Some r → parent d !! r = Some r → find d i = Ok (d, r).
Proof.
  intros Hi Hr. unfold find.
  assert (i < length (parent d)) as Hlt by eauto using lookup_lt_Some.
  destruct (length (parent d)) as [|m] eqn:Hm; [lia|].
  cbn [find_rec]. unfold py_getitem at 1. rewrite Hi.
  destruct (decide (r = i)) as [->|Hne]; [done|].
  unfold py_getitem at 1. rewrite Hr. rewrite decide_True by done.
  unfold py_setitem. rewrite decide_True by lia. cbn [parent rank].
  rewrite list_insert_id by done. unfold py_getitem. rewrite Hi.
  by destruct d.
Qed.

Definition roots (p : list nat) : list nat :=
  filter (λ i, p !! i = Some i) (seq 0 (length p)).

Lemma elem_of_roots p r : r ∈ roots p ↔ p !! r = Some r.
Proof.
  unfold roots. rewrite list_elem_of_filter, elem_of_seq. split; [tauto|].
  intros Hr. split; [done|]. apply lookup_lt_Some in Hr. lia.
Qed.

Lemma NoDup_roots p : NoDup (roots p).
Proof. apply NoDup_filter, NoDup_seq. Qed.

Lemma roots_preserved p p' :
  length p' = length p →
  (∀ j r', root_of p' j r' ↔ root_of p j r') → roots p' = roots p.
Proof.
  intros Hlen Hpres. unfold roots. rewrite Hlen. apply list_filter_iff.
  intros i. split; intros Hi%root_of_self; apply root_of_self_inv;
    by apply Hpres.
Qed.

Lemma filter_iff_in {A} (P Q : A → Prop) `{∀ x, Decision (P x)}
    `{∀ x, Decision (Q x)} (l : list A) :
  (∀ x, x ∈ l → (P x ↔ Q x)) → filter P l = filter Q l.
Proof.
  induction l as [|x l IH]; intros HPQ; [done|].
  rewrite !filter_cons, IH by (intros y Hy; apply HPQ; by right).
  destruct (decide (P x)) as [HP|HP], (decide (Q x)) as [HQ|HQ]; try done;
    exfalso; [apply HQ|apply HP]; by apply (HPQ x); [left|].
Qed.

Lemma filter_drop_one {A} (P Q : A → Prop) `{∀ x, Decision (P x)}
    `{∀ x, Decision (Q x)} (a : A) (l : list A) :
  NoDup l → a ∈ l → P a → ¬ Q a → (∀ x, x ≠ a → (P x ↔ Q x)) →
  length (filter P l) = S (length (filter Q l)).
Proof.
  intros HND Ha HPa HQa HPQ.
  induction l as [|x l IH]; [by apply elem_of_nil in Ha|].
  apply NoDup_cons in HND as [Hx HND].
  rewrite !filter_cons. apply elem_of_cons in Ha as [<-|Ha].
  - rewrite decide_True, decide_False by done. simpl. f_equal. f_equal.
    apply filter_iff_in. intros y Hy. apply HPQ. intros ->. done.
  - assert (x ≠ a) as Hxa by (intros ->; done).
    specialize (IH HND Ha).
    destruct (decide (P x)) as [HP|HP], (decide (Q x)) as [HQ|HQ]; simpl;
      try (by rewrite IH); exfalso; [apply HQ|apply HP]; by apply (HPQ x).
Qed.

Lemma roots_link p a b :
  p !! a = Some a → p !! b = Some b → a ≠ b →
  length (roots p) = S (length (roots (<[a:=b]> p))).
Proof.
  intros Ha Hb Hab. unfold roots. rewrite length_insert.
  assert (a < length p) as Hla by eauto using lookup_lt_Some.
  apply (filter_drop_one _ _ a).
  - apply NoDup_seq.
  - apply elem_of_seq. lia.
  - done.
  - rewrite list_lookup_insert_eq by done. congruence.
  - intros x Hx. by rewrite list_lookup_insert_ne.
Qed.

(** The outcome of [union], by cases on the two roots. *)
Definition union_post (n : nat) (d : DSU) (x y : nat) (d' : DSU) (b : bool) : Prop :=
  ∃ rx ry,
    root_of (parent d) x rx ∧ root_of (parent d) y ry ∧ dsu_ok n d' ∧
    if decide (rx = ry) then
      b = false ∧ rank d' = rank d ∧ roots (parent d') = roots (parent d) ∧
      ∀ j r', root_of (parent d') j r' ↔ root_of (parent d) j r'
    else
      b = true ∧ length (roots (parent d)) = S (length (roots (parent d'))) ∧
      ∃ lo hi, (lo = rx ∧ hi = ry ∨ lo = ry ∧ hi = rx) ∧
        ∀ j r', root_of (parent d') j r' ↔
                (root_of (parent d) j r' ∧ r' ≠ lo) ∨
                (root_of (parent d) j lo ∧ r' = hi).

Lemma dsu_ok_link n p rk rk' a b :
  dsu_ok n (mkDSU p rk) → length rk' = n →
  p !! a = Some a → p !! b = Some b → a ≠ b →
  dsu_ok n (mkDSU (<[a:=b]> p) rk').
Proof.
  intros (Hp & Hr & Hroots) Hrk' Ha Hb Hab. simpl in *.
  split_and!; simpl; [by rewrite length_insert|done|].
  intros i Hi. destruct (Hroots i Hi) as [r Hr'].
  destruct (decide (r = a)) as [->|Hne].
  - exists b. apply root_of_link; auto.
  - exists r. apply root_of_link; auto.
Qed.

Lemma union_spec n d x y :
  dsu_ok n d → x < n → y < n →
  ∃ d' b, union d x y = Ok (d', b) ∧ union_post n d x y d' b.
Proof.
  intros Hok Hx Hy. unfold union.
  destruct (find_spec n d x Hok Hx) as (d1 & rx & -> & Hrx & Hrk1 & Hok1 & Hrx1 & _ & Hpres1).
  cbn [bind].
  destruct (find_spec n d1 y Hok1 Hy) as (d2 & ry & -> & Hry & Hrk2 & Hok2 & Hry2 & _ & Hpres2).
  cbn [bind].
  assert (Hpres : ∀ j r', root_of (parent d2) j r' ↔ root_of (parent d) j r').
  { intros j r'. rewrite Hpres2. apply Hpres1. }
  assert (Hrx2 : parent d2 !! rx = Some rx).
  { apply root_of_self_inv, Hpres2. by apply root_of_self. }
  assert (Hlen2 : length (parent d2) = n) by apply Hok2.
  assert (Hrlen2 : length (rank d2) = n) by apply Hok2.
  assert (Hlen1 : length (parent d1) = n) by apply Hok1.
  assert (Hlen0 : length (parent d) = n) by apply Hok.
  assert (Hrxn : rx < n) by (rewrite <-Hlen2; eauto using lookup_lt_Some).
  assert (Hryn : ry < n) by (rewrite <-Hlen2; eauto using lookup_lt_Some).
  apply Hpres1 in Hry.
  destruct (decide (rx ≠ ry)) as [Hne|Heq].
  - destruct (lookup_lt_is_Some_2 (rank d2) rx) as [kx Hkx]; [lia|].
    destruct (lookup_lt_is_Some_2 (rank d2) ry) as [ky Hky]; [lia|].
    unfold py_getitem. rewrite Hkx, Hky. cbn [bind].
    assert (Hd2 : d2 = mkDSU (parent d2) (rank d2)) by by destruct d2.
    assert (Hcount : ∀ p', length p' = n →
      (∀ j r', root_of p' j r' ↔ root_of (parent d2) j r') →
      roots p' = roots (parent d2)).
    { intros p' Hl Hp'. apply roots_preserved; [congruence|done]. }
    assert (Hroots02 : roots (parent d2) = roots (parent d)).
    { apply roots_preserved; [congruence|done]. }
    unfold py_setitem.
    destruct (decide (kx < ky)); [|destruct (decide (ky < kx))].
    + rewrite decide_True by lia. cbn [bind]. eexists _, _. split; [done|].
      exists rx, ry. split_and!; [done..| |].
      { rewrite Hd2 in Hok2. by eapply dsu_ok_link. }
      rewrite decide_False by done. split_and!; [done| |].
      { rewrite <-Hroots02. by apply roots_link. }
      exists rx, ry. split; [by left|]. intros j r'. cbn [parent].
      rewrite root_of_link by done. by rewrite !Hpres.
    + rewrite decide_True by lia. cbn [bind]. eexists _, _. split; [done|].
      exists rx, ry. split_and!; [done..| |].
      { rewrite Hd2 in Hok2. by eapply dsu_ok_link. }
      rewrite decide_False by done. split_and!; [done| |].
      { rewrite <-Hroots02. by apply roots_link. }
      exists ry, rx. split; [by right|]. intros j r'. cbn [parent].
      rewrite root_of_link by done. by rewrite !Hpres.
    + rewrite !decide_True by lia. cbn [bind]. eexists _, _. split; [done|].
      exists rx, ry. split_and!; [done..| |].
      { rewrite Hd2 in Hok2. eapply dsu_ok_link; try done.
        by rewrite length_insert. }
      rewrite decide_False by done. split_and!; [done| |].
      { rewrite <-Hroots02. by apply roots_link. }
      exists ry, rx. split; [by right|]. intros j r'. cbn [parent].
      rewrite root_of_link by done. by rewrite !Hpres.
  - assert (rx = ry) as Heq' by (destruct (decide (rx = ry)); [done|by exfalso; apply Heq]).
    eexists _, _. split; [done|]. exists rx, ry. split_and!; [done..|].
    rewrite decide_True by done. split_and!; [done|congruence| |done].
    apply roots_preserved; [congruence|done].
Qed.

(** * Undirected connectivity over a list of edges *)

Section Connectivity.
Context {W : Type}.
Implicit Types (F T E : list (@edge W)) (e : @edge W).

(** [flip e] is the same undirected edge, read from its other end. *)
Definition flip e : @edge W := (e_dst e, e_src e, e_weight e).

Definition joins e (a b : nat) : Prop :=
  (e_src e = a ∧ e_dst e = b) ∨ (e_src e = b ∧ e_dst e = a).

Definition adjacent F (a b : nat) : Prop := ∃ e, e ∈ F ∧ joins e a b.

Definition conn F : relation nat := rtc (adjacent F).

(** An edge of the graph [E], in either orientation. *)
Definition in_graph E e : Prop := e ∈ E ∨ flip e ∈ E.

Definition endpoints_below (n : nat) E : Prop :=
  ∀ e, e ∈ E → e_src e < n ∧ e_dst e < n.

(** [T] connects the vertices [0 .. n-1]. *)
Definition spans (n : nat) T : Prop := ∀ x y, x < n → y < n → conn T x y.

(** A connected graph on the vertices [0 .. n-1]: there is a vertex, and
    any two vertices are joined by a walk. *)
Definition connected (n : nat) E : Prop := 0 < n ∧ spans n E.

Lemma joins_sym e a b : joins e a b → joins e b a.
Proof. unfold joins. tauto. Qed.

Lemma joins_flip e a b : joins (flip e) a b ↔ joins e a b.
Proof. unfold joins, flip, e_src, e_dst. simpl. tauto. Qed.

Lemma joins_self e : joins e (e_src e) (e_dst e).
Proof. by left. Qed.

Lemma adjacent_sym F a b : adjacent F a b → adjacent F b a.
Proof. intros (e & ? & ?). exists e. eauto using joins_sym. Qed.

Lemma conn_refl F a : conn F a a.
Proof. apply rtc_refl. Qed.

Lemma conn_trans F a b c : conn F a b → conn F b c → conn F a c.
Proof. apply (transitivity (R:=rtc _)). Qed.

Lemma conn_sym F a b : conn F a b → conn F b a.
Proof.
  induction 1 as [|a b c Hab _ IH]; [apply conn_refl|].
  eapply conn_trans; [apply IH|]. apply rtc_once. by apply adjacent_sym.
Qed.

Lemma conn_edge F e a b : e ∈ F → joins e a b → conn F a b.
Proof. intros. apply rtc_once. by exists e. Qed.

Lemma conn_mono F F' a b :
  (∀ e, e ∈ F → e ∈ F') → conn F a b → conn F' a b.
Proof.
  intros Hsub. induction 1 as [|a b c (e & He & Hj) _ IH]; [apply conn_refl|].
  eapply rtc_l; [|apply IH]. exists e. auto.
Qed.

Lemma conn_perm F F' a b : F ≡ₚ F' → conn F a b → conn F' a b.
Proof. intros HP. apply conn_mono. intros e. by rewrite HP. Qed.

(** Replacing every edge by two connected end points keeps connectivity. *)
Lemma conn_subst F F' a b :
  (∀ e x y, e ∈ F → joins e x y → conn F' x y) → conn F a b → conn F' a b.
Proof.
  intros Hsub. induction 1 as [|a b c (e & He & Hj) _ IH]; [apply conn_refl|].
  eapply conn_trans; [|apply IH]. eauto.
Qed.

(** Connectivity with one more edge. *)
Lemma conn_cons e F a b :
  conn (e :: F) a b ↔
  conn F a b ∨ (conn F a (e_src e) ∧ conn F (e_dst e) b)
             ∨ (conn F a (e_dst e) ∧ conn F (e_src e) b).
Proof.
  split.
  - induction 1 as [a|a b c (e' & He' & Hj) _ IH]; [left; apply conn_refl|].
    assert (Hstep : conn F a b ∨ joins e a b).
    { apply elem_of_cons in He' as [->|He']; [by right|].
      left. by eapply conn_edge. }
    destruct Hstep as [Hab|[[<- <-]|[<- <-]]].
    + destruct IH as [?|[[? ?]|[? ?]]];
        [left|right; left|right; right]; eauto using conn_trans.
    + destruct IH as [?|[[? ?]|[? ?]]].
      * right. left. split; [apply conn_refl|done].
      * right. left. split; [apply conn_refl|done].
      * left. done.
    + destruct IH as [?|[[? ?]|[? ?]]].
      * right. right. split; [apply conn_refl|done].
      * left. done.
      * right. right. split; [apply conn_refl|done].
  - assert (Hm : ∀ x y, conn F x y → conn (e :: F) x y).
    { intros x y. apply conn_mono. intros ?. by right. }
    assert (He : conn (e :: F) (e_src e) (e_dst e)).
    { eapply conn_edge; [by left|apply joins_self]. }
    intros [?|[[? ?]|[? ?]]]; [by auto|..].
    + eapply conn_trans; [|eapply conn_trans]; [apply Hm|apply He|apply Hm]; done.
    + eapply conn_trans; [|eapply conn_trans];
        [apply Hm|apply conn_sym, He|apply Hm]; done.
Qed.

Lemma conn_snoc e F a b :
  conn (F ++ [e]) a b ↔
  conn F a b ∨ (conn F a (e_src e) ∧ conn F (e_dst e) b)
             ∨ (conn F a (e_dst e) ∧ conn F (e_src e) b).
Proof.
  rewrite <-conn_cons. split; apply conn_perm.
  - by rewrite Permutation_app_comm.
  - by rewrite (Permutation_app_comm F [e]).
Qed.

Lemma conn_below n F a b :
  endpoints_below n F → conn F a b → a < n → b < n.
Proof.
  intros Hn. induction 1 as [|a b c (e & He & Hj) _ IH]; [done|].
  intros Ha. apply IH. destruct (Hn e He), Hj as [[<- <-]|[<- <-]]; done.
Qed.

(** ** Crossing a cut *)

(** A walk from inside a set to outside it uses an edge that leaves the
    set; up to that edge it stays inside. *)
Lemma first_crossing (C : nat → Prop) T u v :
  (∀ x, C x ∨ ¬ C x) → conn T u v → C u → ¬ C v →
  ∃ e a b, e ∈ T ∧ joins e a b ∧ C a ∧ ¬ C b ∧
    rtc (λ x y, adjacent T x y ∧ C x ∧ C y) u a ∧ conn T b v.
Proof.
  intros Hdec. induction 1 as [u|u x v Hux Hxv IH]; intros Hu Hv; [done|].
  destruct (Hdec x) as [Hx|Hx].
  - destruct (IH Hx Hv) as (e & a & b & ? & ? & ? & ? & Hin & ?).
    exists e, a, b. split_and!; try done. eapply rtc_l; [|apply Hin]. done.
  - destruct Hux as (e & He & Hj). exists e, u, x. by split_and!.
Qed.

Lemma inside_avoids (C : nat → Prop) T T' e a b u u' :
  (∀ x, x ∈ T → x = e ∨ x ∈ T') → joins e a b → ¬ C b →
  rtc (λ x y, adjacent T x y ∧ C x ∧ C y) u u' → conn T' u u'.
Proof.
  intros Hsub Hj Hb. induction 1 as [|x y z (Hxy & Hx & Hy) _ IHr];
    [apply conn_refl|].
  eapply conn_trans; [|apply IHr]. destruct Hxy as (e' & He' & Hj').
  eapply conn_edge; [|apply Hj'].
  destruct (Hsub _ He') as [->|?]; [|done].
  exfalso. destruct Hj as [[? ?]|[? ?]], Hj' as [[? ?]|[? ?]]; simplify_eq;
    tauto.
Qed.

(** The edge found can be chosen so that, without it, the walk still
    reaches it from both ends. *)
Lemma cut_edge (C : nat → Prop) T u v :
  (∀ x, C x ∨ ¬ C x) → conn T u v → C u → ¬ C v →
  ∃ e T' a b, T ≡ₚ e :: T' ∧ joins e a b ∧ C a ∧ ¬ C b ∧
    conn T' u a ∧ conn T' b v.
Proof.
  intros Hdec. remember (length T) as m eqn:Hm. revert T Hm.
  induction (lt_wf m) as [m _ IH]. intros T -> Huv Hu Hv.
  destruct (first_crossing C T u v Hdec Huv Hu Hv)
    as (e & a & b & He & Hj & Ha & Hb & Hin & Hbv).
  apply list_elem_of_split in He as (T1 & T2 & ->).
  assert (HP : T1 ++ e :: T2 ≡ₚ e :: (T1 ++ T2))
    by (by rewrite Permutation_middle).
  assert (Hua : conn (T1 ++ T2) u a).
  { eapply inside_avoids; [|apply Hj|apply Hb|apply Hin].
    intros x Hx. rewrite HP in Hx. by apply elem_of_cons in Hx. }
  apply (conn_perm _ _ _ _ HP) in Hbv.
  assert (Hcase : conn (T1 ++ T2) b v ∨ conn (T1 ++ T2) a v).
  { apply conn_cons in Hbv as [?|[[Hb1 Hb2]|[Hb1 Hb2]]]; [by left|..];
      destruct Hj as [[<- <-]|[<- <-]]; auto. }
  destruct Hcase as [Hbv'|Hav].
  - by exists e, (T1 ++ T2), a, b.
  - assert (Hlt : length (T1 ++ T2) < length (T1 ++ e :: T2)).
    { rewrite !length_app. simpl. lia. }
    destruct (IH _ Hlt (T1 ++ T2) eq_refl (conn_trans _ _ _ _ Hua Hav) Hu Hv)
      as (e2 & T2' & a2 & b2 & HP2 & Hj2 & Ha2 & Hb2 & Hua2 & Hbv2).
    assert (Hm : ∀ x y, conn T2' x y → conn (e :: T2') x y).
    { intros x y. apply conn_mono. intros ?. by right. }
    exists e2, (e :: T2'), a2, b2. split_and!; auto.
    rewrite HP, HP2. apply Permutation_swap.
Qed.

Lemma conn_nil_inv (a b : nat) : conn (@nil (@edge W)) a b → a = b.
Proof. induction 1 as [|a b c (e & He & _)]; [done|]. by apply elem_of_nil in He. Qed.

Lemma in_graph_below n E e :
  endpoints_below n E → in_graph E e → e_src e < n ∧ e_dst e < n.
Proof.
  intros Hn [He|He]; apply Hn in He; [done|].
  unfold flip, e_src, e_dst in *. simpl in *. lia.
Qed.

Lemma in_graph_joins E e a b :
  in_graph E e → joins e a b → in_graph E (a, b, e_weight e).
Proof.
  destruct e as [[x y] w]. unfold in_graph, flip, joins, e_src, e_dst, e_weight.
  simpl. intros [?|?] [[<- <-]|[<- <-]]; auto.
Qed.

Lemma in_graph_conn E e a b : in_graph E e → joins e a b → conn E a b.
Proof.
  intros [He|He] Hj; eapply conn_edge; [apply He|done|apply He|].
  by apply joins_flip.
Qed.

End Connectivity.

(** * Kruskal's loop, for any weights *)

Lemma same_set_preserved p p' i j :
  (∀ j r', root_of p' j r' ↔ root_of p j r') →
  same_set p' i j ↔ same_set p i j.
Proof.
  intros Hpres. unfold same_set. split; intros (r & ? & ?); exists r;
    split; by apply Hpres.
Qed.

Lemma same_set_roots p i j ri rj :
  root_of p i ri → root_of p j rj → same_set p i j ↔ ri = rj.
Proof.
  intros Hi Hj. split.
  - intros (r & Hi' & Hj').
    rewrite (root_of_fun _ _ _ _ Hi Hi'). eapply root_of_fun; eauto.
  - intros ->. by exists rj.
Qed.

Lemma same_set_link p p' x y rx ry lo hi i j ri rj :
  root_of p x rx → root_of p y ry → rx ≠ ry →
  (lo = rx ∧ hi = ry ∨ lo = ry ∧ hi = rx) →
  (∀ j r', root_of p' j r' ↔
           (root_of p j r' ∧ r' ≠ lo) ∨ (root_of p j lo ∧ r' = hi)) →
  root_of p i ri → root_of p j rj →
  same_set p' i j ↔
  same_set p i j ∨ (same_set p i x ∧ same_set p y j)
                 ∨ (same_set p i y ∧ same_set p x j).
Proof.
  intros Hx Hy Hne Hlh Hlink Hi Hj.
  rewrite (same_set_roots p i j ri rj), (same_set_roots p i x ri rx),
    (same_set_roots p y j ry rj), (same_set_roots p i y ri ry),
    (same_set_roots p x j rx rj) by done.
  assert (Hroot : ∀ k rk, root_of p k rk →
            root_of p' k (if decide (rk = lo) then hi else rk)).
  { intros k rk Hk. apply Hlink. destruct (decide (rk = lo)) as [->|]; auto. }
  rewrite (same_set_roots p' i j _ _ (Hroot _ _ Hi) (Hroot _ _ Hj)).
  destruct Hlh as [[-> ->]|[-> ->]];
    repeat case_decide; subst; split; intros; try tauto; try congruence;
    try (destruct_or!; destruct_and?; congruence).
Qed.

Lemma roots_seq n : roots (seq 0 n) = seq 0 n.
Proof.
  unfold roots. rewrite length_seq. induction n as [|n IH] using nat_ind; [done|].
  rewrite !seq_S, filter_app. simpl. rewrite filter_cons, filter_nil.
  rewrite decide_True.
  - f_equal. rewrite <-IH at 2. apply filter_iff_in.
    intros x Hx%elem_of_seq. rewrite lookup_app_l by (rewrite length_seq; lia).
    done.
  - rewrite lookup_app_r by (rewrite length_seq; lia).
    rewrite length_seq. by replace (n - n) with 0 by lia.
Qed.

Lemma dsu_ok_init n : dsu_ok n (mkDSU (seq 0 n) (replicate n 1)).
Proof.
  split_and!; simpl; [by rewrite length_seq|by rewrite length_replicate|].
  intros i Hi. exists i. apply root_of_self. by apply lookup_seq_lt.
Qed.

Lemma roots_one_same p n :
  (∀ i, i < n → ∃ r, root_of p i r) → length (roots p) = 1 →
  ∀ i j, i < n → j < n → same_set p i j.
Proof.
  intros Hall Hone i j Hi Hj.
  destruct (Hall i Hi) as [ri Hri], (Hall j Hj) as [rj Hrj].
  apply (same_set_roots _ _ _ _ _ Hri Hrj).
  assert (ri ∈ roots p) as Hri' by (apply elem_of_roots; eauto using root_of_self_inv, root_of_root).
  assert (rj ∈ roots p) as Hrj' by (apply elem_of_roots; eauto using root_of_self_inv, root_of_root).
  destruct (roots p) as [|r [|??]]; simplify_eq/=.
  apply list_elem_of_singleton in Hri', Hrj'. congruence.
Qed.

Lemma same_roots_one p n :
  0 < n → (∀ i, i < n → ∃ r, root_of p i r) → length p = n →
  (∀ i j, i < n → j < n → same_set p i j) → length (roots p) = 1.
Proof.
  intros Hn Hall Hlen Hsame.
  destruct (Hall 0 Hn) as [r0 Hr0].
  assert (r0 ∈ roots p) as Hin
    by (apply elem_of_roots; eauto using root_of_self_inv, root_of_root).
  assert (roots p ⊆+ [r0]) as Hsub.
  { apply NoDup_submseteq; [apply NoDup_roots|].
    intros r Hr%elem_of_roots. apply list_elem_of_singleton.
    assert (r < n) as Hrn by (rewrite <-Hlen; eauto using lookup_lt_Some).
    apply (same_set_roots p r 0 r r0); auto using root_of_self. }
  apply submseteq_length in Hsub. simpl in Hsub.
  destruct (roots p); [by apply elem_of_nil in Hin|simpl in *; lia].
Qed.

Section KruskalShape.
Context {W : Type} {WW : Weight W}.
Implicit Types (F T E L : list (@edge W)) (e : @edge W).

Lemma sum_weights_snoc F e :
  sum_weights (F ++ [e]) = w_add (sum_weights F) (e_weight e).
Proof. unfold sum_weights. by rewrite foldl_app. Qed.

Lemma insert_by_weight_perm e L : insert_by_weight e L ≡ₚ e :: L.
Proof.
  induction L as [|x l IH]; simpl; [done|].
  case_match; [|reflexivity]. rewrite IH. apply Permutation_swap.
Qed.

Lemma sorted_by_weight_perm L : sorted_by_weight L ≡ₚ L.
Proof.
  induction L as [|x l IH]; simpl; [done|].
  rewrite insert_by_weight_perm. by constructor.
Qed.

(** The state of the loop: [processed] are the edges looked at so far,
    [F] the edges selected among them. *)
Record kruskal_shape (n : nat) E (processed : list (@edge W)) (d : DSU) F : Prop := {
  ks_ok : dsu_ok n d;
  ks_sets : ∀ i j, i < n → j < n → same_set (parent d) i j ↔ conn F i j;
  ks_done : ∀ e, e ∈ processed → conn F (e_src e) (e_dst e);
  ks_sub : ∀ e, e ∈ F → e ∈ processed;
  ks_graph : ∀ e, e ∈ processed → e ∈ E;
  ks_nodup : NoDup F;
  ks_count : length (roots (parent d)) + length F = n
}.

Lemma kruskal_shape_below n E processed d F :
  endpoints_below n E → kruskal_shape n E processed d F → endpoints_below n F.
Proof. intros Hn [] e He. auto. Qed.

(** Whether [j] is joined to [x] by the selected edges is decided by the
    roots. *)
Lemma kruskal_shape_conn_dec n E processed d F x j :
  endpoints_below n E → kruskal_shape n E processed d F → x < n →
  conn F x j ∨ ¬ conn F x j.
Proof.
  intros Hn Hinv Hx.
  pose proof (kruskal_shape_below _ _ _ _ _ Hn Hinv) as HFn.
  destruct Hinv as [(_ & _ & Hall) Hsets _ _ _ _ _].
  destruct (decide (j < n)) as [Hj|Hj].
  - destruct (Hall x Hx) as [rx Hrx], (Hall j Hj) as [rj Hrj].
    destruct (decide (rx = rj)) as [->|Hd].
    + left. apply Hsets; [done..|]. by exists rj.
    + right. intros Hc. apply Hsets in Hc; [|done..].
      by apply (same_set_roots _ _ _ _ _ Hrx Hrj) in Hc.
  - right. intros Hc. apply Hj. eapply conn_below; eauto.
Qed.

(** [union] returns [True] only for end points that the selected edges do
    not join yet. *)
Lemma kruskal_shape_apart n E processed d F d' x y :
  kruskal_shape n E processed d F → x < n → y < n →
  union_post n d x y d' true → ¬ conn F x y.
Proof.
  intros [_ Hsets _ _ _ _ _] Hx Hy (rx & ry & Hrx & Hry & _ & Hcase) Hc.
  destruct (decide (rx = ry)) as [|Hne]; [by destruct Hcase|].
  apply Hsets in Hc; [|done..]. apply Hne.
  by apply (same_set_roots _ _ _ _ _ Hrx Hry).
Qed.

Lemma kruskal_shape_skip n E processed d F d' x y w :
  kruskal_shape n E processed d F → x < n → y < n → (x, y, w) ∈ E →
  union_post n d x y d' false →
  kruskal_shape n E (processed ++ [(x, y, w)]) d' F.
Proof.
  intros [Hok Hsets Hdone Hsub Hgraph HND Hcount] Hx Hy HE
    (rx & ry & Hrx & Hry & Hok' & Hcase).
  destruct (decide (rx = ry)) as [->|]; [|by destruct Hcase].
  destruct Hcase as (_ & _ & Hroots & Hpres).
  split; try done.
  - intros i j Hi Hj. rewrite (same_set_preserved _ _ _ _ Hpres). auto.
  - intros e [He | ->%list_elem_of_singleton]%elem_of_app; [auto|].
    apply Hsets; [done..|]. by exists ry.
  - intros e He. apply elem_of_app. left. auto.
  - intros e [He | ->%list_elem_of_singleton]%elem_of_app; auto.
  - by rewrite Hroots.
Qed.

Lemma kruskal_shape_take n E processed d F d' x y w :
  kruskal_shape n E processed d F → x < n → y < n → (x, y, w) ∈ E →
  union_post n d x y d' true →
  kruskal_shape n E (processed ++ [(x, y, w)]) d' (F ++ [(x, y, w)]).
Proof.
  intros Hinv Hx Hy HE Hpost.
  pose proof (kruskal_shape_apart _ _ _ _ _ _ _ _ Hinv Hx Hy Hpost) as Hnxy.
  destruct Hpost as (rx & ry & Hrx & Hry & Hok' & Hcase).
  destruct Hinv as [Hok Hsets Hdone Hsub Hgraph HND Hcount].
  destruct (decide (rx = ry)) as [|Hne]; [by destruct Hcase|].
  destruct Hcase as (_ & Hroots & lo & hi & Hlh & Hlink).
  split; try done.
  - intros i j Hi Hj.
    destruct Hok as (_ & _ & Hall).
    destruct (Hall i Hi) as [ri Hri], (Hall j Hj) as [rj Hrj].
    rewrite (same_set_link _ _ x y rx ry lo hi i j ri rj) by done.
    rewrite conn_snoc. unfold e_src, e_dst. simpl.
    rewrite !Hsets by done. done.
  - intros e [He | ->%list_elem_of_singleton]%elem_of_app.
    + eapply conn_mono; [|by apply Hdone]. intros ??. apply elem_of_app. by left.
    + eapply conn_edge; [|apply joins_self]. apply elem_of_app. right. by left.
  - intros e [He | ->%list_elem_of_singleton]%elem_of_app; apply elem_of_app;
      [left; auto|right; by left].
  - intros e [He | ->%list_elem_of_singleton]%elem_of_app; auto.
  - apply NoDup_app. split_and!; [done| |apply NoDup_singleton].
    intros e He ->%list_elem_of_singleton. apply Hnxy.
    eapply conn_edge; [apply He|apply (joins_self (x, y, w))].
  - rewrite length_app. simpl. lia.
Qed.

(** The loop over the list [L], with a property [Q] of the selected edges
    that selecting keeps. *)
Lemma kruskal_loop_shape n E L (Q : list (@edge W) → Prop) :
  endpoints_below n E → (∀ e, e ∈ L ↔ e ∈ E) →
  (∀ processed x y w es d F,
     L = processed ++ (x, y, w) :: es → kruskal_shape n E processed d F →
     x < n → y < n → ¬ conn F x y → Q F → Q (F ++ [(x, y, w)])) →
  ∀ es processed d F c,
    L = processed ++ es →
    kruskal_shape n E processed d F → Q F → c = sum_weights F →
    ∃ c' F' d' processed',
      kruskal_loop (Z.of_nat n) es d c F = Ok (c', F') ∧ c' = sum_weights F' ∧
      kruskal_shape n E processed' d' F' ∧ Q F' ∧
      (length F' + 1 = n ∨ ∀ e, e ∈ E → e ∈ processed').
Proof.
  intros Hn HL HQ es. induction es as [|e0 es IH];
    intros processed d F c Hsplit Hinv HF ->.
  - exists (sum_weights F), F, d, processed. split_and!; try done.
    right. intros e He. apply HL in He. by rewrite Hsplit, app_nil_r in He.
  - destruct e0 as [[x y] w].
    assert (HE : (x, y, w) ∈ E).
    { apply HL. rewrite Hsplit. apply elem_of_app. right. by left. }
    destruct (Hn _ HE) as [Hx Hy]. unfold e_src, e_dst in Hx, Hy. simpl in Hx, Hy.
    destruct (union_spec n d x y (ks_ok _ _ _ _ _ Hinv) Hx Hy)
      as (d' & b & Hu & Hpost).
    assert (Hsplit' : L = (processed ++ [(x, y, w)]) ++ es)
      by (by rewrite <-app_assoc).
    simpl. rewrite Hu. destruct b.
    + assert (Hinv' : kruskal_shape n E (processed ++ [(x, y, w)]) d'
                        (F ++ [(x, y, w)])) by by eapply kruskal_shape_take.
      assert (HF' : Q (F ++ [(x, y, w)])).
      { eapply HQ; try done. by eapply kruskal_shape_apart. }
      case_decide as Hlen.
      * eexists _, _, d', _. split_and!; [done| |apply Hinv'|done|].
        { by rewrite sum_weights_snoc. }
        left. rewrite length_app in *. simpl in *. lia.
      * apply (IH (processed ++ [(x, y, w)])); try done.
        by rewrite sum_weights_snoc.
    + apply (IH (processed ++ [(x, y, w)])); try done.
      by eapply kruskal_shape_skip.
Qed.

Lemma kruskal_shape_init n E :
  kruskal_shape n E [] (mkDSU (seq 0 n) (replicate n 1)) [].
Proof.
  split; simpl.
  - apply dsu_ok_init.
  - intros i j Hi Hj.
    rewrite (same_set_roots _ i j i j)
      by (apply root_of_self; by apply lookup_seq_lt).
    split; [intros ->; apply conn_refl|apply conn_nil_inv].
  - by intros e ?%elem_of_nil.
  - done.
  - by intros e ?%elem_of_nil.
  - constructor.
  - rewrite roots_seq, length_seq. lia.
Qed.

Lemma kruskal_shape_final n E processed d F :
  0 < n → kruskal_shape n E processed d F →
  (length F + 1 = n ∨ ∀ e, e ∈ E → e ∈ processed) →
  (spans n E → length F + 1 = n ∧ spans n F) ∧
  (¬ spans n E → length F + 1 < n).
Proof.
  intros Hn [Hok Hsets Hdone Hsub Hgraph HND Hcount] Hexit.
  pose proof Hok as (Hlen & _ & Hall).
  assert (HFE : ∀ x y, conn F x y → conn E x y).
  { intros x y. apply conn_mono. auto. }
  assert (Hone : length (roots (parent d)) = 1 → spans n F).
  { intros Hone i j Hi Hj. apply Hsets; [done..|].
    by apply (roots_one_same _ n). }
  assert (Hsp : spans n F → length (roots (parent d)) = 1).
  { intros HspF. apply (same_roots_one _ n); try done.
    intros i j Hi Hj. apply Hsets; auto. }
  assert (Hge : 1 ≤ length (roots (parent d))).
  { destruct (Hall 0 Hn) as [r0 Hr0].
    assert (r0 ∈ roots (parent d)) as Hin
      by (apply elem_of_roots; eauto using root_of_self_inv, root_of_root).
    destruct (roots (parent d)); [by apply elem_of_nil in Hin|simpl; lia]. }
  destruct Hexit as [Hfull|Hall'].
  - assert (spans n F) as HspF by (apply Hone; lia).
    split; [done|]. intros Hns. exfalso. apply Hns.
    intros x y Hx Hy. auto.
  - assert (HEF : spans n E → spans n F).
    { intros HspE x y Hx Hy. eapply conn_subst; [|by apply HspE].
      intros e a b He Hj. apply Hall', Hdone in He.
      destruct Hj as [[<- <-]|[<- <-]]; auto using conn_sym. }
    split.
    + intros HspE. specialize (HEF HspE). split; [|done].
      apply Hsp in HEF. lia.
    + intros Hns. destruct (decide (length (roots (parent d)) = 1)) as [H1|H1]; [|lia].
      exfalso. apply Hns. intros x y Hx Hy. apply HFE. by apply Hone.
Qed.

(** What [kruskals_mst] returns on a graph whose end points are below
    [n], whatever the weights and their order: as many edges as the
    components of the graph allow. *)
Lemma kruskals_mst_inv n E (Q : list (@edge W) → Prop) :
  endpoints_below n E → Q [] →
  (∀ processed x y w es d F,
     sorted_by_weight E = processed ++ (x, y, w) :: es →
     kruskal_shape n E processed d F →
     x < n → y < n → ¬ conn F x y → Q F → Q (F ++ [(x, y, w)])) →
  ∃ c F, kruskals_mst (Z.of_nat n) E = Ok (c, F) ∧ c = sum_weights F ∧
    (∀ e, e ∈ F → e ∈ E) ∧ NoDup F ∧ Q F ∧
    (0 < n → spans n E → length F + 1 = n ∧ spans n F) ∧
    (0 < n → ¬ spans n E → length F + 1 < n).
Proof.
  intros Hn HQ0 HQ. unfold kruskals_mst, DSU_init. cbn [bind]. rewrite Nat2Z.id.
  destruct (kruskal_loop_shape n E (sorted_by_weight E) Q Hn) with
      (es := sorted_by_weight E) (processed := @nil (@edge W))
      (d := mkDSU (seq 0 n) (replicate n 1)) (F := @nil (@edge W))
      (c := w_zero)
    as (c & F & d' & processed' & Hrun & Hc & Hinv & HF & Hexit);
    [|done|done|apply kruskal_shape_init|done|done|].
  - intros e. by rewrite sorted_by_weight_perm.
  - exists c, F. split; [done|]. split; [done|]. split_and!; [| |done|..].
    + intros e He. eapply ks_graph; [done|]. eapply ks_sub; eauto.
    + eapply ks_nodup; eauto.
    + intros H0. by apply (kruskal_shape_final n E processed' d' F).
    + intros H0. by apply (kruskal_shape_final n E processed' d' F).
Qed.

Lemma kruskals_mst_shape n E :
  endpoints_below n E →
  ∃ c F, kruskals_mst (Z.of_nat n) E = Ok (c, F) ∧ c = sum_weights F ∧
    (∀ e, e ∈ F → e ∈ E) ∧ NoDup F ∧
    (0 < n → spans n E → length F + 1 = n ∧ spans n F) ∧
    (0 < n → ¬ spans n E → length F + 1 < n).
Proof.
  intros Hn.
  destruct (kruskals_mst_inv n E (λ _, True) Hn) as (c & F & ? & ? & ? & ? & _ & ? & ?);
    [done..|].
  by exists c, F.
Qed.

End KruskalShape.

(** * Prim's loop: the queue, termination and the shape of the result *)

Section PrimLoop.
Context {W : Type} {WW : Weight W}.
Implicit Types (h : list (@entry W)) (s : @prim_state W)
  (adj : adjacency W) (vis : gset nat).

Lemma heappush_perm h x : heappush h x ≡ₚ x :: h.
Proof.
  induction h as [|y h IH]; simpl; [done|].
  case_match; [done|]. rewrite IH. apply Permutation_swap.
Qed.

Lemma elem_of_heappush h x y : y ∈ heappush h x ↔ y = x ∨ y ∈ h.
Proof. rewrite heappush_perm. apply elem_of_cons. Qed.

Lemma length_heappush h x : length (heappush h x) = S (length h).
Proof. by rewrite heappush_perm. Qed.

Lemma elem_of_push_start u nbrs h y :
  y ∈ push_start u nbrs h ↔
  y ∈ h ∨ ∃ v w, (v, w) ∈ nbrs ∧ y = (w, u, v).
Proof.
  unfold push_start. revert h. induction nbrs as [|[v w] nbrs IH]; intros h; simpl.
  - split; [by left|]. intros [?|(v & w & ?%elem_of_nil & _)]; done.
  - rewrite IH, elem_of_heappush. split.
    + intros [[->|?]|(v' & w' & ? & ->)]; [right|by left|right].
      * exists v, w. split; [by left|done].
      * exists v', w'. split; [by right|done].
    + intros [?|(v' & w' & [?|?]%elem_of_cons & ->)]; [by auto|..].
      * simplify_eq. by auto.
      * right. by exists v', w'.
Qed.

Lemma elem_of_push_unvisited v vis nbrs h y :
  y ∈ push_unvisited v vis nbrs h ↔
  y ∈ h ∨ ∃ nn nw, (nn, nw) ∈ nbrs ∧ (nn ∉ vis) ∧ y = (nw, v, nn).
Proof.
  unfold push_unvisited. revert h.
  induction nbrs as [|[nn nw] nbrs IH]; intros h; simpl.
  - split; [by left|]. intros [?|(? & ? & ?%elem_of_nil & _)]; done.
  - rewrite IH. case_decide as Hnn.
    + rewrite elem_of_heappush. split.
      * intros [[->|?]|(n' & w' & ? & ? & ->)]; [right|by left|right].
        -- exists nn, nw. split; [by left|done].
        -- exists n', w'. split; [by right|done].
      * intros [?|(n' & w' & [?|?]%elem_of_cons & ? & ->)]; [by auto|..].
        -- simplify_eq. by auto.
        -- right. by exists n', w'.
    + split.
      * intros [?|(n' & w' & ? & ? & ->)]; [by left|right].
        exists n', w'. split; [by right|done].
      * intros [?|(n' & w' & [?|?]%elem_of_cons & ? & ->)]; [by auto|..].
        -- simplify_eq. exfalso. auto.
        -- right. by exists n', w'.
Qed.

Lemma length_push_unvisited v vis nbrs h :
  length (push_unvisited v vis nbrs h) ≤ length h + length nbrs.
Proof.
  unfold push_unvisited. revert h.
  induction nbrs as [|[nn nw] nbrs IH]; intros h; simpl; [lia|].
  etrans; [apply IH|]. case_decide; rewrite ?length_heappush; lia.
Qed.

Lemma length_push_start u nbrs h :
  length (push_start u nbrs h) = length h + length nbrs.
Proof.
  unfold push_start. revert h.
  induction nbrs as [|[nn nw] nbrs IH]; intros h; simpl; [lia|].
  rewrite IH, length_heappush. lia.
Qed.

(** ** Termination *)

(** The adjacency entries of the vertices not yet visited. *)
Definition pending adj vis : nat :=
  sum_list_with (λ kv, length kv.2)
    (filter (λ kv, kv.1 ∉ vis) (map_to_list adj)).

Definition prim_measure adj s : nat :=
  length (st_heap s) + pending adj (st_visited s).

Lemma pending_le_total adj vis : pending adj vis ≤ total_degree adj.
Proof.
  unfold pending, total_degree. induction (map_to_list adj) as [|kv l IH]; [done|].
  rewrite filter_cons. case_decide; simpl; lia.
Qed.

Lemma pending_visit adj vis v :
  v ∉ vis →
  pending adj (vis ∪ {[v]}) + length (adj_get adj v) = pending adj vis.
Proof.
  intros Hv. unfold pending, adj_get.
  induction adj as [|k l adj Hk IH] using map_ind.
  - rewrite map_to_list_empty, lookup_empty. done.
  - rewrite map_to_list_insert by done. rewrite !filter_cons. simpl.
    destruct (decide (k = v)) as [->|Hkv].
    + rewrite lookup_insert_eq. rewrite Hk in IH. simpl in *.
      rewrite decide_False by set_solver. rewrite decide_True by done.
      simpl. lia.
    + rewrite lookup_insert_ne by done.
      destruct (decide (k ∉ vis)).
      * rewrite decide_True by set_solver. simpl. lia.
      * rewrite decide_False by set_solver. done.
Qed.

Lemma prim_step_decreases V adj s s' :
  prim_step V adj s = Some s' → prim_measure adj s' < prim_measure adj s.
Proof.
  unfold prim_step, prim_measure. destruct (st_heap s) as [|[[w u] v] h']; [done|].
  repeat case_decide; intros; simplify_eq/=; [|lia].
  pose proof (length_push_unvisited v (st_visited s ∪ {[v]}) (adj_get adj v) h').
  pose proof (pending_visit adj (st_visited s) v ltac:(done)). lia.
Qed.

Lemma prim_loop_total V adj fuel s :
  prim_measure adj s < fuel → ∃ s', prim_loop fuel V adj s = Some s'.
Proof.
  revert s. induction fuel as [|fuel IH]; intros s Hm; [lia|]. simpl.
  destruct (prim_step V adj s) as [s1|] eqn:Hs; [|by eauto].
  apply IH. apply prim_step_decreases in Hs. lia.
Qed.

Lemma prim_loop_fuel V adj fuel fuel' s s' :
  prim_loop fuel V adj s = Some s' → fuel ≤ fuel' →
  prim_loop fuel' V adj s = Some s'.
Proof.
  revert fuel' s. induction fuel as [|fuel IH]; intros fuel' s Hrun Hle; [done|].
  destruct fuel' as [|fuel']; [lia|]. simpl in *.
  destruct (prim_step V adj s); [|done]. apply IH; [done|lia].
Qed.

Lemma prim_start_measure adj : prim_measure adj (prim_start adj) < prim_fuel adj.
Proof.
  unfold prim_measure, prim_start, prim_fuel. simpl.
  rewrite length_push_start. simpl.
  pose proof (pending_le_total adj {[0]}). lia.
Qed.

(** A property kept by every turn holds when the loop ends, and then the
    loop condition is false. *)
Lemma prim_loop_inv (P : prim_state → Prop) V adj :
  (∀ s s', P s → prim_step V adj s = Some s' → P s') →
  ∀ fuel s s', P s → prim_loop fuel V adj s = Some s' →
    P s' ∧ prim_step V adj s' = None.
Proof.
  intros Hstep fuel. induction fuel as [|fuel IH]; intros s s' HP Hrun; [done|].
  simpl in Hrun. destruct (prim_step V adj s) as [s1|] eqn:Hs.
  - eapply IH; [|done]. eauto.
  - by simplify_eq.
Qed.

Lemma prim_step_None V adj s :
  prim_step V adj s = None →
  st_heap s = [] ∨ ¬ (Z.of_nat (size (st_visited s)) < V)%Z.
Proof.
  unfold prim_step. destruct (st_heap s) as [|[[w u] v] h']; [by left|].
  repeat case_decide; try done. by right.
Qed.

(** ** The shape of the selected edges *)

(** The vertices visited once the edges [F] are selected: the start
    vertex and their destinations. *)
Definition visited_after (F : list (@edge W)) : gset nat :=
  {[0]} ∪ list_to_set (e_dst <$> F).

Record prim_shape (V : Z) s : Prop := {
  ps_visited : st_visited s = visited_after (st_edges s);
  ps_nodup : NoDup (0 :: (e_dst <$> st_edges s));
  ps_cost : st_cost s = sum_weights (st_edges s);
  ps_bound : size (st_visited s) = 1 ∨ (Z.of_nat (size (st_visited s)) ≤ V)%Z;
  ps_heap_src : ∀ w u v, (w, u, v) ∈ st_heap s → u ∈ st_visited s;
  ps_src : ∀ F1 e F2, st_edges s = F1 ++ e :: F2 → e_src e ∈ visited_after F1
}.

Lemma prim_shape_size V s :
  prim_shape V s → size (st_visited s) = S (length (st_edges s)).
Proof.
  intros [Hvis HND _ _ _ _]. rewrite Hvis. unfold visited_after.
  change ({[0]} ∪ list_to_set (e_dst <$> st_edges s))
    with (list_to_set (C:=gset nat) (0 :: (e_dst <$> st_edges s))).
  rewrite size_list_to_set by done. simpl. by rewrite length_fmap.
Qed.

Lemma prim_shape_start V adj : prim_shape V (prim_start adj).
Proof.
  split; unfold prim_start, visited_after;
    cbn [st_visited st_edges st_cost st_heap].
  - set_solver.
  - apply (NoDup_singleton 0).
  - done.
  - left. apply size_singleton.
  - intros w u v [?%elem_of_nil|(v' & w' & _ & ?)]%elem_of_push_start; [done|].
    simplify_eq. set_solver.
  - by intros [|??] ?? ?.
Qed.

Lemma prim_shape_step V adj s s' :
  prim_shape V s → prim_step V adj s = Some s' → prim_shape V s'.
Proof.
  intros Hs Hstep. pose proof (prim_shape_size V s Hs) as Hsize.
  destruct Hs as [Hvis HND Hcost Hbound Hheap Hsrc].
  unfold prim_step in Hstep.
  destruct (st_heap s) as [|[[w u] v] h'] eqn:Hh; [done|].
  case_decide as Hlt; [|done]. case_decide as Hv; simplify_eq/=.
  - assert (Hsz : size (st_visited s ∪ {[v]}) = S (size (st_visited s))).
    { rewrite size_union by set_solver. rewrite size_singleton. lia. }
    split; cbn [st_visited st_edges st_cost st_heap].
    + rewrite Hvis. unfold visited_after.
      rewrite fmap_app, list_to_set_app_L. simpl. set_solver.
    + rewrite fmap_app. simpl.
      apply (NoDup_Permutation_proper _ (v :: 0 :: (e_dst <$> st_edges s))).
      { rewrite (Permutation_app_comm _ [e_dst (u, v, w)]). simpl.
        apply Permutation_swap. }
      apply NoDup_cons. split; [|done].
      intros Hin. apply Hv. rewrite Hvis.
      apply elem_of_cons in Hin as [->|Hin]; [set_solver|].
      apply elem_of_union. right. by apply elem_of_list_to_set.
    + by rewrite sum_weights_snoc, Hcost.
    + right. rewrite Hsz. lia.
    + intros w1 u1 v1 [Hin|(nn & nw & _ & _ & ?)]%elem_of_push_unvisited.
      * apply elem_of_union. left. apply (Hheap w1 u1 v1). by right.
      * simplify_eq. set_solver.
    + intros F1 e F2 HF. destruct F2 as [|e2 F2 _] using rev_ind.
      * apply app_inj_tail in HF as [<- <-]. unfold e_src. simpl.
        rewrite <-Hvis. apply (Hheap w u v). by left.
      * rewrite app_comm_cons, app_assoc in HF.
        apply app_inj_tail in HF as [HF _]. by eapply Hsrc.
  - split; cbn [st_visited st_edges st_cost st_heap]; try done.
    intros w1 u1 v1 Hin. apply (Hheap w1 u1 v1). by right.
Qed.

(** ** The visited vertices are those the selected edges reach *)

Implicit Types (F T E : list (@edge W)) (e : @edge W).

(** The adjacency list holds every edge of [E] at both of its ends. *)
Definition adj_rep E adj : Prop :=
  ∀ u v w, (v, w) ∈ adj_get adj u ↔ in_graph E (u, v, w).

Record prim_reach (n : nat) E adj s : Prop := {
  pr_heap_ok : ∀ w u v, (w, u, v) ∈ st_heap s →
    u ∈ st_visited s ∧ (v, w) ∈ adj_get adj u;
  pr_heap_all : ∀ u v w, u ∈ st_visited s → (v, w) ∈ adj_get adj u →
    v ∉ st_visited s → (w, u, v) ∈ st_heap s;
  pr_edges : ∀ e, e ∈ st_edges s →
    in_graph E e ∧ e_src e ∈ st_visited s ∧ e_dst e ∈ st_visited s;
  pr_conn : ∀ v, v ∈ st_visited s → conn (st_edges s) 0 v;
  pr_below : ∀ v, v ∈ st_visited s → v < n
}.

Lemma prim_reach_start n E adj : 0 < n → prim_reach n E adj (prim_start adj).
Proof.
  intros Hn. split; unfold prim_start; cbn [st_heap st_visited st_edges].
  - intros w u v [?%elem_of_nil|(v' & w' & ? & ?)]%elem_of_push_start; [done|].
    simplify_eq. split; [set_solver|done].
  - intros u v w ->%elem_of_singleton Hvw _. apply elem_of_push_start. right.
    by exists v, w.
  - by intros e ?%elem_of_nil.
  - intros v ->%elem_of_singleton. apply conn_refl.
  - intros v ->%elem_of_singleton. done.
Qed.

Lemma prim_reach_step n E adj s s' :
  endpoints_below n E → adj_rep E adj →
  prim_reach n E adj s → prim_step (Z.of_nat n) adj s = Some s' →
  prim_reach n E adj s'.
Proof.
  intros Hn Hrep [Hok Hall Hedges Hconn Hbelow] Hstep.
  unfold prim_step in Hstep.
  destruct (st_heap s) as [|[[w u] v] h'] eqn:Hheap; [done|].
  destruct (Hok w u v) as [Hu Hvw]; [by left|].
  case_decide as Hlt; [|done]. case_decide as Hv; simplify_eq.
  - assert (HE : in_graph E (u, v, w)) by by apply Hrep.
    destruct (in_graph_below n E _ Hn HE) as [_ Hvn].
    unfold e_dst in Hvn. simpl in Hvn.
    split; cbn [st_heap st_visited st_edges].
    + intros w1 u1 v1 [Hin|(nn & nw & Hnn & _ & ?)]%elem_of_push_unvisited.
      * destruct (Hok w1 u1 v1) as [??]; [by right|]. split; [set_solver|done].
      * simplify_eq. split; [set_solver|done].
    + intros u1 v1 w1 Hu1 Hvw1 Hv1. apply elem_of_push_unvisited.
      apply elem_of_union in Hu1 as [Hu1|Hu1%elem_of_singleton].
      * left. assert ((w1, u1, v1) ∈ (w, u, v) :: h') as Hin
          by (apply Hall; [done..|set_solver]).
        apply elem_of_cons in Hin as [?|?]; [|done].
        simplify_eq. set_solver.
      * subst. right. by exists v1, w1.
    + intros e [He | ->%list_elem_of_singleton]%elem_of_app.
      * destruct (Hedges e He) as (? & ? & ?). split_and!; [done|set_solver..].
      * unfold e_src, e_dst. simpl. split_and!; [done|set_solver..].
    + intros v1 [Hv1|Hv1%elem_of_singleton]%elem_of_union.
      * eapply conn_mono; [|by apply Hconn]. intros ??. apply elem_of_app. by left.
      * subst. eapply conn_trans.
        -- eapply conn_mono; [|apply (Hconn u Hu)].
           intros ??. apply elem_of_app. by left.
        -- eapply conn_edge; [|apply (joins_self (u, v, w))].
           apply elem_of_app. right. by left.
    + intros v1 [Hv1|Hv1%elem_of_singleton]%elem_of_union; [auto|by subst].
  - split; cbn [st_heap st_visited st_edges]; try done.
    + intros w1 u1 v1 Hin. apply Hok. by right.
    + intros u1 v1 w1 Hu1 Hvw1 Hv1.
      specialize (Hall u1 v1 w1 Hu1 Hvw1 Hv1).
      apply elem_of_cons in Hall as [?|?]; [|done]. simplify_eq.
      exfalso. apply Hv1. by apply dec_stable.
Qed.

(** With an empty queue, everything reachable from the start has been
    visited. *)
Lemma prim_reach_closed n E adj s x :
  adj_rep E adj → prim_reach n E adj s → st_heap s = [] →
  0 ∈ st_visited s → conn E 0 x → x ∈ st_visited s.
Proof.
  intros Hrep Hinv Hheap H0 Hx.
  destruct (decide (x ∈ st_visited s)) as [|Hnx]; [done|exfalso].
  destruct (first_crossing (λ y, y ∈ st_visited s) E 0 x)
    as (e & a & b & He & Hj & Ha & Hb & _ & _); try done.
  { intros y. destruct (decide (y ∈ st_visited s)); auto. }
  assert (in_graph E (a, b, e_weight e)) as Hab
    by (apply in_graph_joins; [by left|done]).
  apply Hrep in Hab. pose proof (pr_heap_all _ _ _ _ Hinv a b _ Ha Hab Hb) as Hin.
  rewrite Hheap in Hin. by apply elem_of_nil in Hin.
Qed.

Lemma prim_final n E adj s :
  0 < n → adj_rep E adj →
  prim_reach n E adj s → prim_shape (Z.of_nat n) s →
  prim_step (Z.of_nat n) adj s = None →
  (spans n E → length (st_edges s) + 1 = n ∧ spans n (st_edges s)) ∧
  (¬ spans n E → length (st_edges s) + 1 < n).
Proof.
  intros Hn Hrep Hinv Hshape Hexit.
  pose proof (prim_shape_size _ _ Hshape) as Hsize.
  assert (H0 : 0 ∈ st_visited s).
  { rewrite (ps_visited _ _ Hshape). unfold visited_after. set_solver. }
  assert (Hsub : st_visited s ⊆ set_seq 0 n).
  { intros v Hv. apply elem_of_set_seq. split; [lia|].
    simpl. by apply (pr_below _ _ _ _ Hinv). }
  assert (Hle : size (st_visited s) ≤ n).
  { apply subseteq_size in Hsub. by rewrite size_set_seq in Hsub. }
  assert (Hfull : size (st_visited s) = n → spans n (st_edges s)).
  { intros Heq.
    assert (st_visited s = set_seq 0 n) as Hvis.
    { apply set_subseteq_size_eq; [done|]. rewrite size_set_seq. lia. }
    assert (∀ x, x < n → conn (st_edges s) 0 x) as Hall.
    { intros x Hx. apply (pr_conn _ _ _ _ Hinv). rewrite Hvis.
      apply elem_of_set_seq. lia. }
    intros x y Hx Hy. eapply conn_trans; [apply conn_sym|]; auto. }
  assert (HFE : spans n (st_edges s) → spans n E).
  { intros Hsp x y Hx Hy. eapply conn_subst; [|by apply Hsp].
    intros e a b He Hj. destruct (pr_edges _ _ _ _ Hinv e He) as (HeE & _).
    by eapply in_graph_conn. }
  split.
  - intros HspE.
    assert (size (st_visited s) = n) as Heq.
    { apply prim_step_None in Hexit as [Hheap|Hge]; [|lia].
      assert (set_seq 0 n ⊆ st_visited s) as Hsup.
      { intros x [_ Hx]%elem_of_set_seq. simpl in Hx.
        eapply prim_reach_closed; eauto. }
      apply subseteq_size in Hsup. rewrite size_set_seq in Hsup. lia. }
    split; [lia|auto].
  - intros Hns. destruct (decide (size (st_visited s) = n)) as [Heq|]; [|lia].
    exfalso. auto.
Qed.

(** What [prims_mst] returns on a graph whose end points are below [n],
    given by an adjacency list that holds each edge at both ends,
    whatever the weights and their order; [Q] is a property of the state
    that every turn keeps. *)
Lemma prims_mst_inv n E adj (Q : prim_state → Prop) :
  endpoints_below n E → adj_rep E adj → 0 < n →
  Q (prim_start adj) →
  (∀ s s', prim_reach n E adj s → Q s →
     prim_step (Z.of_nat n) adj s = Some s' → Q s') →
  ∃ s, prims_mst (Z.of_nat n) adj = Some (st_cost s, st_edges s) ∧
    st_cost s = sum_weights (st_edges s) ∧
    (∀ e, e ∈ st_edges s → in_graph E e) ∧ NoDup (st_edges s) ∧ Q s ∧
    (spans n E → length (st_edges s) + 1 = n ∧ spans n (st_edges s)) ∧
    (¬ spans n E → length (st_edges s) + 1 < n).
Proof.
  intros Hbelow Hrep Hn HQ0 HQ. unfold prims_mst, prims_mst_fuel.
  rewrite decide_False by lia.
  destruct (prim_loop_total (Z.of_nat n) adj (prim_fuel adj) (prim_start adj)
              (prim_start_measure adj)) as [s Hrun].
  rewrite Hrun.
  destruct (prim_loop_inv
              (λ s, prim_reach n E adj s ∧ prim_shape (Z.of_nat n) s ∧ Q s)
              (Z.of_nat n) adj) with (fuel := prim_fuel adj)
              (s := prim_start adj) (s' := s) as [(Hinv & Hshape & HQs) Hexit];
    [|split_and!|done|].
  - intros s1 s2 (? & ? & ?) Hstep. split_and!;
      [by eapply prim_reach_step|by eapply prim_shape_step|by eapply HQ].
  - by apply prim_reach_start.
  - apply prim_shape_start.
  - done.
  - exists s. split; [done|]. split_and!.
    + apply (ps_cost _ _ Hshape).
    + intros e He. by destruct (pr_edges _ _ _ _ Hinv e He).
    + pose proof (ps_nodup _ _ Hshape) as HND.
      apply NoDup_cons in HND as [_ HND]. by apply NoDup_fmap_1 in HND.
    + done.
    + by apply (prim_final n E adj s).
    + by apply (prim_final n E adj s).
Qed.

End PrimLoop.

(** * Spanning trees and their weight, for integer weights *)

Section Spanning.
Implicit Types (F T E : list (@edge Z)) (e : @edge Z).

Definition total T : Z := foldr (λ e s, (e_weight e + s)%Z) 0%Z T.

Lemma foldl_weights T (a : Z) :
  foldl (λ acc e, w_add acc (e_weight e)) a T = (a + total T)%Z.
Proof.
  revert a. induction T as [|e T IH]; intros a; simpl; [lia|].
  rewrite IH. lia.
Qed.

Lemma sum_weights_total T : sum_weights T = total T.
Proof. unfold sum_weights. rewrite foldl_weights. simpl. lia. Qed.

Lemma total_perm T T' : T ≡ₚ T' → total T = total T'.
Proof. induction 1; simpl; lia. Qed.

Lemma total_app T T' : total (T ++ T') = (total T + total T')%Z.
Proof. induction T; simpl; lia. Qed.

(** A spanning tree of the graph [E] on [n] vertices: [n - 1] edges of
    the graph that connect all the vertices. *)
Definition spanning_tree (n : nat) E T : Prop :=
  (∀ e, e ∈ T → in_graph E e) ∧ spans n T ∧ length T + 1 = n.

(** [F] can be completed to a spanning tree no heavier than any given
    one. *)
Definition promising (n : nat) E F : Prop :=
  ∀ T, spanning_tree n E T →
    ∃ T', spanning_tree n E T' ∧ (∀ e, e ∈ F → e ∈ T') ∧
          (total T' ≤ total T)%Z.

Lemma promising_nil n E : promising n E [].
Proof. intros T HT. exists T. split_and!; [done| |lia]. by intros e ?%elem_of_nil. Qed.

(** The cut property: a lightest edge leaving a set that [F] does not
    leave keeps [F] promising. *)
Lemma safe_edge n E F (C : nat → Prop) e0 :
  endpoints_below n E → (∀ x, C x ∨ ¬ C x) →
  promising n E F →
  (∀ e a b, e ∈ F → joins e a b → C a → C b) →
  in_graph E e0 → C (e_src e0) → ¬ C (e_dst e0) →
  (∀ e a b, in_graph E e → joins e a b → C a → ¬ C b →
     (e_weight e0 ≤ e_weight e)%Z) →
  promising n E (F ++ [e0]).
Proof.
  intros Hn Hdec Hprom HF He0 Hu Hv Hmin T HT.
  destruct (Hprom T HT) as (T' & (HT'E & HT'sp & HT'len) & HFT' & Hle).
  destruct (in_graph_below n E e0 Hn He0) as [Hun Hvn].
  destruct (cut_edge C T' _ _ Hdec (HT'sp _ _ Hun Hvn) Hu Hv)
    as (e & T2 & a & b & HP & Hj & Ha & Hb & Hua & Hbv).
  assert (HeT' : e ∈ T') by (rewrite HP; by left).
  assert (Hm : ∀ x y, conn T2 x y → conn (e0 :: T2) x y).
  { intros x y. apply conn_mono. intros ?. by right. }
  assert (Hab : conn (e0 :: T2) a b).
  { eapply conn_trans; [apply conn_sym, Hm, Hua|].
    eapply conn_trans; [|apply conn_sym, Hm, Hbv].
    eapply conn_edge; [by left|apply joins_self]. }
  exists (e0 :: T2). split_and!.
  - split_and!.
    + intros e1 [->|He1]%elem_of_cons; [done|]. apply HT'E. rewrite HP. by right.
    + intros x y Hx Hy. eapply conn_subst; [|apply (HT'sp x y Hx Hy)].
      intros e1 x1 y1 He1 Hj1. rewrite HP in He1.
      apply elem_of_cons in He1 as [->|He1].
      * destruct Hj as [[<- <-]|[<- <-]], Hj1 as [[<- <-]|[<- <-]];
          auto using conn_sym, conn_refl.
      * apply Hm. by eapply conn_edge.
    + rewrite <-HT'len, HP. done.
  - intros e1 [He1 | ->%list_elem_of_singleton]%elem_of_app; [|by left].
    right. specialize (HFT' _ He1) as He1'. rewrite HP in He1'.
    apply elem_of_cons in He1' as [->|?]; [|done].
    exfalso. apply Hb. eapply HF; eauto.
  - apply total_perm in HP. simpl in *.
    specialize (Hmin e a b (HT'E _ HeT') Hj Ha Hb). lia.
Qed.

(** A promising forest with [n - 1] distinct edges is a lightest spanning
    tree. *)
Lemma promising_full n E F T :
  promising n E F → NoDup F → length F + 1 = n →
  spanning_tree n E T → (total F ≤ total T)%Z.
Proof.
  intros Hprom HND Hlen HT.
  destruct (Hprom T HT) as (T' & (_ & _ & HT'len) & HFT' & Hle).
  assert (F ≡ₚ T') as HP.
  { apply submseteq_length_Permutation; [by apply NoDup_submseteq|lia]. }
  by rewrite (total_perm _ _ HP).
Qed.

End Spanning.

(** * Kruskal selects a lightest spanning tree (integer weights) *)

Section Kruskal.
Implicit Types (F T E : list (@edge Z)) (e : @edge Z).

Definition by_weight e e' : Prop := (e_weight e ≤ e_weight e')%Z.

Lemma insert_by_weight_sorted e l :
  StronglySorted by_weight l → StronglySorted by_weight (insert_by_weight e l).
Proof.
  induction 1 as [|x l Hs IH Hall]; simpl.
  - repeat constructor.
  - destruct (Z.ltb_spec (e_weight x) (e_weight e)).
    + constructor; [done|]. rewrite insert_by_weight_perm.
      constructor; [unfold by_weight; lia|done].
    + constructor; [by constructor|]. constructor; [done|].
      eapply Forall_impl; [apply Hall|]. unfold by_weight. intros; simpl in *. lia.
Qed.

Lemma sorted_by_weight_sorted l : StronglySorted by_weight (sorted_by_weight l).
Proof.
  induction l; simpl; [constructor|]. by apply insert_by_weight_sorted.
Qed.

Lemma sorted_split_min processed (e0 : @edge Z) es e :
  StronglySorted by_weight (processed ++ e0 :: es) →
  e ∈ processed ++ e0 :: es → e ∈ processed ∨ by_weight e0 e.
Proof.
  induction processed as [|p processed IH]; simpl; intros Hs He.
  - right. apply StronglySorted_inv in Hs as [_ Hall].
    apply elem_of_cons in He as [->|He]; [unfold by_weight; lia|].
    rewrite Forall_forall in Hall. auto.
  - apply StronglySorted_inv in Hs as [Hs _].
    apply elem_of_cons in He as [->|He]; [left; by left|].
    destruct (IH Hs He); [left; by right|by right].
Qed.

(** Selecting the next edge of the sorted list keeps the selection
    promising. *)
Lemma kruskal_take_promising n E processed x y w es d F :
  endpoints_below n E →
  sorted_by_weight E = processed ++ (x, y, w) :: es →
  kruskal_shape n E processed d F →
  x < n → y < n → ¬ conn F x y →
  promising n E F → promising n E (F ++ [(x, y, w)]).
Proof.
  intros Hn Hsplit Hinv Hx Hy Hnxy Hprom.
  assert (HE : ∀ e, e ∈ E → e ∈ processed ∨ (w ≤ e_weight e)%Z).
  { intros e He. rewrite <-sorted_by_weight_perm, Hsplit in He.
    apply (sorted_split_min processed (x, y, w) es); [|done].
    pose proof (sorted_by_weight_sorted E) as Hs. by rewrite Hsplit in Hs. }
  assert (Hin : (x, y, w) ∈ E).
  { rewrite <-sorted_by_weight_perm, Hsplit. apply elem_of_app. right. by left. }
  apply (safe_edge n E F (λ j, conn F x j)); try done.
  - intros j. by eapply kruskal_shape_conn_dec.
  - intros e a b He Hj Ha. eapply conn_trans; [apply Ha|]. by eapply conn_edge.
  - by left.
  - intros e a b [He|He] Hj Ha Hb.
    + destruct (HE _ He) as [Hp|?]; [|done]. exfalso. apply Hb.
      eapply conn_trans; [apply Ha|].
      apply (ks_done _ _ _ _ _ Hinv) in Hp.
      destruct Hj as [[<- <-]|[<- <-]]; auto using conn_sym.
    + destruct (HE _ He) as [Hp|?]; [|done]. exfalso. apply Hb.
      eapply conn_trans; [apply Ha|].
      apply (ks_done _ _ _ _ _ Hinv) in Hp.
      unfold flip, e_src, e_dst in *. simpl in *.
      destruct Hj as [[<- <-]|[<- <-]]; auto using conn_sym.
Qed.

(** What [kruskals_mst] returns on a graph whose end points are below
    [n]. *)
Lemma kruskals_mst_spec n E :
  endpoints_below n E →
  ∃ c F, kruskals_mst (Z.of_nat n) E = Ok (c, F) ∧ c = total F ∧
    (∀ e, e ∈ F → e ∈ E) ∧ NoDup F ∧ promising n E F ∧
    (0 < n → spans n E → length F + 1 = n ∧ spans n F) ∧
    (0 < n → ¬ spans n E → length F + 1 < n).
Proof.
  intros Hn.
  destruct (kruskals_mst_inv n E (promising n E) Hn)
    as (c & F & ? & -> & ? & ? & ? & ? & ?).
  - apply promising_nil.
  - intros processed x y w es d F. by apply kruskal_take_promising.
  - exists (sum_weights F), F. split_and!; try done. apply sum_weights_total.
Qed.

End Kruskal.

(** * Prim selects a lightest spanning tree (integer weights) *)

Section PrimResult.
Implicit Types (F T E : list (@edge Z)) (e : @edge Z)
  (h : list (@entry Z)) (s : @prim_state Z) (adj : adjacency Z).

(** The order of the tuples in the queue. *)
Definition entry_le (a b : @entry Z) : Prop :=
  (a.1.1 < b.1.1)%Z ∨
  (a.1.1 = b.1.1 ∧ (a.1.2 < b.1.2 ∨ (a.1.2 = b.1.2 ∧ a.2 ≤ b.2))).

Lemma entry_ltb_true a b : entry_ltb a b = true → entry_le a b.
Proof.
  destruct a as [[wa ua] va], b as [[wb ub] vb]. unfold entry_ltb, entry_le.
  simpl. destruct (Z.eqb_spec wa wb), (Nat.eqb_spec ua ub); simpl;
    rewrite ?Z.ltb_lt, ?Nat.ltb_lt; lia.
Qed.

Lemma entry_ltb_false a b : entry_ltb a b = false → entry_le b a.
Proof.
  destruct a as [[wa ua] va], b as [[wb ub] vb]. unfold entry_ltb, entry_le.
  simpl. destruct (Z.eqb_spec wa wb), (Nat.eqb_spec ua ub); simpl;
    rewrite ?Z.ltb_ge, ?Nat.ltb_ge; lia.
Qed.

Lemma entry_le_trans a b c : entry_le a b → entry_le b c → entry_le a c.
Proof. unfold entry_le. lia. Qed.

Lemma entry_le_weight a b : entry_le a b → (a.1.1 ≤ b.1.1)%Z.
Proof. unfold entry_le. lia. Qed.

Lemma heappush_sorted h x :
  StronglySorted entry_le h → StronglySorted entry_le (heappush h x).
Proof.
  induction 1 as [|y h Hs IH Hall]; simpl; [repeat constructor|].
  destruct (entry_ltb x y) eqn:Hxy.
  - apply entry_ltb_true in Hxy. constructor; [by constructor|].
    constructor; [done|]. eapply Forall_impl; [apply Hall|].
    intros z Hz. by eapply entry_le_trans.
  - apply entry_ltb_false in Hxy. constructor; [done|].
    rewrite heappush_perm. by constructor.
Qed.

Lemma push_start_sorted u nbrs h :
  StronglySorted entry_le h → StronglySorted entry_le (push_start u nbrs h).
Proof.
  unfold push_start. revert h. induction nbrs as [|[v w] nbrs IH]; intros h Hh;
    simpl; [done|]. by apply IH, heappush_sorted.
Qed.

Lemma push_unvisited_sorted v vis nbrs h :
  StronglySorted entry_le h →
  StronglySorted entry_le (push_unvisited v vis nbrs h).
Proof.
  unfold push_unvisited. revert h.
  induction nbrs as [|[nn nw] nbrs IH]; intros h Hh; simpl; [done|].
  apply IH. case_decide; [by apply heappush_sorted|done].
Qed.

(** The queue is ordered, and the selected edges are promising. *)
Definition prim_inv (n : nat) E s : Prop :=
  StronglySorted entry_le (st_heap s) ∧ promising n E (st_edges s).

Lemma prim_inv_start n E adj : prim_inv n E (prim_start adj).
Proof.
  split; unfold prim_start; cbn [st_heap st_edges].
  - apply push_start_sorted. constructor.
  - apply promising_nil.
Qed.

Lemma prim_inv_step n E adj s s' :
  endpoints_below n E → adj_rep E adj →
  prim_reach n E adj s → prim_inv n E s →
  prim_step (Z.of_nat n) adj s = Some s' →
  prim_inv n E s'.
Proof.
  intros Hn Hrep [Hok Hall Hedges Hconn Hbelow] [Hsorted Hprom] Hstep.
  unfold prim_step in Hstep.
  destruct (st_heap s) as [|[[w u] v] h'] eqn:Hheap; [done|].
  apply StronglySorted_inv in Hsorted as [Hsorted Hmin].
  rewrite Forall_forall in Hmin.
  destruct (Hok w u v) as [Hu Hvw]; [by left|].
  case_decide as Hlt; [|done]. case_decide as Hv; simplify_eq.
  - assert (HE : in_graph E (u, v, w)) by by apply Hrep.
    split; cbn [st_heap st_visited st_edges].
    + by apply push_unvisited_sorted.
    + apply (safe_edge n E _ (λ x, x ∈ st_visited s)); try done.
      * intros x. destruct (decide (x ∈ st_visited s)); auto.
      * intros e a b He Hj Ha. destruct (Hedges e He) as (_ & ? & ?).
        destruct Hj as [[<- <-]|[<- <-]]; done.
      * intros e a b He Hj Ha Hb.
        pose proof (in_graph_joins E e a b He Hj) as Hab.
        apply Hrep in Hab. specialize (Hall a b _ Ha Hab Hb).
        apply elem_of_cons in Hall as [Heq|Hin].
        -- simplify_eq. unfold e_weight. simpl. lia.
        -- apply Hmin, entry_le_weight in Hin. done.
  - by split.
Qed.

(** What [prims_mst] returns on a graph whose end points are below [n],
    given by an adjacency list that holds each edge at both ends. *)
Lemma prims_mst_spec n E adj :
  endpoints_below n E → adj_rep E adj → 0 < n →
  ∃ c F, prims_mst (Z.of_nat n) adj = Some (c, F) ∧ c = total F ∧
    (∀ e, e ∈ F → in_graph E e) ∧ NoDup F ∧ promising n E F ∧
    (spans n E → length F + 1 = n ∧ spans n F) ∧
    (¬ spans n E → length F + 1 < n).
Proof.
  intros Hbelow Hrep Hn.
  destruct (prims_mst_inv n E adj (prim_inv n E) Hbelow Hrep Hn)
    as (s & ? & Hc & ? & ? & [_ ?] & ? & ?).
  - apply prim_inv_start.
  - intros s s' ???. by eapply prim_inv_step.
  - exists (st_cost s), (st_edges s). split_and!; try done.
    by rewrite Hc, sum_weights_total.
Qed.

(** Both engines select a lightest spanning tree of a connected graph. *)
Lemma engines_agree n E adj :
  endpoints_below n E → adj_rep E adj → connected n E →
  ∃ c FK FP,
    kruskals_mst (Z.of_nat n) E = Ok (c, FK) ∧
    prims_mst (Z.of_nat n) adj = Some (c, FP) ∧
    length FK + 1 = n ∧ length FP + 1 = n.
Proof.
  intros Hbelow Hrep [Hn Hsp].
  destruct (kruskals_mst_spec n E Hbelow)
    as (cK & FK & HK & -> & HKE & HKnd & HKprom & HKfull & _).
  destruct (prims_mst_spec n E adj Hbelow Hrep Hn)
    as (cP & FP & HP & -> & HPE & HPnd & HPprom & HPfull & _).
  destruct (HKfull Hn Hsp) as [HKlen HKsp], (HPfull Hsp) as [HPlen HPsp].
  assert (HKtree : spanning_tree n E FK).
  { split_and!; [|done..]. intros e He. left. auto. }
  assert (HPtree : spanning_tree n E FP) by by split_and!.
  pose proof (promising_full n E FK FP HKprom HKnd HKlen HPtree).
  pose proof (promising_full n E FP FK HPprom HPnd HPlen HKtree).
  exists (total FK), FK, FP. split_and!; try done.
  rewrite HP. do 2 f_equal. lia.
Qed.

End PrimResult.

(** * The DSU as its callers see it *)

(** Every entry [find] rewrites now holds the root it returns; the ranks
    are not touched. *)
Lemma find_rec_entries fuel d i d' r :
  find_rec fuel d i = Ok (d', r) →
  rank d' = rank d ∧
  ∀ j, parent d' !! j = parent d !! j ∨ parent d' !! j = Some r.
Proof.
  revert d i d' r. induction fuel as [|fuel IH]; intros d i d' r Hf; [done|].
  simpl in Hf. unfold py_getitem in Hf at 1.
  destruct (parent d !! i) as [p|] eqn:Hi; [|done].
  case_decide; [by simplify_eq; auto|].
  destruct (find_rec fuel d p) as [[d1 r1]|] eqn:Hrec; [|done].
  apply IH in Hrec as [Hrank Hent].
  unfold py_setitem in Hf. case_decide as Hlt; [|done].
  unfold py_getitem in Hf. simpl in Hf.
  rewrite list_lookup_insert_eq in Hf by done. simplify_eq/=.
  split; [done|]. intros j. destruct (decide (j = i)) as [->|Hne].
  - right. by rewrite list_lookup_insert_eq.
  - rewrite list_lookup_insert_ne by done. auto.
Qed.

(** The states of a DSU over [n] elements: [DSU(n)], then any calls of
    [find] and [union] on indices below [n]. *)
Inductive reachable (n : nat) : DSU → Prop :=
| reach_init d : DSU_init (Z.of_nat n) = Ok d → reachable n d
| reach_find d i d' r :
    reachable n d → i < n → find d i = Ok (d', r) → reachable n d'
| reach_union d x y d' b :
    reachable n d → x < n → y < n → union d x y = Ok (d', b) →
    reachable n d'.

Lemma reachable_ok n d : reachable n d → dsu_ok n d.
Proof.
  induction 1 as [d Hd|d i d' r _ IH Hi Hf|d x y d' b _ IH Hx Hy Hu].
  - unfold DSU_init in Hd. rewrite Nat2Z.id in Hd. simplify_eq.
    apply dsu_ok_init.
  - destruct (find_spec n d i IH Hi) as (d2 & r2 & Hf2 & Hpost).
    rewrite Hf in Hf2. simplify_eq. apply Hpost.
  - destruct (union_spec n d x y IH Hx Hy) as (d2 & b2 & Hu2 & Hpost).
    rewrite Hu in Hu2. simplify_eq.
    by destruct Hpost as (? & ? & _ & _ & ? & _).
Qed.

Lemma find_root n d i d' r :
  dsu_ok n d → i < n → find d i = Ok (d', r) → find_post n d i d' r.
Proof.
  intros Hok Hi Hf. destruct (find_spec n d i Hok Hi) as (d2 & r2 & Hf2 & Hpost).
  rewrite Hf in Hf2. by simplify_eq.
Qed.

Lemma union_false_inv d x y d' :
  union d x y = Ok (d', false) →
  ∃ d1 r, find d x = Ok (d1, r) ∧ find d1 y = Ok (d', r).
Proof.
  unfold union. destruct (find d x) as [[d1 rx]|]; [|done]. cbn [bind].
  destruct (find d1 y) as [[d2 ry]|] eqn:Hy; [|done]. cbn [bind].
  case_decide as Hne.
  - destruct (py_getitem (rank d2) rx); [|done]. cbn [bind].
    destruct (py_getitem (rank d2) ry); [|done]. cbn [bind].
    repeat case_decide;
      repeat (match goal with
              | |- context [py_setitem ?l ?i ?v] => destruct (py_setitem l i v)
              end; cbn [bind]); done.
  - intros [= <-]. exists d1, rx. split; [done|].
    destruct (decide (rx = ry)) as [->|]; [done|]. exfalso. auto.
Qed.

Lemma find_rec_Ok_chain fuel d i d' r :
  find_rec fuel d i = Ok (d', r) → ∃ k, chain (parent d) k i r ∧ k < fuel.
Proof.
  revert i d' r. induction fuel as [|fuel IH]; intros i d' r Hf; [done|].
  simpl in Hf. unfold py_getitem in Hf at 1.
  destruct (parent d !! i) as [p|] eqn:Hi; [|done].
  case_decide as Hp.
  - simplify_eq. exists 0. split; [by constructor|lia].
  - destruct (find_rec fuel d p) as [[d1 r1]|] eqn:Hrec; [|done].
    pose proof (find_rec_entries _ _ _ _ _ Hrec) as [_ Hent].
    apply IH in Hrec as (k & Hk & Hlt).
    unfold py_setitem in Hf. case_decide as Hil; [|done].
    unfold py_getitem in Hf. simpl in Hf.
    rewrite list_lookup_insert_eq in Hf by done. simplify_eq.
    exists (S k). split; [econstructor; eauto|lia].
Qed.

Lemma find_rec_fuel fuel fuel' d i res :
  find_rec fuel d i = Ok res → fuel ≤ fuel' → find_rec fuel' d i = Ok res.
Proof.
  revert fuel' i res. induction fuel as [|fuel IH]; intros fuel' i res Hf Hle;
    [done|].
  destruct fuel' as [|fuel']; [lia|]. simpl in *.
  destruct (py_getitem (parent d) i) as [p|]; [|done].
  case_decide; [done|].
  destruct (find_rec fuel d p) as [[d1 r1]|] eqn:Hrec; [|done].
  by rewrite (IH fuel' p (d1, r1) Hrec ltac:(lia)).
Qed.

(** What a successful [find] did, whatever the state it ran on. *)
Lemma find_Ok d i d' r :
  find d i = Ok (d', r) →
  root_of (parent d) i r ∧ rank d' = rank d ∧
  length (parent d') = length (parent d) ∧
  parent d' !! r = Some r ∧ (i ≠ r → parent d' !! i = Some r) ∧
  (∀ j r', root_of (parent d') j r' ↔ root_of (parent d) j r') ∧
  (∀ j, parent d' !! j = parent d !! j ∨ parent d' !! j = Some r).
Proof.
  intros Hf. unfold find in Hf.
  destruct (find_rec_Ok_chain _ _ _ _ _ Hf) as (k & Hk & Hlt).
  destruct (find_rec_chain _ d k i r Hk Hlt) as (p' & Hf' & ? & ? & ? & ?).
  rewrite Hf in Hf'. simplify_eq. simpl.
  split_and!; try done; [by exists k|].
  by destruct (find_rec_entries _ _ _ _ _ Hf).
Qed.

Lemma find_of_root d i r :
  root_of (parent d) i r → ∃ d', find d i = Ok (d', r).
Proof.
  intros [k Hk]. unfold find.
  destruct (find_rec_chain (S (length (parent d))) d k i r Hk) as (p' & -> & _).
  - apply chain_bound in Hk. lia.
  - eauto.
Qed.

Lemma union_merges_roots n d a b ra rb :
  dsu_ok n d → a < n → b < n →
  root_of (parent d) a ra → root_of (parent d) b rb → ra ≠ rb →
  ∃ d', union d a b = Ok (d', true) ∧
    ∃ d1' d2' r, find d' a = Ok (d1', r) ∧ find d1' b = Ok (d2', r).
Proof.
  intros Hok Ha Hb Hra Hrb Hne.
  destruct (union_spec n d a b Hok Ha Hb)
    as (d' & b0 & Hu & rx & ry & Hrx & Hry & Hok' & Hcase).
  assert (rx = ra) as -> by eauto using root_of_fun.
  assert (ry = rb) as -> by eauto using root_of_fun.
  rewrite decide_False in Hcase by done.
  destruct Hcase as (-> & _ & lo & hi & Hlh & Hlink).
  exists d'. split; [done|].
  destruct (find_spec n d' a Hok' Ha)
    as (d1' & r1 & Hf1 & Hr1 & _ & Hok1 & _ & _ & Hpres1).
  destruct (find_spec n d1' b Hok1 Hb) as (d2' & r2 & Hf2 & Hr2 & _).
  apply Hpres1 in Hr2.
  assert (same_set (parent d') a b) as Hsame.
  { apply (same_set_link (parent d) (parent d') a b ra rb lo hi a b ra rb);
      try done.
    right. left. split; [by exists ra|by exists rb]. }
  apply (same_set_roots _ _ _ _ _ Hr1 Hr2) in Hsame as ->.
  by exists d1', d2', r2.
Qed.

(** C3. In a DSU created over [n] elements, for indices [a] and [b] below
    [n] whose [find] results differ, [union(a, b)] returns [True], and
    afterwards [find(a)] and [find(b)] return the same root.  This holds
    for [union] called on the state in which the roots differ, and as well
    on the state that the two calls of [find], made one after the other,
    leave behind. *)
Theorem union_merges n d a b d1 ra d2 rb :
  reachable n d → a < n → b < n →
  find d a = Ok (d1, ra) → find d b = Ok (d2, rb) → ra ≠ rb →
  (∃ d', union d a b = Ok (d', true) ∧
     ∃ d1' d2' r, find d' a = Ok (d1', r) ∧ find d1' b = Ok (d2', r)) ∧
  (∃ d3, find d1 b = Ok (d3, rb) ∧
     ∃ d', union d3 a b = Ok (d', true) ∧
       ∃ d1' d2' r, find d' a = Ok (d1', r) ∧ find d1' b = Ok (d2', r)).
Proof.
  intros Hok%reachable_ok Ha Hb Hfa Hfb Hne.
  destruct (find_root n d a d1 ra Hok Ha Hfa)
    as (Hra & _ & Hok1 & _ & _ & Hpres1).
  apply find_Ok in Hfb as (Hrb & _).
  split; [by eapply union_merges_roots|].
  destruct (find_spec n d1 b Hok1 Hb)
    as (d3 & rb' & Hf3 & Hrb' & _ & Hok3 & _ & _ & Hpres3).
  assert (rb' = rb) as ->.
  { apply Hpres1 in Hrb'. eauto using root_of_fun. }
  exists d3. split; [done|].
  eapply union_merges_roots; try done; apply Hpres3; [by apply Hpres1|done].
Qed.

Lemma union_merges_witness :
  (∃ d', union (mkDSU [0; 1; 2; 3] [1; 1; 1; 1]) 0 1 = Ok (d', true) ∧
     ∃ d1' d2' r, find d' 0 = Ok (d1', r) ∧ find d1' 1 = Ok (d2', r)) ∧
  (∃ d3, find (mkDSU [0; 1; 2; 3] [1; 1; 1; 1]) 1 = Ok (d3, 1) ∧
     ∃ d', union d3 0 1 = Ok (d', true) ∧
       ∃ d1' d2' r, find d' 0 = Ok (d1', r) ∧ find d1' 1 = Ok (d2', r)).
Proof.
  apply (union_merges 4 (mkDSU [0; 1; 2; 3] [1; 1; 1; 1]) 0 1
           (mkDSU [0; 1; 2; 3] [1; 1; 1; 1]) 0
           (mkDSU [0; 1; 2; 3] [1; 1; 1; 1]) 1).
  - apply reach_init. reflexivity.
  - lia.
  - lia.
  - reflexivity.
  - reflexivity.
  - lia.
Defined.

(** A state with a chain of two links, reached by three unions on
    [DSU(4)], and what [union(3, 0)] leaves of it. *)
Definition chain_state : DSU := mkDSU [0; 0; 0; 2] [3; 1; 2; 1].
Definition chain_state_compressed : DSU := mkDSU [0; 0; 0; 0] [3; 1; 2; 1].

Lemma chain_state_reachable : reachable 4 chain_state.
Proof.
  apply (reach_union 4 (mkDSU [0; 0; 2; 2] [2; 1; 2; 1]) 0 2 _ true); [|lia..|done].
  apply (reach_union 4 (mkDSU [0; 0; 2; 3] [2; 1; 1; 1]) 2 3 _ true); [|lia..|done].
  apply (reach_union 4 (mkDSU [0; 1; 2; 3] [1; 1; 1; 1]) 0 1 _ true); [|lia..|done].
  by apply reach_init.
Qed.

(** C4, as stated, fails: on the state [chain_state], where 3 and 0 are in
    the same set, [union(3, 0)] returns [False] but rewrites [parent[3]]
    from 2 to 0. *)
Lemma union_same_set_compresses :
  reachable 4 chain_state ∧
  (∃ d1 d2, find chain_state 3 = Ok (d1, 0) ∧ find chain_state 0 = Ok (d2, 0)) ∧
  union chain_state 3 0 = Ok (chain_state_compressed, false) ∧
  parent chain_state_compressed ≠ parent chain_state.
Proof.
  split; [apply chain_state_reachable|].
  split; [by eexists _, _|]. split; [done|]. discriminate.
Qed.

(** Once [find(x)] and then [find(y)] have returned the same root, the
    paths of both are compressed, and [union(x, y)] right after returns
    [False] and leaves the DSU exactly as it is. *)
Lemma union_after_find d x y d1 d2 r :
  find d x = Ok (d1, r) → find d1 y = Ok (d2, r) →
  union d2 x y = Ok (d2, false).
Proof.
  intros Hfx Hfy.
  apply find_Ok in Hfx as (_ & _ & _ & Hr1 & Hx1 & _ & _).
  apply find_Ok in Hfy as (_ & _ & _ & Hr2 & Hy2 & _ & Hent).
  assert (Hx2 : parent d2 !! x = Some r).
  { destruct (decide (x = r)) as [->|Hne]; [done|].
    destruct (Hent x) as [Hx|Hx]; rewrite Hx; auto. }
  assert (Hy2' : parent d2 !! y = Some r).
  { destruct (decide (y = r)) as [->|Hne]; auto. }
  unfold union. rewrite (find_compressed d2 x r Hx2 Hr2). cbn [bind].
  rewrite (find_compressed d2 y r Hy2' Hr2). cbn [bind].
  rewrite decide_False; [done|]. intros Hne. by apply Hne.
Qed.

(** C4, amended. When [find(x)] and [find(y)] return the same root [r],
    [union(x, y)] returns [False] and leaves the rank array, the length of
    the parent array and the root of every element unchanged; a parent
    entry either keeps its value or now holds [r] (path compression).
    Called right after [find(x)] and [find(y)], which have compressed both
    paths, [union(x, y)] leaves the parent array unchanged as well. *)
Theorem union_same_set d x y d1 d2 r :
  find d x = Ok (d1, r) → find d y = Ok (d2, r) →
  (∃ d', union d x y = Ok (d', false) ∧
     rank d' = rank d ∧
     length (parent d') = length (parent d) ∧
     (∀ j r', root_of (parent d') j r' ↔ root_of (parent d) j r') ∧
     (∀ j, parent d' !! j = parent d !! j ∨ parent d' !! j = Some r)) ∧
  (∃ d3, find d1 y = Ok (d3, r) ∧ union d3 x y = Ok (d3, false)).
Proof.
  intros Hfx Hfy.
  pose proof (find_Ok _ _ _ _ Hfx) as (Hrx & Hrk1 & Hlen1 & _ & _ & Hpres1 & Hent1).
  apply find_Ok in Hfy as (Hry & _).
  apply Hpres1 in Hry. destruct (find_of_root d1 y r Hry) as [d' Hfy'].
  pose proof (find_Ok _ _ _ _ Hfy') as (_ & Hrk2 & Hlen2 & _ & _ & Hpres2 & Hent2).
  split.
  - exists d'. split_and!.
    + unfold union. rewrite Hfx. cbn [bind]. rewrite Hfy'. cbn [bind].
      rewrite decide_False; [done|]. intros Hne. by apply Hne.
    + congruence.
    + congruence.
    + intros j r'. rewrite Hpres2. apply Hpres1.
    + intros j. destruct (Hent2 j) as [Hj|Hj]; rewrite Hj; auto.
  - exists d'. split; [done|]. by eapply union_after_find.
Qed.

Lemma union_same_set_witness :
  (∃ d', union chain_state 3 0 = Ok (d', false) ∧
     rank d' = rank chain_state ∧
     length (parent d') = length (parent chain_state) ∧
     (∀ j r', root_of (parent d') j r' ↔ root_of (parent chain_state) j r') ∧
     (∀ j, parent d' !! j = parent chain_state !! j ∨ parent d' !! j = Some 0)) ∧
  (∃ d3, find chain_state_compressed 0 = Ok (d3, 0) ∧
         union d3 3 0 = Ok (d3, false)).
Proof.
  apply (union_same_set chain_state 3 0 chain_state_compressed
           (mkDSU [0; 0; 0; 2] [3; 1; 2; 1]) 0).
  - reflexivity.
  - reflexivity.
Defined.

(** C5, as stated, fails: [DSU(-1)] raises nothing and is the empty DSU. *)
Lemma DSU_init_negative_ok : DSU_init (-1) = Ok (mkDSU [] []).
Proof. reflexivity. Qed.

(** C5, amended. For a negative [n], [DSU(n)] raises nothing: it is the
    DSU without elements, on which every [find] raises [IndexError]. *)
Theorem DSU_init_negative (n : Z) :
  (n < 0)%Z →
  DSU_init n = Ok (mkDSU [] []) ∧
  ∀ i, find (mkDSU [] []) i = Raise IndexError.
Proof.
  intros Hn. unfold DSU_init. replace (Z.to_nat n) with 0 by lia.
  split; [done|]. intros i. reflexivity.
Qed.

Lemma DSU_init_negative_witness :
  DSU_init (-3) = Ok (mkDSU [] []) ∧
  ∀ i, find (mkDSU [] []) i = Raise IndexError.
Proof. apply (DSU_init_negative (-3)). lia. Defined.

(** C6. In a DSU created over [n] elements, for an index [i] below [n],
    the parent chain from [i] reaches a root [r] in fewer than [n] steps,
    [find(i)] returns [r] (with any recursion depth above [n]), and a
    second [find(i)] returns [r] again and changes nothing. *)
Theorem find_terminates n d i :
  reachable n d → i < n →
  ∃ k r d', chain (parent d) k i r ∧ k < n ∧
    find d i = Ok (d', r) ∧
    (∀ fuel, n < fuel → find_rec fuel d i = Ok (d', r)) ∧
    find d' i = Ok (d', r).
Proof.
  intros Hok%reachable_ok Hi. pose proof Hok as (Hlen & _ & Hall).
  destruct (Hall i Hi) as (r & k & Hk).
  assert (k < n) as Hkn by (rewrite <-Hlen; eapply chain_bound, Hk).
  destruct (find_rec_chain (S n) d k i r Hk ltac:(lia))
    as (p' & Hf & Hlen' & Hrr & Hir & Hpres).
  exists k, r, (mkDSU p' (rank d)). split_and!; try done.
  - unfold find. by rewrite Hlen.
  - intros fuel Hfuel.
    eapply find_rec_fuel; [apply Hf|lia].
  - apply find_compressed; simpl; [|done].
    destruct (decide (i = r)) as [->|]; auto.
Qed.

Lemma find_terminates_witness :
  ∃ k r d', chain (parent chain_state) k 3 r ∧ k < 4 ∧
    find chain_state 3 = Ok (d', r) ∧
    (∀ fuel, 4 < fuel → find_rec fuel chain_state 3 = Ok (d', r)) ∧
    find d' 3 = Ok (d', r).
Proof.
  apply (find_terminates 4 chain_state 3).
  - apply chain_state_reachable.
  - lia.
Defined.

(** * The adjacency list that [main] builds *)

Section BuildAdj.
Context {W : Type}.
Implicit Types (E : list (@edge W)) (adj : adjacency W).

Lemma adj_get_insert adj k l u :
  adj_get (<[k:=l]> adj) u = if decide (k = u) then l else adj_get adj u.
Proof.
  unfold adj_get. case_decide as Hk.
  - subst. by rewrite lookup_insert_eq.
  - by rewrite lookup_insert_ne.
Qed.

Lemma adj_fill_spec n E adj0 :
  endpoints_below n E → (∀ k, k < n → is_Some (adj0 !! k)) →
  ∃ adj, adj_fill adj0 E = Ok adj ∧
    ∀ u v w, (v, w) ∈ adj_get adj u ↔
             (v, w) ∈ adj_get adj0 u ∨ in_graph E (u, v, w).
Proof.
  revert adj0. induction E as [|[[s d] w0] E IH]; intros adj0 Hn Hdom.
  - exists adj0. split; [done|]. intros u v w. unfold in_graph. split; [auto|].
    intros [?|[?%elem_of_nil|?%elem_of_nil]]; done.
  - assert (s < n ∧ d < n) as [Hs Hd] by (apply (Hn (s, d, w0)); by left).
    destruct (Hdom s Hs) as [ls Hls]. cbn [adj_fill]. unfold adj_append at 1.
    rewrite Hls. cbn [bind].
    set (adj1 := <[s:=ls ++ [(d, w0)]]> adj0).
    assert (Hdom1 : ∀ k, k < n → is_Some (adj1 !! k)).
    { intros k Hk. unfold adj1. destruct (decide (s = k)) as [->|].
      - rewrite lookup_insert_eq. eauto.
      - rewrite lookup_insert_ne by done. auto. }
    destruct (Hdom1 d Hd) as [ld Hld]. unfold adj_append. rewrite Hld.
    cbn [bind].
    set (adj2 := <[d:=ld ++ [(s, w0)]]> adj1).
    destruct (IH adj2) as (adj & Hfill & Hadj).
    { intros e He. apply Hn. by right. }
    { intros k Hk. unfold adj2. destruct (decide (d = k)) as [->|].
      - rewrite lookup_insert_eq. eauto.
      - rewrite lookup_insert_ne by done. auto. }
    exists adj. split; [done|]. intros u v w. rewrite Hadj.
    assert (Hld' : ld = adj_get adj1 d) by (unfold adj_get; by rewrite Hld).
    assert (Hls' : ls = adj_get adj0 s) by (unfold adj_get; by rewrite Hls).
    unfold adj2. rewrite adj_get_insert.
    unfold in_graph, flip, e_src, e_dst, e_weight. simpl.
    rewrite !elem_of_cons.
    destruct (decide (d = u)) as [->|Hdu].
    + rewrite elem_of_app, list_elem_of_singleton, Hld'. unfold adj1.
      rewrite adj_get_insert. destruct (decide (s = u)) as [->|Hsu].
      * rewrite elem_of_app, list_elem_of_singleton, Hls'.
        split; intros; destruct_or?; simplify_eq; auto.
      * split; intros; destruct_or?; simplify_eq; auto.
    + unfold adj1. rewrite adj_get_insert. destruct (decide (s = u)) as [->|Hsu].
      * rewrite elem_of_app, list_elem_of_singleton, Hls'.
        split; intros; destruct_or?; simplify_eq; auto.
      * split; intros; destruct_or?; simplify_eq; auto.
Qed.

Lemma init_adj_lookup n k :
  (list_to_map ((λ i, (i, [])) <$> seq 0 n) : adjacency W) !! k =
  if decide (k < n) then Some [] else None.
Proof.
  assert (Hfst : ((λ i : nat, (i, @nil (nat * W))) <$> seq 0 n).*1 = seq 0 n).
  { rewrite <-list_fmap_compose. apply list_fmap_id. }
  case_decide as Hk.
  - apply elem_of_list_to_map; [rewrite Hfst; apply NoDup_seq|].
    apply list_elem_of_fmap. exists k. split; [done|]. apply elem_of_seq. lia.
  - apply not_elem_of_list_to_map_1. rewrite Hfst, elem_of_seq. lia.
Qed.

(** [main] hands Prim an adjacency list that holds every row at both of
    its ends. *)
Lemma build_adj_spec n E :
  endpoints_below n E →
  ∃ adj, build_adj n E = Ok adj ∧
    ∀ u v w, (v, w) ∈ adj_get adj u ↔ in_graph E (u, v, w).
Proof.
  intros Hn. unfold build_adj.
  destruct (adj_fill_spec n E (list_to_map ((λ i, (i, [])) <$> seq 0 n)) Hn)
    as (adj & Hfill & Hadj).
  { intros k Hk. rewrite init_adj_lookup, decide_True by done. eauto. }
  exists adj. split; [done|]. intros u v w. rewrite Hadj.
  unfold adj_get at 1. rewrite init_adj_lookup.
  case_decide; simpl; split; auto; intros [?%elem_of_nil|?]; done.
Qed.

End BuildAdj.

(** * The cost is the sum of the selected weights, for any weights *)

Section Cost.
Context {W : Type} {WW : Weight W}.

Lemma kruskal_loop_cost V (es : list (@edge W)) d c F c' F' :
  kruskal_loop V es d c F = Ok (c', F') →
  c = sum_weights F → c' = sum_weights F'.
Proof.
  revert d c F. induction es as [|[[x y] w] es IH]; intros d c F Hrun Hc;
    simpl in Hrun; [by simplify_eq|].
  destruct (union d x y) as [[d' []]|]; [| |done].
  - case_decide.
    + simplify_eq. by rewrite sum_weights_snoc.
    + eapply IH; [done|]. by rewrite sum_weights_snoc, Hc.
  - eapply IH; done.
Qed.

Lemma kruskals_mst_cost V (E : list (@edge W)) c F :
  kruskals_mst V E = Ok (c, F) → c = sum_weights F.
Proof.
  unfold kruskals_mst, DSU_init. cbn [bind]. intros Hrun.
  by eapply kruskal_loop_cost.
Qed.

(** A turn of Prim's loop either drops an entry whose destination is
    visited, or selects an edge whose destination was not. *)
Lemma prim_step_select V (adj : adjacency W) s s' :
  prim_step V adj s = Some s' →
  (st_edges s' = st_edges s ∧ st_visited s' = st_visited s) ∨
  (∃ u v w, st_edges s' = st_edges s ++ [(u, v, w)] ∧
            (v ∉ st_visited s) ∧ st_visited s' = st_visited s ∪ {[v]}).
Proof.
  unfold prim_step. destruct (st_heap s) as [|[[w u] v] h']; [done|].
  repeat case_decide; intros; simplify_eq; cbn [st_edges st_visited]; [|by left].
  right. by exists u, v, w.
Qed.

Lemma prims_mst_shape V (adj : adjacency W) :
  V ≠ 0%Z →
  ∃ s, prim_loop (prim_fuel adj) V adj (prim_start adj) = Some s ∧
       prims_mst V adj = Some (st_cost s, st_edges s) ∧
       prim_shape V s ∧ prim_step V adj s = None.
Proof.
  intros HV.
  destruct (prim_loop_total V adj (prim_fuel adj) (prim_start adj)
              (prim_start_measure adj)) as [s Hrun].
  exists s. split; [done|]. split.
  - unfold prims_mst, prims_mst_fuel. rewrite decide_False by done.
    by rewrite Hrun.
  - eapply (prim_loop_inv (prim_shape V)); [|apply prim_shape_start|done].
    intros ?? ??. by eapply prim_shape_step.
Qed.

End Cost.

(** * The two engines on graphs *)

(** The scenario of the specification, and the adjacency list [main]
    builds for it. *)
Definition scenario_adj : adjacency Z :=
  list_to_map
    [(0, [(1, 1%Z); (3, 10%Z); (2, 4%Z)]);
     (1, [(0, 1%Z); (2, 2%Z)]);
     (2, [(1, 2%Z); (3, 3%Z); (0, 4%Z)]);
     (3, [(2, 3%Z); (0, 10%Z)])].

Lemma scenario_build_adj : build_adj 4 scenario_edges = Ok scenario_adj.
Proof. vm_compute. reflexivity. Qed.

Lemma scenario_below : endpoints_below 4 scenario_edges.
Proof.
  intros e He. unfold scenario_edges in He.
  repeat (apply elem_of_cons in He as [->|He]; [unfold e_src, e_dst; simpl; lia|]).
  by apply elem_of_nil in He.
Qed.

Lemma scenario_adj_rep : adj_rep scenario_edges scenario_adj.
Proof.
  destruct (build_adj_spec 4 scenario_edges scenario_below) as (adj & Hb & Hadj).
  rewrite scenario_build_adj in Hb. by simplify_eq.
Qed.

Lemma spans_from_start {W} n (E : list (@edge W)) :
  (∀ x, x < n → conn E 0 x) → spans n E.
Proof.
  intros Hall x y Hx Hy. eapply conn_trans; [apply conn_sym|]; auto.
Qed.

Lemma scenario_connected : connected 4 scenario_edges.
Proof.
  split; [lia|]. apply spans_from_start. intros x Hx.
  assert (conn scenario_edges 0 1) as H1.
  { apply (conn_edge _ (0, 1, 1%Z)); [set_solver|by left]. }
  assert (conn scenario_edges 1 2) as H2.
  { apply (conn_edge _ (1, 2, 2%Z)); [set_solver|by left]. }
  assert (conn scenario_edges 2 3) as H3.
  { apply (conn_edge _ (2, 3, 3%Z)); [set_solver|by left]. }
  destruct x as [|[|[|[|x]]]]; [apply conn_refl|done|..|lia];
    eauto using conn_trans.
Qed.

(** C1, amended. For every connected graph on the vertices [0 .. n-1]
    with integer weights (whose sums are exact), given to Kruskal as an
    edge list and to Prim as an adjacency list that holds each edge at both
    ends, both engines return the same total cost, and each returns
    [n - 1] edges. *)
Theorem engines_same_cost n (E : list (@edge Z)) (adj : adjacency Z) :
  endpoints_below n E → adj_rep E adj → connected n E →
  ∃ c FK FP,
    kruskals_mst (Z.of_nat n) E = Ok (c, FK) ∧
    prims_mst (Z.of_nat n) adj = Some (c, FP) ∧
    (Z.of_nat (length FK) = Z.of_nat n - 1)%Z ∧
    (Z.of_nat (length FP) = Z.of_nat n - 1)%Z.
Proof.
  intros Hbelow Hrep Hconn.
  destruct (engines_agree n E adj Hbelow Hrep Hconn)
    as (c & FK & FP & HK & HP & HlK & HlP).
  exists c, FK, FP. split_and!; [done..|lia|lia].
Qed.

Lemma engines_same_cost_witness :
  ∃ c FK FP,
    kruskals_mst (Z.of_nat 4) scenario_edges = Ok (c, FK) ∧
    prims_mst (Z.of_nat 4) scenario_adj = Some (c, FP) ∧
    (Z.of_nat (length FK) = Z.of_nat 4 - 1)%Z ∧
    (Z.of_nat (length FP) = Z.of_nat 4 - 1)%Z.
Proof.
  apply (engines_same_cost 4 scenario_edges scenario_adj).
  - apply scenario_below.
  - apply scenario_adj_rep.
  - apply scenario_connected.
Defined.

(** C2. On the scenario graph, Kruskal and Prim both return the cost 6
    and the edges (0,1,1), (1,2,2), (2,3,3). *)
Theorem scenario_costs :
  kruskals_mst 4 scenario_edges = Ok (6%Z, scenario_mst) ∧
  build_adj 4 scenario_edges = Ok scenario_adj ∧
  prims_mst 4 scenario_adj = Some (6%Z, scenario_mst).
Proof. vm_compute. done. Qed.

(** C9, as stated, fails without vertices: both engines return no edge,
    which is neither [V - 1 = -1] edges nor fewer. *)
Lemma no_vertices_result :
  kruskals_mst 0 (@nil (@edge Z)) = Ok (0%Z, []) ∧
  prims_mst 0 (∅ : adjacency Z) = Some (0%Z, []) ∧
  ¬ (Z.of_nat (length (@nil (@edge Z))) = 0 - 1)%Z ∧
  ¬ (Z.of_nat (length (@nil (@edge Z))) < 0 - 1)%Z.
Proof. split_and!; [done|done|simpl; lia|simpl; lia]. Qed.

(** C9, amended. For every input and weights of any type, the cost an
    engine returns is the sum of the weights of the edges it returns, added
    in selection order.  For [V ≥ 1] vertices and a graph with end points
    below [V], each engine returns, and its list has [V - 1] edges when the
    graph is connected and fewer otherwise. *)
Theorem engines_result {W : Type} {WW : Weight W} (V : Z)
    (E : list (@edge W)) (adj : adjacency W) :
  (∀ c F, kruskals_mst V E = Ok (c, F) → c = sum_weights F) ∧
  (∃ c F, prims_mst V adj = Some (c, F) ∧ c = sum_weights F) ∧
  ((0 < V)%Z → endpoints_below (Z.to_nat V) E → adj_rep E adj →
   ∃ cK FK cP FP,
     kruskals_mst V E = Ok (cK, FK) ∧ prims_mst V adj = Some (cP, FP) ∧
     (connected (Z.to_nat V) E →
        (Z.of_nat (length FK) = V - 1)%Z ∧ (Z.of_nat (length FP) = V - 1)%Z) ∧
     (¬ connected (Z.to_nat V) E →
        (Z.of_nat (length FK) < V - 1)%Z ∧ (Z.of_nat (length FP) < V - 1)%Z)).
Proof.
  split_and!.
  - intros c F. apply kruskals_mst_cost.
  - destruct (decide (V = 0%Z)) as [->|HV].
    + by exists w_zero, [].
    + destruct (prims_mst_shape V adj HV) as (s & _ & HP & Hshape & _).
      exists (st_cost s), (st_edges s). split; [done|]. apply (ps_cost _ _ Hshape).
  - intros HV Hbelow Hrep. set (n := Z.to_nat V) in *.
    assert (Z.of_nat n = V) as Hn by (unfold n; lia). rewrite <-Hn.
    assert (0 < n) as Hn0 by lia.
    destruct (kruskals_mst_shape n E Hbelow)
      as (cK & FK & HK & _ & _ & _ & HKfull & HKpart).
    destruct (prims_mst_inv n E adj (λ _, True) Hbelow Hrep Hn0)
      as (s & HP & _ & _ & _ & _ & HPfull & HPpart); [done..|].
    exists cK, FK, (st_cost s), (st_edges s). split_and!; try done.
    + intros [_ Hsp]. destruct (HKfull Hn0 Hsp), (HPfull Hsp). lia.
    + intros Hnc. assert (¬ spans n E) as Hns by (intros ?; by apply Hnc).
      specialize (HKpart Hn0 Hns). specialize (HPpart Hns). lia.
Qed.

Lemma engines_result_witness :
  ∃ cK FK cP FP,
    kruskals_mst 4 scenario_edges = Ok (cK, FK) ∧
    prims_mst 4 scenario_adj = Some (cP, FP) ∧
    (connected (Z.to_nat 4) scenario_edges →
       (Z.of_nat (length FK) = 4 - 1)%Z ∧ (Z.of_nat (length FP) = 4 - 1)%Z) ∧
    (¬ connected (Z.to_nat 4) scenario_edges →
       (Z.of_nat (length FK) < 4 - 1)%Z ∧ (Z.of_nat (length FP) < 4 - 1)%Z).
Proof.
  apply (engines_result 4 scenario_edges scenario_adj).
  - lia.
  - apply scenario_below.
  - apply scenario_adj_rep.
Defined.

(** C10, as stated, fails without vertices: [prims_mst(0, {})] returns no
    edge, which exceeds [numVertices - 1 = -1]. *)
Lemma prims_no_vertices :
  prims_mst 0 (∅ : adjacency Z) = Some (0%Z, []) ∧
  ¬ (Z.of_nat (length (@nil (@edge Z))) ≤ 0 - 1)%Z.
Proof. split; [done|simpl; lia]. Qed.

(** C10, amended. For every adjacency list and every weight type,
    [prims_mst] returns, and its edges form a forest rooted at the start
    vertex: the destinations of the selected edges are pairwise distinct
    and none is the start vertex; when an edge was selected its origin was
    visited and its destination was not (the visited set being the start
    vertex and the destinations selected before); when [numVertices] is
    not 0 the number of selected edges is the number of visited vertices
    minus one; it never exceeds [numVertices - 1] when [numVertices ≥ 1],
    and is 0 otherwise. *)
Theorem prims_forest {W : Type} {WW : Weight W} (V : Z) (adj : adjacency W) :
  ∃ c F,
    prims_mst V adj = Some (c, F) ∧
    NoDup (0 :: (e_dst <$> F)) ∧
    (∀ F1 e F2, F = F1 ++ e :: F2 →
       e_src e ∈ visited_after F1 ∧ e_dst e ∉ visited_after F1) ∧
    (∀ s s', prim_shape V s → prim_step V adj s = Some s' →
       st_visited s = visited_after (st_edges s) ∧
       ((st_edges s' = st_edges s ∧ st_visited s' = st_visited s) ∨
        ∃ u v w, st_edges s' = st_edges s ++ [(u, v, w)] ∧
                 (v ∉ st_visited s) ∧ st_visited s' = st_visited s ∪ {[v]})) ∧
    (V ≠ 0%Z →
       ∃ s, prim_loop (prim_fuel adj) V adj (prim_start adj) = Some s ∧
            st_edges s = F ∧ st_visited s = visited_after F ∧
            length F = size (st_visited s) - 1) ∧
    ((0 < V)%Z → (Z.of_nat (length F) ≤ V - 1)%Z) ∧
    ((V ≤ 0)%Z → F = []).
Proof.
  assert (Hprefix : ∀ F : list (@edge W), NoDup (0 :: (e_dst <$> F)) →
            ∀ F1 e F2, F = F1 ++ e :: F2 → e_dst e ∉ visited_after F1).
  { intros F HND F1 e F2 ->. rewrite fmap_app, fmap_cons in HND.
    apply NoDup_cons in HND as [H0 HND].
    apply NoDup_app in HND as (_ & Hdisj & _).
    unfold visited_after. intros [Hin|Hin]%elem_of_union.
    - apply elem_of_singleton in Hin. apply H0. rewrite Hin.
      apply elem_of_app. right. by left.
    - apply elem_of_list_to_set in Hin. apply (Hdisj _ Hin). by left. }
  assert (Hsteps : ∀ s s', prim_shape V s → prim_step V adj s = Some s' →
       st_visited s = visited_after (st_edges s) ∧
       ((st_edges s' = st_edges s ∧ st_visited s' = st_visited s) ∨
        ∃ u v w, st_edges s' = st_edges s ++ [(u, v, w)] ∧
                 (v ∉ st_visited s) ∧ st_visited s' = st_visited s ∪ {[v]})).
  { intros s s' Hs Hstep. split; [apply (ps_visited _ _ Hs)|].
    by apply prim_step_select in Hstep. }
  destruct (decide (V = 0%Z)) as [->|HV].
  - exists w_zero, []. split_and!; try done.
    + apply (NoDup_singleton 0).
    + by intros [|??] ?? ?.
  - destruct (prims_mst_shape V adj HV) as (s & Hrun & Hres & Hshape & Hexit).
    pose proof (prim_shape_size _ _ Hshape) as Hsize.
    exists (st_cost s), (st_edges s). split_and!; try done.
    + apply (ps_nodup _ _ Hshape).
    + intros F1 e F2 HF. split; [by eapply (ps_src _ _ Hshape)|].
      by eapply Hprefix; [apply (ps_nodup _ _ Hshape)|].
    + intros _. exists s. split_and!; [done|done|apply (ps_visited _ _ Hshape)|lia].
    + intros HVpos. destruct (ps_bound _ _ Hshape); lia.
    + intros HVneg.
      assert (prim_step V adj (prim_start adj) = None) as Hstart.
      { unfold prim_step. destruct (st_heap (prim_start adj)) as [|[[??]?] ?];
          [done|]. rewrite decide_False; [done|].
        unfold prim_start. cbn [st_visited]. rewrite size_singleton. lia. }
      unfold prim_fuel in Hrun. simpl in Hrun. rewrite Hstart in Hrun.
      by simplify_eq.
Qed.

Lemma prims_forest_witness :
  ∃ c F,
    prims_mst 4 scenario_adj = Some (c, F) ∧
    NoDup (0 :: (e_dst <$> F)) ∧
    (∀ F1 e F2, F = F1 ++ e :: F2 →
       e_src e ∈ visited_after F1 ∧ e_dst e ∉ visited_after F1) ∧
    (∀ s s', prim_shape 4 s → prim_step 4 scenario_adj s = Some s' →
       st_visited s = visited_after (st_edges s) ∧
       ((st_edges s' = st_edges s ∧ st_visited s' = st_visited s) ∨
        ∃ u v w, st_edges s' = st_edges s ++ [(u, v, w)] ∧
                 (v ∉ st_visited s) ∧ st_visited s' = st_visited s ∪ {[v]})) ∧
    (4%Z ≠ 0%Z →
       ∃ s, prim_loop (prim_fuel scenario_adj) 4 scenario_adj
              (prim_start scenario_adj) = Some s ∧
            st_edges s = F ∧ st_visited s = visited_after F ∧
            length F = size (st_visited s) - 1) ∧
    ((0 < 4)%Z → (Z.of_nat (length F) ≤ 4 - 1)%Z) ∧
    ((4 ≤ 0)%Z → F = []).
Proof. apply (prims_forest 4 scenario_adj). Defined.

(** * Binary64 weights *)

Module FloatWeights.
Import PrimFloat.

(** A path 0 - 1 with weight 1e16 and two edges of weight 1 at vertex 1:
    the rows as [main] reads them ([float(row["peso"])]). *)
Definition float_edges : list (@edge float) :=
  [(0, 1, 10000000000000000%float); (1, 2, 1%float); (1, 3, 1%float)].

Definition float_adj : adjacency float :=
  list_to_map
    [(0, [(1, 10000000000000000%float)]);
     (1, [(0, 10000000000000000%float); (2, 1%float); (3, 1%float)]);
     (2, [(1, 1%float)]);
     (3, [(1, 1%float)])].

(** The binary64 number that the literal [1e-9] denotes. *)
Definition tolerance : float := 0x1.12e0be826d695p-30%float.

(** [abs(kruskal_cost - prim_cost) < 1e-9] *)
Definition costs_match (kruskal_cost prim_cost : float) : bool :=
  ltb (abs (sub kruskal_cost prim_cost)) tolerance.

Lemma float_connected : connected 4 float_edges.
Proof.
  split; [lia|]. apply spans_from_start. intros x Hx.
  assert (conn float_edges 0 1) as H1.
  { apply (conn_edge _ (0, 1, 10000000000000000%float)); [set_solver|by left]. }
  assert (conn float_edges 1 2) as H2.
  { apply (conn_edge _ (1, 2, 1%float)); [set_solver|by left]. }
  assert (conn float_edges 1 3) as H3.
  { apply (conn_edge _ (1, 3, 1%float)); [set_solver|by left]. }
  destruct x as [|[|[|[|x]]]]; [apply conn_refl|done|..|lia];
    eauto using conn_trans.
Qed.

(** C1, as stated, fails for binary64 weights: on a connected graph with
    4 vertices, 3 edges and weights 1e16, 1 and 1, Kruskal adds
    1 + 1 + 1e16 and Prim adds 1e16 + 1 + 1; the two costs differ by 2. *)
Lemma engines_disagree :
  connected 4 float_edges ∧
  Forall (λ e, e_src e < 4 ∧ e_dst e < 4 ∧ leb 0 (e_weight e) = true)
         float_edges ∧
  build_adj 4 float_edges = Ok float_adj ∧
  kruskals_mst 4 float_edges =
    Ok (10000000000000002%float,
        [(1, 2, 1%float); (1, 3, 1%float); (0, 1, 10000000000000000%float)]) ∧
  prims_mst 4 float_adj =
    Some (10000000000000000%float,
          [(0, 1, 10000000000000000%float); (1, 2, 1%float); (1, 3, 1%float)]) ∧
  costs_match 10000000000000002%float 10000000000000000%float = false.
Proof.
  split; [apply float_connected|].
  split; [repeat constructor|].
  vm_compute. done.
Qed.

End FloatWeights.

(** * Remapping the vertex identifiers *)

(** ** [final.py]: a dictionary from identifier to index *)

Lemma map_id_to_idx_lookup_gen (l : list Z) (k : nat) (m0 : gmap Z nat) id i :
  NoDup l →
  foldl (λ m p, <[p.2 := p.1]> m) m0 (zip (seq k (length l)) l) !! id = Some i ↔
  (∃ j, l !! j = Some id ∧ i = k + j) ∨ ((id ∉ l) ∧ m0 !! id = Some i).
Proof.
  revert k m0. induction l as [|x l IH]; intros k m0 HND; simpl.
  - split; [intros ?; right; split; [apply not_elem_of_nil|done]|].
    intros [(j & Hj & _)|[_ ?]]; [by rewrite lookup_nil in Hj|done].
  - apply NoDup_cons in HND as [Hx HND]. rewrite IH by done. split.
    + intros [(j & Hj & ->)|[Hid Hm]].
      * left. exists (S j). split; [done|lia].
      * destruct (decide (x = id)) as [->|Hne].
        -- rewrite lookup_insert_eq in Hm. simplify_eq. left. exists 0.
           split; [done|lia].
        -- rewrite lookup_insert_ne in Hm by done. right.
           split; [|done]. by intros [->|?]%elem_of_cons.
    + intros [(j & Hj & ->)|[Hid Hm]].
      * destruct j as [|j]; simpl in Hj.
        -- simplify_eq. right. split; [done|].
           rewrite lookup_insert_eq. f_equal. lia.
        -- left. exists j. split; [done|lia].
      * right. apply not_elem_of_cons in Hid as [Hne Hid]. split; [done|].
        by rewrite lookup_insert_ne.
Qed.

Lemma map_id_to_idx_lookup iteration id i :
  NoDup iteration →
  map_id_to_idx iteration !! id = Some i ↔ iteration !! i = Some id.
Proof.
  intros HND. unfold map_id_to_idx. rewrite map_id_to_idx_lookup_gen by done.
  split.
  - intros [(j & Hj & ->)|[_ ?]]; [done|by rewrite lookup_empty in *].
  - intros Hi. left. by exists i.
Qed.

(** ** [index.py]: subtracting an offset *)


Lemma index_sorted_by_cmp_eq l :
  Index.sorted_by_cmp l = sorted_by_weight l.
Proof.
  induction l as [|e l IH]; simpl; [done|]. rewrite IH.
  generalize (sorted_by_weight l). intros l'.
  induction l' as [|x l' IH']; simpl; [done|]. rewrite IH'.
  unfold Index.comparator.
  destruct (Z.ltb_spec (e_weight x - e_weight e) 0),
    (Z.ltb_spec (e_weight x) (e_weight e)); done || lia.
Qed.

Lemma union_post_same_set n d x y d' b :
  dsu_ok n d → union_post n d x y d' b →
  (b = true ↔ ¬ same_set (parent d) x y) ∧
  ∀ i j, i < n → j < n →
    same_set (parent d') i j ↔
    same_set (parent d) i j ∨
    (b = true ∧
     ((same_set (parent d) i x ∧ same_set (parent d) y j) ∨
      (same_set (parent d) i y ∧ same_set (parent d) x j))).
Proof.
  intros (_ & _ & Hall) (rx & ry & Hrx & Hry & _ & Hcase).
  rewrite (same_set_roots _ _ _ _ _ Hrx Hry).
  destruct (decide (rx = ry)) as [Heq|Hne].
  - destruct Hcase as (-> & _ & _ & Hpres). split; [done|].
    intros i j _ _. rewrite (same_set_preserved _ _ _ _ Hpres).
    split; [auto|]. by intros [?|[? _]].
  - destruct Hcase as (-> & _ & lo & hi & Hlh & Hlink). split; [done|].
    intros i j Hi Hj.
    destruct (Hall i Hi) as [ri Hri], (Hall j Hj) as [rj Hrj].
    rewrite (same_set_link _ _ x y rx ry lo hi i j ri rj) by done.
    split; [intros [?|?]; auto|]. intros [?|[_ ?]]; auto.
Qed.

(** On end points below [n], the loop of [index.py] adds the same weights
    as the loop of [final.py] and counts the edges that one keeps. *)
Lemma index_loop_agrees n V es :
  (∀ e, e ∈ es → e_src e < n ∧ e_dst e < n) →
  ∀ df di c F,
    dsu_ok n df → dsu_ok n di →
    (∀ i j, i < n → j < n →
       same_set (parent df) i j ↔ same_set (parent di) i j) →
    ∃ c' F', kruskal_loop V es df c F = Ok (c', F') ∧
             Index.kruskal_loop V es di c (length F) = Ok (c', length F').
Proof.
  induction es as [|[[x y] w] es IH]; intros Hes df di c F Hokf Hoki Hsame.
  - by exists c, F.
  - assert (x < n ∧ y < n) as [Hx Hy] by (apply (Hes (x, y, w)); by left).
    assert (Hes' : ∀ e, e ∈ es → e_src e < n ∧ e_dst e < n)
      by (intros e He; apply Hes; by right).
    destruct (union_spec n df x y Hokf Hx Hy) as (df' & b & Hu & Hpost).
    pose proof Hpost as (_ & _ & _ & _ & Hokf' & _).
    destruct (union_post_same_set n df x y df' b Hokf Hpost) as [Hb Hsetf].
    destruct (find_spec n di x Hoki Hx)
      as (d1 & r1 & Hf1 & Hr1 & _ & Hok1 & _ & _ & Hpres1).
    destruct (find_spec n d1 y Hok1 Hy)
      as (d2 & r2 & Hf2 & Hr2 & _ & Hok2 & _ & _ & Hpres2).
    apply Hpres1 in Hr2.
    assert (Hpres : ∀ i j, same_set (parent d2) i j ↔ same_set (parent di) i j).
    { intros i j. rewrite (same_set_preserved _ _ _ _ Hpres2).
      apply (same_set_preserved _ _ _ _ Hpres1). }
    assert (Hdec : b = true ↔ r1 ≠ r2).
    { rewrite Hb, (Hsame x y Hx Hy). by rewrite (same_set_roots _ _ _ _ _ Hr1 Hr2). }
    cbn [kruskal_loop Index.kruskal_loop]. rewrite Hu, Hf1, Hf2.
    destruct b.
    + rewrite (decide_True (P:=r1 ≠ r2)) by by apply Hdec.
      destruct (union_spec n d2 x y Hok2 Hx Hy) as (d3 & b3 & Hu3 & Hpost3).
      pose proof Hpost3 as (_ & _ & _ & _ & Hok3 & _).
      destruct (union_post_same_set n d2 x y d3 b3 Hok2 Hpost3) as [Hb3 Hset3].
      assert (b3 = true) as ->.
      { apply Hb3. rewrite Hpres, <-(Hsame x y Hx Hy). by apply Hb. }
      rewrite Hu3. rewrite length_app. simpl.
      replace (length F + 1) with (S (length F)) by lia.
      case_decide.
      * eexists _, _. split; [done|]. rewrite length_app. simpl.
        by replace (length F + 1) with (S (length F)) by lia.
      * destruct (IH Hes' df' d3 (c + w)%Z (F ++ [(x, y, w)]) Hokf' Hok3)
          as (c' & F' & HK & HI).
        { intros i j Hi Hj. rewrite Hsetf, Hset3 by done.
          rewrite !Hpres, !(Hsame i j), !(Hsame i x), !(Hsame y j),
            !(Hsame i y), !(Hsame x j) by done. done. }
        exists c', F'. split; [done|]. rewrite length_app in HI. simpl in HI.
        by replace (length F + 1) with (S (length F)) in HI by lia.
    + rewrite (decide_False (P:=r1 ≠ r2)); [|intros Hne; by apply Hdec in Hne].
      apply IH; try done. intros i j Hi Hj. rewrite Hsetf, Hpres by done.
      rewrite <-(Hsame i j) by done. split; [by intros [?|[? _]]|auto].
Qed.

(** On end points below [V], [kruskals_mst] of [index.py] returns the
    cost that [kruskals_mst] of [final.py] returns, and prints its warning
    exactly when that one returns fewer than [V - 1] edges for [V > 0]. *)
Lemma index_kruskal_agrees n E :
  endpoints_below n E →
  ∃ c F, kruskals_mst (Z.of_nat n) E = Ok (c, F) ∧
    Index.kruskals_mst (Z.of_nat n) E =
      Ok (c, bool_decide ((Z.of_nat (length F) < Z.of_nat n - 1)%Z
                          ∧ (Z.of_nat n > 0)%Z)).
Proof.
  intros Hn. unfold kruskals_mst, Index.kruskals_mst, DSU_init. cbn [bind].
  rewrite Nat2Z.id, index_sorted_by_cmp_eq.
  destruct (index_loop_agrees n (Z.of_nat n) (sorted_by_weight E))
    with (df := mkDSU (seq 0 n) (replicate n 1))
         (di := mkDSU (seq 0 n) (replicate n 1)) (c := 0%Z)
         (F := @nil (@edge Z)) as (c & F & HK & HI);
    [|apply dsu_ok_init..|done|].
  - intros e He. apply Hn. by rewrite sorted_by_weight_perm in He.
  - exists c, F. split; [done|]. simpl in HI. by rewrite HI.
Qed.

(** C8 fails on [index.py]: for the single row [1 5] it counts 2 vertices
    and remaps the identifiers to 0 and 4, so that 4 lies outside [0, 2)
    and [kruskals_mst] raises [IndexError]. *)
Theorem index_remap_sparse (w : Z) :
  Index.kruskal_edges [(1, 5)%Z] [w] = Some (2%Z, [(0, 4, w)]) ∧
  ¬ endpoints_below 2 [(0, 4, w)] ∧
  Index.kruskals_mst 2 [(0, 4, w)] = Raise IndexError.
Proof.
  split; [by vm_compute|]. split; [|by vm_compute].
  intros Hbelow. destruct (Hbelow (0, 4, w)) as [_ Hdst]; [by left|].
  unfold e_dst in Hdst. simpl in Hdst. lia.
Qed.

(** * The engines over a store of objects *)

Section Objects.
Context {W : Type} {WW : Weight W}.

Implicit Types (σ : gmap loc (@pyobj W)) (d : DSU).

Lemma bind_py_eq {A B} (m : py A) (f : A → py B) σ r σ1 :
  m σ = (r, σ1) →
  bind_py m f σ = match r with Ok a => f a σ1 | Raise e => (Raise e, σ1) end.
Proof. unfold bind_py. by intros ->. Qed.

(** ** What a run leaves as it was *)

(** [preserves L σ σ']: every object of [σ], those at the references [L]
    apart, is in [σ'] as it was. *)
Definition preserves (L : gset loc) σ σ' : Prop :=
  ∀ l o, l ∉ L → σ !! l = Some o → σ' !! l = Some o.

Lemma fresh_lookup σ : σ !! fresh (dom σ) = None.
Proof. apply not_elem_of_dom, is_fresh. Qed.

Lemma preserves_frame L σ0 σ σ' :
  σ0 ⊆ σ → (∀ l, l ∈ L → σ0 !! l = None) → preserves L σ σ' → σ0 ⊆ σ'.
Proof.
  intros Hsub HL Hp. apply map_subseteq_spec. intros l o Ho. apply Hp.
  - intros Hl. apply HL in Hl. congruence.
  - by eapply lookup_weaken.
Qed.

(** ** Lists *)

Lemma list_load_eq σ l items :
  σ !! l = Some (OList items) → list_load l σ = (Ok items, σ).
Proof. intros Hl. unfold list_load, bind_py, py_load. by rewrite Hl. Qed.

Lemma list_append_eq σ l items v :
  σ !! l = Some (OList items) →
  list_append l v σ = (Ok tt, <[l := OList (items ++ [v])]> σ).
Proof.
  intros Hl. unfold list_append.
  by rewrite (bind_py_eq _ _ _ _ _ (list_load_eq _ _ _ Hl)).
Qed.

Lemma list_len_eq σ l items :
  σ !! l = Some (OList items) → list_len l σ = (Ok (length items), σ).
Proof.
  intros Hl. unfold list_len.
  by rewrite (bind_py_eq _ _ _ _ _ (list_load_eq _ _ _ Hl)).
Qed.

Lemma int_getitem_eq σ l (xs : list nat) i :
  σ !! l = Some (OList (VInt <$> xs)) →
  int_getitem l i σ = (py_getitem xs i, σ).
Proof.
  intros Hl. unfold int_getitem, list_getitem.
  unfold bind_py at 1. unfold bind_py at 1.
  rewrite (list_load_eq _ _ _ Hl). cbv beta iota.
  unfold py_getitem. rewrite list_lookup_fmap.
  by destruct (xs !! i).
Qed.

Lemma int_setitem_eq σ l (xs : list nat) i v :
  σ !! l = Some (OList (VInt <$> xs)) →
  list_setitem l i (VInt v) σ =
    match py_setitem xs i v with
    | Ok xs' => (Ok tt, <[l := OList (VInt <$> xs')]> σ)
    | Raise e => (Raise e, σ)
    end.
Proof.
  intros Hl. unfold list_setitem.
  rewrite (bind_py_eq _ _ _ _ _ (list_load_eq _ _ _ Hl)).
  unfold py_setitem. rewrite length_fmap.
  case_decide; [|done]. by rewrite list_fmap_insert.
Qed.

(** ** The DSU instance and the DSU value *)

(** The instance at [self] holds the lists [p] and [r], which hold the
    entries of [d]. *)
Definition dsu_at σ (self p r : loc) d : Prop :=
  σ !! self = Some (OInstance p r) ∧
  σ !! p = Some (OList (VInt <$> parent d)) ∧
  σ !! r = Some (OList (VInt <$> rank d)) ∧
  self ≠ p ∧ self ≠ r ∧ p ≠ r.

(** The store with the two lists rewritten. *)
Definition dsu_put σ (p r : loc) d : gmap loc (@pyobj W) :=
  <[r := OList (VInt <$> rank d)]> (<[p := OList (VInt <$> parent d)]> σ).

Lemma dsu_put_id σ self p r d : dsu_at σ self p r d → dsu_put σ p r d = σ.
Proof.
  intros (_ & Hp & Hr & _). unfold dsu_put.
  rewrite (insert_id σ p) by done. by rewrite insert_id.
Qed.

Lemma dsu_put_put σ p r d d' :
  p ≠ r → dsu_put (dsu_put σ p r d) p r d' = dsu_put σ p r d'.
Proof.
  intros Hne. unfold dsu_put.
  rewrite (insert_insert_ne (<[p:=_]> σ) p r) by done.
  by rewrite !insert_insert_eq.
Qed.

Lemma dsu_at_put σ self p r d d' :
  dsu_at σ self p r d → dsu_at (dsu_put σ p r d') self p r d'.
Proof.
  intros (Hs & _ & _ & Hsp & Hsr & Hpr). unfold dsu_put. split_and!; try done.
  - by rewrite !lookup_insert_ne.
  - rewrite lookup_insert_ne by done. by rewrite lookup_insert_eq.
  - by rewrite lookup_insert_eq.
Qed.

Lemma dsu_put_preserves σ p r d : preserves {[p; r]} σ (dsu_put σ p r d).
Proof.
  intros l o Hl Ho. unfold dsu_put.
  rewrite !lookup_insert_ne; [done|set_solver..].
Qed.

Lemma dsu_put_parent σ self p r d xs :
  dsu_at σ self p r d →
  <[p := OList (VInt <$> xs)]> σ = dsu_put σ p r (mkDSU xs (rank d)).
Proof.
  intros (_ & _ & Hr & _ & _ & Hpr). unfold dsu_put. simpl.
  rewrite (insert_id (<[p:=_]> σ) r); [done|].
  by rewrite lookup_insert_ne.
Qed.

Lemma dsu_put_rank σ self p r d xs :
  dsu_at σ self p r d →
  <[r := OList (VInt <$> xs)]> σ = dsu_put σ p r (mkDSU (parent d) xs).
Proof.
  intros (_ & Hp & _). unfold dsu_put. simpl. by rewrite (insert_id σ p).
Qed.

Lemma attr_parent_eq σ self p r d :
  dsu_at σ self p r d → attr_parent self σ = (Ok p, σ).
Proof. intros (Hs & _). unfold attr_parent, bind_py, py_load. by rewrite Hs. Qed.

Lemma attr_rank_eq σ self p r d :
  dsu_at σ self p r d → attr_rank self σ = (Ok r, σ).
Proof. intros (Hs & _). unfold attr_rank, bind_py, py_load. by rewrite Hs. Qed.

Lemma parent_getitem_eq σ self p r d i :
  dsu_at σ self p r d → parent_getitem self i σ = (py_getitem (parent d) i, σ).
Proof.
  intros Hd. unfold parent_getitem.
  rewrite (bind_py_eq _ _ _ _ _ (attr_parent_eq _ _ _ _ _ Hd)).
  apply int_getitem_eq, Hd.
Qed.

Lemma rank_getitem_eq σ self p r d i :
  dsu_at σ self p r d → rank_getitem self i σ = (py_getitem (rank d) i, σ).
Proof.
  intros Hd. unfold rank_getitem.
  rewrite (bind_py_eq _ _ _ _ _ (attr_rank_eq _ _ _ _ _ Hd)).
  apply int_getitem_eq, Hd.
Qed.

Lemma parent_setitem_eq σ self p r d i v :
  dsu_at σ self p r d →
  parent_setitem self i v σ =
    match py_setitem (parent d) i v with
    | Ok xs => (Ok tt, dsu_put σ p r (mkDSU xs (rank d)))
    | Raise e => (Raise e, σ)
    end.
Proof.
  intros Hd. unfold parent_setitem.
  rewrite (bind_py_eq _ _ _ _ _ (attr_parent_eq _ _ _ _ _ Hd)).
  rewrite (int_setitem_eq _ _ (parent d)) by apply Hd.
  destruct (py_setitem (parent d) i v); [|done].
  by rewrite (dsu_put_parent _ _ _ _ _ _ Hd).
Qed.

Lemma rank_setitem_eq σ self p r d i v :
  dsu_at σ self p r d →
  rank_setitem self i v σ =
    match py_setitem (rank d) i v with
    | Ok xs => (Ok tt, dsu_put σ p r (mkDSU (parent d) xs))
    | Raise e => (Raise e, σ)
    end.
Proof.
  intros Hd. unfold rank_setitem.
  rewrite (bind_py_eq _ _ _ _ _ (attr_rank_eq _ _ _ _ _ Hd)).
  rewrite (int_setitem_eq _ _ (rank d)) by apply Hd.
  destruct (py_setitem (rank d) i v); [|done].
  by rewrite (dsu_put_rank _ _ _ _ _ _ Hd).
Qed.

(** [dsu_run m pure σ p r]: from [σ], the method [m] comes to what [pure]
    comes to on the DSU value, and it has written to the two lists
    only: they hold the DSU value that [pure] returns. *)
Definition dsu_run {A} (m : py A) (pure : outcome (DSU * A)) σ (p r : loc)
    : Prop :=
  ∃ dx, m σ = (match pure with Ok (_, a) => Ok a | Raise e => Raise e end,
               dsu_put σ p r dx) ∧
        ∀ d' a, pure = Ok (d', a) → dx = d'.

Lemma find_rec_obj_run fuel σ self p r d i :
  dsu_at σ self p r d →
  dsu_run (find_rec_obj fuel self i) (find_rec fuel d i) σ p r.
Proof.
  revert σ d i. induction fuel as [|fuel IH]; intros σ d i Hd.
  { exists d. split; [|done]. simpl. by rewrite (dsu_put_id _ _ _ _ _ Hd). }
  unfold dsu_run. cbn [find_rec_obj find_rec].
  rewrite (bind_py_eq _ _ _ _ _ (parent_getitem_eq _ _ _ _ _ i Hd)).
  destruct (py_getitem (parent d) i) as [pi|e] eqn:Hpi.
  2:{ exists d. split; [|done]. by rewrite (dsu_put_id _ _ _ _ _ Hd). }
  case_decide as Hroot.
  { exists d. split; [|by intros ?? [= <- <-]].
    by rewrite (dsu_put_id _ _ _ _ _ Hd). }
  rewrite (bind_py_eq _ _ _ _ _ (parent_getitem_eq _ _ _ _ _ i Hd)), Hpi.
  destruct (IH σ d pi Hd) as (d1 & Hrun & Hd1).
  rewrite (bind_py_eq _ _ _ _ _ Hrun).
  destruct (find_rec fuel d pi) as [[d1' r1]|e] eqn:Hrec.
  2:{ by exists d1. }
  specialize (Hd1 _ _ eq_refl) as ->.
  pose proof (dsu_at_put _ _ _ _ _ d1' Hd) as Hd1.
  pose proof (parent_setitem_eq _ _ _ _ _ i r1 Hd1) as Hw.
  destruct (py_setitem (parent d1') i r1) as [xs|e] eqn:Hset;
    rewrite (bind_py_eq _ _ _ _ _ Hw).
  2:{ by exists d1'. }
  pose proof Hd as (_ & _ & _ & _ & _ & Hpr).
  rewrite dsu_put_put by done.
  pose proof (dsu_at_put _ _ _ _ _ (mkDSU xs (rank d1')) Hd) as Hd2.
  rewrite (parent_getitem_eq _ _ _ _ _ i Hd2). simpl.
  exists (mkDSU xs (rank d1')). split.
  - by destruct (py_getitem xs i).
  - intros d' a Ha. destruct (py_getitem xs i); by simplify_eq.
Qed.

Lemma find_obj_run σ self p r d i :
  dsu_at σ self p r d → dsu_run (find_obj self i) (find d i) σ p r.
Proof.
  intros Hd. unfold dsu_run, find_obj.
  rewrite (bind_py_eq _ _ _ _ _ (attr_parent_eq _ _ _ _ _ Hd)).
  rewrite (bind_py_eq _ _ _ _ _ (list_load_eq _ _ _ (proj1 (proj2 Hd)))).
  rewrite length_fmap. by apply find_rec_obj_run.
Qed.

Lemma union_obj_run σ self p r d x y :
  dsu_at σ self p r d → dsu_run (union_obj self x y) (union d x y) σ p r.
Proof.
  intros Hd. pose proof Hd as (_ & _ & _ & _ & _ & Hpr).
  unfold dsu_run, union_obj, union.
  destruct (find_obj_run σ self p r d x Hd) as (d1 & Hrun1 & Hd1).
  rewrite (bind_py_eq _ _ _ _ _ Hrun1).
  destruct (find d x) as [[d1' root_x]|e]; cbn [bind]; [|by exists d1].
  specialize (Hd1 _ _ eq_refl) as ->.
  pose proof (dsu_at_put _ _ _ _ _ d1' Hd) as Hd1.
  destruct (find_obj_run _ self p r d1' y Hd1) as (d2 & Hrun2 & Hd2).
  rewrite dsu_put_put in Hrun2 by done.
  rewrite (bind_py_eq _ _ _ _ _ Hrun2).
  destruct (find d1' y) as [[d2' root_y]|e]; cbn [bind]; [|by exists d2].
  specialize (Hd2 _ _ eq_refl) as ->.
  pose proof (dsu_at_put _ _ _ _ _ d2' Hd) as Hd2.
  case_decide as Hroots; [|exists d2'; split; [done|by intros ?? [= <- <-]]].
  rewrite (bind_py_eq _ _ _ _ _ (rank_getitem_eq _ _ _ _ _ root_x Hd2)).
  destruct (py_getitem (rank d2') root_x) as [rank_x|e] eqn:Hrx; cbn [bind];
    [|by exists d2'].
  rewrite (bind_py_eq _ _ _ _ _ (rank_getitem_eq _ _ _ _ _ root_y Hd2)).
  destruct (py_getitem (rank d2') root_y) as [rank_y|e] eqn:Hry; cbn [bind];
    [|by exists d2'].
  case_decide as Hlt.
  { pose proof (parent_setitem_eq _ _ _ _ _ root_x root_y Hd2) as Hw.
    destruct (py_setitem (parent d2') root_x root_y) as [xs|e];
      [rewrite dsu_put_put in Hw by done|];
      rewrite (bind_py_eq _ _ _ _ _ Hw); cbn [bind]; [|by exists d2'].
    eexists. split; [done|]. by intros ?? [= <- <-]. }
  rewrite (bind_py_eq _ _ _ _ _ (rank_getitem_eq _ _ _ _ _ root_x Hd2)), Hrx.
  rewrite (bind_py_eq _ _ _ _ _ (rank_getitem_eq _ _ _ _ _ root_y Hd2)), Hry.
  case_decide as Hgt.
  { pose proof (parent_setitem_eq _ _ _ _ _ root_y root_x Hd2) as Hw.
    destruct (py_setitem (parent d2') root_y root_x) as [xs|e];
      [rewrite dsu_put_put in Hw by done|];
      rewrite (bind_py_eq _ _ _ _ _ Hw); cbn [bind]; [|by exists d2'].
    eexists. split; [done|]. by intros ?? [= <- <-]. }
  pose proof (parent_setitem_eq _ _ _ _ _ root_y root_x Hd2) as Hw.
  destruct (py_setitem (parent d2') root_y root_x) as [xs|e];
    [rewrite dsu_put_put in Hw by done|];
    rewrite (bind_py_eq _ _ _ _ _ Hw); cbn [bind]; [|by exists d2'].
  pose proof (dsu_at_put _ _ _ _ _ (mkDSU xs (rank d2')) Hd) as Hd3.
  rewrite (bind_py_eq _ _ _ _ _ (rank_getitem_eq _ _ _ _ _ root_x Hd3)).
  cbn [rank]. rewrite Hrx.
  pose proof (rank_setitem_eq _ _ _ _ _ root_x (rank_x + 1) Hd3) as Hw2.
  cbn [rank parent] in Hw2.
  destruct (py_setitem (rank d2') root_x (rank_x + 1)) as [ys|e];
    [rewrite dsu_put_put in Hw2 by done|];
    rewrite (bind_py_eq _ _ _ _ _ Hw2); cbn [bind]; [|by eexists].
  eexists. split; [done|]. by intros ?? [= <- <-].
Qed.

(** What follows from a run of a DSU method. *)
Lemma dsu_run_inv {A} (m : py A) pure σ self p r d :
  dsu_at σ self p r d → dsu_run m pure σ p r →
  ∃ σ', m σ = (match pure with Ok (_, a) => Ok a | Raise e => Raise e end, σ') ∧
        preserves {[p; r]} σ σ' ∧
        ∀ d' a, pure = Ok (d', a) → dsu_at σ' self p r d'.
Proof.
  intros Hd (dx & Hrun & Hdx). eexists. split; [done|]. split.
  - apply dsu_put_preserves.
  - intros d' a Hpure. rewrite <-(Hdx _ _ Hpure). by eapply dsu_at_put.
Qed.

(** ** The caller's graph data *)

(** The object [item] is the list [[u, v, peso]] of the edge [e]. *)
Definition edge_obj σ (item : @pyval W) (e : edge) : Prop :=
  ∃ l, item = VRef l ∧
       σ !! l = Some (OList [VInt (e_src e); VInt (e_dst e); VWeight (e_weight e)]).

(** The object at [l] is a list of such lists, those of [E] in their
    order. *)
Definition edge_list_obj σ (l : loc) (E : list edge) : Prop :=
  ∃ items, σ !! l = Some (OList items) ∧ Forall2 (edge_obj σ) items E.

(** The object at [l] is the dictionary [adj]. *)
Definition adj_obj σ (l : loc) (adj : adjacency W) : Prop :=
  ∃ entries, σ !! l = Some (ODict entries) ∧
    ∀ v, match entries !! v with
         | None => adj !! v = None
         | Some lv =>
             ∃ items nbrs, σ !! lv = Some (OList items) ∧
               py_pairs items = Ok nbrs ∧ adj !! v = Some nbrs
         end.

Lemma edge_obj_weaken σ0 σ item e :
  σ0 ⊆ σ → edge_obj σ0 item e → edge_obj σ item e.
Proof.
  intros Hsub (l & -> & Hl). exists l. split; [done|].
  by eapply lookup_weaken.
Qed.

Lemma edge_list_obj_weaken σ0 σ l E :
  σ0 ⊆ σ → edge_list_obj σ0 l E → edge_list_obj σ l E.
Proof.
  intros Hsub (items & Hl & HE). exists items. split.
  - by eapply lookup_weaken.
  - eapply Forall2_impl; [done|]. intros ??. by apply edge_obj_weaken.
Qed.

Lemma adj_obj_weaken σ0 σ l adj : σ0 ⊆ σ → adj_obj σ0 l adj → adj_obj σ l adj.
Proof.
  intros Hsub (entries & Hl & Hent). exists entries. split.
  - by eapply lookup_weaken.
  - intros v. specialize (Hent v). destruct (entries !! v) as [lv|]; [|done].
    destruct Hent as (items & nbrs & Hlv & Hp & Hv). exists items, nbrs.
    split; [by eapply lookup_weaken|done].
Qed.

(** The rows of a result are no list of the DSU, and no list of rows. *)
Lemma edge_obj_not_ints σ l e (xs : list nat) :
  edge_obj σ (VRef l) e → σ !! l ≠ Some (OList (VInt <$> xs)).
Proof.
  intros (? & [= <-] & Hl) Hxs. rewrite Hl in Hxs.
  destruct xs as [|? [|? [|? ?]]]; done.
Qed.

Lemma edge_obj_not_rows σ l e m F :
  edge_obj σ (VRef l) e → edge_list_obj σ m F → l ≠ m.
Proof.
  intros (? & [= <-] & Hl) (rows & Hm & HF) ->. rewrite Hl in Hm.
  simplify_eq. inversion HF as [|???? (? & ? & _)]. done.
Qed.

Lemma edge_list_obj_dsu σ σ' self p r d m F :
  dsu_at σ self p r d → m ≠ p → m ≠ r → preserves {[p; r]} σ σ' →
  edge_list_obj σ m F → edge_list_obj σ' m F.
Proof.
  intros (_ & Hp & Hr & _) Hmp Hmr Hpres (rows & Hm & HF). exists rows. split.
  - apply Hpres; [set_solver|done].
  - eapply Forall2_impl; [done|]. intros item e He.
    pose proof He as (l & -> & Hl). exists l. split; [done|].
    apply Hpres; [|done].
    assert (l ≠ p) by (intros ->; by eapply edge_obj_not_ints).
    assert (l ≠ r) by (intros ->; by eapply edge_obj_not_ints).
    set_solver.
Qed.

Lemma edge_list_obj_append σ m rows F row node1 node2 weight :
  σ !! m = Some (OList rows) → Forall2 (edge_obj σ) rows F →
  σ !! row = None →
  edge_list_obj
    (<[m := OList (rows ++ [VRef row])]>
       (<[row := OList [VInt node1; VInt node2; VWeight weight]]> σ))
    m (F ++ [(node1, node2, weight)]).
Proof.
  intros Hm HF Hrow. assert (m ≠ row) by congruence.
  exists (rows ++ [VRef row]). split; [by rewrite lookup_insert_eq|].
  apply Forall2_app.
  - eapply Forall2_impl; [done|]. intros item e He.
    pose proof He as (l & -> & Hl). exists l. split; [done|].
    assert (l ≠ m) by (eapply edge_obj_not_rows; [done|by exists rows]).
    assert (l ≠ row) by congruence.
    by rewrite !lookup_insert_ne.
  - constructor; [|constructor]. exists row. split; [done|].
    rewrite lookup_insert_ne by done. by rewrite lookup_insert_eq.
Qed.

(** ** Kruskal *)

Lemma list_load_reads l σ : (list_load l σ).2 = σ.
Proof.
  unfold list_load, bind_py, py_load. simpl. by destruct (σ !! l) as [[]|].
Qed.

Lemma list_getitem_reads l i σ : (list_getitem l i σ).2 = σ.
Proof.
  unfold list_getitem, bind_py. pose proof (list_load_reads l σ) as H.
  destruct (list_load l σ) as [[items|e] σ1]; simpl in H; subst; [|done].
  by destruct (items !! i).
Qed.

Lemma py_key_reads item σ : (py_key item σ).2 = σ.
Proof.
  destruct item as [| |l|]; try done. unfold py_key, bind_py.
  pose proof (list_getitem_reads l 2 σ) as H.
  destruct (list_getitem l 2 σ) as [[[]|e] σ1]; by simpl in H; subst.
Qed.

Lemma py_keys_reads items σ : (py_keys items σ).2 = σ.
Proof.
  induction items as [|item rest IH]; [done|]. cbn [py_keys]. unfold bind_py.
  pose proof (py_key_reads item σ) as H.
  destruct (py_key item σ) as [[w|e] σ1]; simpl in H; subst; [|done].
  by destruct (py_keys rest σ) as [[ks|e] σ1]; simpl in IH; subst.
Qed.

Lemma py_unpack_edge_reads item σ : (py_unpack_edge item σ).2 = σ.
Proof.
  destruct item as [| |l|]; try done. unfold py_unpack_edge, bind_py.
  pose proof (list_load_reads l σ) as H.
  destruct (list_load l σ) as [[items|e] σ1]; simpl in H; subst; [|done].
  by repeat case_match.
Qed.

Lemma py_key_spec σ item e :
  edge_obj σ item e → py_key item σ = (Ok (e_weight e), σ).
Proof.
  intros (l & -> & Hl). unfold py_key, list_getitem.
  unfold bind_py at 1. unfold bind_py at 1.
  by rewrite (list_load_eq _ _ _ Hl).
Qed.

Lemma py_unpack_edge_spec σ item e :
  edge_obj σ item e → py_unpack_edge item σ = (Ok e, σ).
Proof.
  intros (l & -> & Hl). unfold py_unpack_edge.
  rewrite (bind_py_eq _ _ _ _ _ (list_load_eq _ _ _ Hl)).
  by destruct e as [[??]?].
Qed.

Definition keyed σ (ki : W * @pyval W) (e : edge) : Prop :=
  ki.1 = e_weight e ∧ edge_obj σ ki.2 e.

Lemma py_keys_spec σ items E :
  Forall2 (edge_obj σ) items E →
  ∃ ks, py_keys items σ = (Ok ks, σ) ∧ Forall2 (keyed σ) ks E.
Proof.
  induction 1 as [|item e items E He _ (ks & Hks & HR)]; cbn [py_keys].
  - by exists [].
  - rewrite (bind_py_eq _ _ _ _ _ (py_key_spec _ _ _ He)).
    rewrite (bind_py_eq _ _ _ _ _ Hks).
    exists ((e_weight e, item) :: ks). split; [done|]. by constructor.
Qed.

Lemma insert_by_key_spec σ x e ks E :
  keyed σ x e → Forall2 (keyed σ) ks E →
  Forall2 (keyed σ) (insert_by_key x ks) (insert_by_weight e E).
Proof.
  intros Hx. induction 1 as [|y e' ks E Hy HR IH]; simpl.
  - constructor; [done|constructor].
  - assert (y.1 = e_weight e' ∧ x.1 = e_weight e) as [-> ->]
      by (split; [apply Hy|apply Hx]).
    destruct (w_ltb (e_weight e') (e_weight e)).
    + constructor; [done|apply IH].
    + constructor; [done|]. by constructor.
Qed.

Lemma sorted_keys_spec σ ks E :
  Forall2 (keyed σ) ks E →
  Forall2 (keyed σ) (foldr insert_by_key [] ks) (sorted_by_weight E).
Proof.
  induction 1; simpl; [constructor|]. by apply insert_by_key_spec.
Qed.

(** [sorted] reads the list and its rows, and makes one new list. *)
Lemma py_sorted_run l σ :
  ∃ res σ', py_sorted l σ = (res, σ') ∧ σ ⊆ σ' ∧
    (∀ s, res = Ok s → σ !! s = None ∧ ∃ items, σ' !! s = Some (OList items)) ∧
    ∀ E, edge_list_obj σ l E →
      ∃ s items, res = Ok s ∧ σ' !! s = Some (OList items) ∧
        Forall2 (edge_obj σ) items (sorted_by_weight E).
Proof.
  unfold py_sorted. unfold bind_py at 1.
  pose proof (list_load_reads l σ) as Hl.
  destruct (list_load l σ) as [[items|e] σ1] eqn:Hload; simpl in Hl; subst.
  2:{ eexists _, _. split; [done|]. split; [done|]. split; [done|].
      intros E (items & Hitems & _).
      rewrite (list_load_eq _ _ _ Hitems) in Hload. done. }
  unfold bind_py. pose proof (py_keys_reads items σ) as Hk.
  destruct (py_keys items σ) as [[ks|e] σ1] eqn:Hkeys; simpl in Hk; subst.
  2:{ eexists _, _. split; [done|]. split; [done|]. split; [done|].
      intros E (items' & Hitems & HE).
      rewrite (list_load_eq _ _ _ Hitems) in Hload. simplify_eq.
      destruct (py_keys_spec _ _ _ HE) as (ks & Hks & _). congruence. }
  unfold py_alloc. eexists _, _. split; [done|]. split.
  { apply insert_subseteq, fresh_lookup. }
  split.
  { intros s [= <-]. split; [apply fresh_lookup|].
    eexists. by rewrite lookup_insert_eq. }
  intros E (items' & Hitems & HE).
  rewrite (list_load_eq _ _ _ Hitems) in Hload. simplify_eq.
  destruct (py_keys_spec _ _ _ HE) as (ks' & Hks & HR).
  rewrite Hks in Hkeys. simplify_eq.
  eexists _, _. split; [done|]. split; [by rewrite lookup_insert_eq|].
  apply Forall2_fmap_l.
  eapply Forall2_impl; [by apply sorted_keys_spec|]. by intros ?? [_ ?].
Qed.

(** [DSU(n)] makes three objects. *)
Lemma DSU_init_obj_run n σ :
  ∃ self p r σ' d,
    DSU_init_obj n σ = (Ok self, σ') ∧ DSU_init n = Ok d ∧ σ ⊆ σ' ∧
    dsu_at σ' self p r d ∧
    σ !! self = None ∧ σ !! p = None ∧ σ !! r = None.
Proof.
  unfold DSU_init_obj, bind_py, py_alloc, DSU_init.
  set (p := fresh (dom σ)).
  set (σ1 := <[p := _]> σ).
  set (r := fresh (dom σ1)).
  set (σ2 := <[r := _]> σ1).
  set (self := fresh (dom σ2)).
  assert (σ !! p = None) as Hp by apply fresh_lookup.
  assert (σ1 !! r = None) as Hr by apply fresh_lookup.
  assert (σ2 !! self = None) as Hs by apply fresh_lookup.
  assert (p ≠ r) by (intros Heq; rewrite <-Heq in Hr;
                     unfold σ1 in Hr; by rewrite lookup_insert_eq in Hr).
  assert (self ≠ r) by (intros Heq; rewrite Heq in Hs;
                        unfold σ2 in Hs; by rewrite lookup_insert_eq in Hs).
  assert (self ≠ p).
  { intros Heq. rewrite Heq in Hs. unfold σ2, σ1 in Hs.
    rewrite lookup_insert_ne in Hs by done.
    by rewrite lookup_insert_eq in Hs. }
  assert (σ ⊆ σ1) by (by apply insert_subseteq).
  assert (σ1 ⊆ σ2) by (by apply insert_subseteq).
  exists self, p, r, (<[self := OInstance p r]> σ2),
    (mkDSU (seq 0 (Z.to_nat n)) (replicate (Z.to_nat n) 1)).
  split; [done|]. split; [done|]. split.
  { etrans; [done|]. etrans; [done|]. by apply insert_subseteq. }
  split.
  { split_and!; try done.
    - by rewrite lookup_insert_eq.
    - unfold σ2, σ1. rewrite !lookup_insert_ne by done.
      by rewrite lookup_insert_eq.
    - unfold σ2. rewrite lookup_insert_ne by done.
      simpl. rewrite lookup_insert_eq. by rewrite fmap_replicate. }
  split_and!; [|done|].
  - eapply lookup_weaken_None; [done|]. by etrans.
  - by eapply lookup_weaken_None.
Qed.

Lemma kruskal_loop_obj_run σ0 V items self p r m σ d c F :
  σ0 ⊆ σ → σ0 !! p = None → σ0 !! r = None → σ0 !! m = None →
  dsu_at σ self p r d → edge_list_obj σ m F →
  m ≠ self → m ≠ p → m ≠ r →
  ∃ res σ', kruskal_loop_obj V items self m c σ = (res, σ') ∧ σ0 ⊆ σ' ∧
    ∀ es, Forall2 (edge_obj σ0) items es →
      match kruskal_loop V es d c F with
      | Ok (c', F') => res = Ok c' ∧ edge_list_obj σ' m F'
      | Raise e => res = Raise e
      end.
Proof.
  intros Hsub Hp0 Hr0 Hm0. revert σ d c F Hsub.
  induction items as [|item rest IH]; intros σ d c F Hsub Hd HF Hms Hmp Hmr.
  { eexists _, _. split; [done|]. split; [done|].
    intros es Hes. apply Forall2_nil_inv_l in Hes as ->. done. }
  cbn [kruskal_loop_obj]. unfold bind_py at 1.
  pose proof (py_unpack_edge_reads item σ) as Hreads.
  destruct (py_unpack_edge item σ) as [[[[node1 node2] weight]|e] σ1]
    eqn:Hunpack; simpl in Hreads; subst σ1.
  2:{ eexists _, _. split; [done|]. split; [done|].
      intros es Hes. apply Forall2_cons_inv_l in Hes as (e' & es' & He & _ & ->).
      apply (edge_obj_weaken _ σ) in He; [|done].
      rewrite (py_unpack_edge_spec _ _ _ He) in Hunpack. done. }
  assert (∀ σ', σ0 ⊆ σ' → ∀ es, Forall2 (edge_obj σ0) (item :: rest) es →
            ∃ es', es = (node1, node2, weight) :: es' ∧
                   Forall2 (edge_obj σ0) rest es') as Hcons.
  { intros σ' _ es Hes.
    apply Forall2_cons_inv_l in Hes as (e' & es' & He & Hes' & ->).
    exists es'. split; [|done]. f_equal.
    apply (edge_obj_weaken _ σ) in He; [|done].
    rewrite (py_unpack_edge_spec _ _ _ He) in Hunpack. by simplify_eq. }
  destruct (dsu_run_inv _ _ _ _ _ _ _ Hd (union_obj_run _ _ _ _ _ node1 node2 Hd))
    as (σ1 & Hrun & Hpres & Hd1).
  rewrite (bind_py_eq _ _ _ _ _ Hrun).
  assert (σ0 ⊆ σ1) as Hsub1.
  { eapply preserves_frame; [done| |done]. set_solver. }
  destruct (union d node1 node2) as [[d' merged]|e] eqn:Hunion.
  2:{ eexists _, _. split; [done|]. split; [done|].
      intros es Hes. destruct (Hcons _ Hsub es Hes) as (es' & -> & _).
      cbn [kruskal_loop]. by rewrite Hunion. }
  specialize (Hd1 _ _ eq_refl).
  pose proof (edge_list_obj_dsu _ _ _ _ _ _ _ _ Hd Hmp Hmr Hpres HF) as HF1.
  destruct merged.
  2:{ destruct (IH σ1 d' c F Hsub1 Hd1 HF1 Hms Hmp Hmr)
        as (res & σ' & Hloop & Hsub' & Href).
      exists res, σ'. split; [done|]. split; [done|].
      intros es Hes. destruct (Hcons _ Hsub es Hes) as (es' & -> & Hes').
      cbn [kruskal_loop]. rewrite Hunion. by apply Href. }
  unfold bind_py at 1. unfold py_alloc at 1.
  set (row := fresh (dom σ1)).
  assert (σ1 !! row = None) as Hrow by apply fresh_lookup.
  set (σ2 := <[row := _]> σ1).
  destruct HF1 as (rows & Hm1 & Hrows).
  assert (m ≠ row) as Hmrow by congruence.
  assert (σ2 !! m = Some (OList rows)) as Hm2.
  { unfold σ2. by rewrite lookup_insert_ne. }
  rewrite (bind_py_eq _ _ _ _ _ (list_append_eq _ _ _ (VRef row) Hm2)).
  set (σ3 := <[m := _]> σ2).
  assert (σ3 !! m = Some (OList (rows ++ [VRef row]))) as Hm3.
  { unfold σ3. by rewrite lookup_insert_eq. }
  rewrite (bind_py_eq _ _ _ _ _ (list_len_eq _ _ _ Hm3)).
  assert (length (rows ++ [VRef row]) =
          length (F ++ [(node1, node2, weight)])) as Hlen.
  { rewrite !length_app. by rewrite (Forall2_length _ _ _ Hrows). }
  rewrite Hlen.
  assert (edge_list_obj σ3 m (F ++ [(node1, node2, weight)])) as HF3.
  { by apply edge_list_obj_append. }
  assert (σ0 ⊆ σ3) as Hsub3.
  { apply map_subseteq_spec. intros l o Hl.
    assert (l ≠ m) by congruence.
    pose proof (lookup_weaken _ _ _ _ Hl Hsub1) as Hl1.
    assert (l ≠ row) by congruence.
    unfold σ3, σ2. by rewrite !lookup_insert_ne. }
  assert (dsu_at σ3 self p r d') as Hd3.
  { destruct Hd1 as (Hs1 & Hp1 & Hr1 & ? & ? & ?).
    assert (self ≠ row ∧ p ≠ row ∧ r ≠ row) as (? & ? & ?)
      by (split_and!; congruence).
    unfold σ3, σ2. split_and!; try done; by rewrite !lookup_insert_ne. }
  case_decide as Hbreak.
  { eexists _, _. split; [done|]. split; [done|].
    intros es Hes. destruct (Hcons _ Hsub es Hes) as (es' & -> & Hes').
    cbn [kruskal_loop]. rewrite Hunion. by rewrite decide_True. }
  destruct (IH σ3 d' (w_add c weight) (F ++ [(node1, node2, weight)])
               Hsub3 Hd3 HF3 Hms Hmp Hmr)
    as (res & σ' & Hloop & Hsub' & Href).
  exists res, σ'. split; [done|]. split; [done|].
  intros es Hes. destruct (Hcons _ Hsub es Hes) as (es' & -> & Hes').
  cbn [kruskal_loop]. rewrite Hunion. rewrite decide_False by done.
  by apply Href.
Qed.

(** [kruskals_mst] over the store: whatever the store holds and whatever
    the run comes to, the objects that were there are there as they were;
    on an edge list the run comes to what [kruskals_mst] comes to on its
    value, with the result in a list of its own. *)
Lemma kruskals_mst_obj_run V l σ :
  ∃ res σ', kruskals_mst_obj V l σ = (res, σ') ∧ σ ⊆ σ' ∧
    ∀ E, edge_list_obj σ l E →
      match kruskals_mst V E with
      | Ok (c, F) =>
          ∃ m, res = Ok (c, m) ∧ σ !! m = None ∧ edge_list_obj σ' m F
      | Raise e => res = Raise e
      end.
Proof.
  unfold kruskals_mst_obj.
  destruct (py_sorted_run l σ) as (rs & σ1 & Hsorted & Hsub1 & Hnew & Hspec).
  rewrite (bind_py_eq _ _ _ _ _ Hsorted).
  destruct rs as [s|e].
  2:{ eexists _, _. split; [done|]. split; [done|].
      intros E HE. by destruct (Hspec E HE) as (? & ? & ? & _). }
  destruct (Hnew s eq_refl) as (Hs0 & sitems & Hs1).
  destruct (DSU_init_obj_run V σ1)
    as (self & p & r & σ2 & d & Hinit & Hd & Hsub2 & Hd2 & Hself1 & Hp1 & Hr1).
  rewrite (bind_py_eq _ _ _ _ _ Hinit).
  unfold bind_py at 1. unfold py_alloc at 1.
  set (m := fresh (dom σ2)).
  assert (σ2 !! m = None) as Hm2 by apply fresh_lookup.
  set (σ3 := <[m := OList []]> σ2).
  assert (σ2 ⊆ σ3) as Hsub3 by (by apply insert_subseteq).
  assert (σ ⊆ σ3) as Hsub.
  { transitivity σ1; [done|]. by transitivity σ2. }
  assert (σ3 !! s = Some (OList sitems)) as Hs3.
  { eapply lookup_weaken; [done|]. by transitivity σ2. }
  rewrite (bind_py_eq _ _ _ _ _ (list_load_eq _ _ _ Hs3)).
  pose proof Hd2 as (Hself2 & Hp2 & Hr2 & ? & ? & ?).
  assert (m ≠ self ∧ m ≠ p ∧ m ≠ r) as (? & ? & ?)
    by (split_and!; congruence).
  assert (dsu_at σ3 self p r d) as Hd3.
  { split_and!; try done; by eapply lookup_weaken. }
  assert (edge_list_obj σ3 m []) as HF3.
  { exists []. split; [|constructor]. unfold σ3. by rewrite lookup_insert_eq. }
  assert (σ !! m = None) as Hm0.
  { eapply lookup_weaken_None; [done|]. by transitivity σ1. }
  destruct (kruskal_loop_obj_run σ V sitems self p r m σ3 d w_zero [])
    as (res & σ' & Hloop & Hsub' & Href); try done.
  all: try (by eapply lookup_weaken_None).
  rewrite (bind_py_eq _ _ _ _ _ Hloop).
  exists (match res with Ok c => Ok (c, m) | Raise e => Raise e end), σ'.
  split; [by destruct res|]. split; [done|].
  intros E HE. destruct (Hspec E HE) as (s' & items' & [= <-] & Hs' & Hitems).
  rewrite Hs1 in Hs'. simplify_eq.
  specialize (Href _ Hitems). unfold kruskals_mst. rewrite Hd. cbn [bind].
  destruct (kruskal_loop V (sorted_by_weight E) d w_zero []) as [[c F]|e].
  - destruct Href as (-> & HF). by exists m.
  - by subst.
Qed.

(** ** Prim *)

Lemma heap_load_eq σ h entries :
  σ !! h = Some (OHeap entries) → heap_load h σ = (Ok entries, σ).
Proof. intros Hh. unfold heap_load, bind_py, py_load. by rewrite Hh. Qed.

Lemma set_load_eq σ s elems :
  σ !! s = Some (OSet elems) → set_load s σ = (Ok elems, σ).
Proof. intros Hs. unfold set_load, bind_py, py_load. by rewrite Hs. Qed.

Lemma heappush_obj_eq σ h entries x :
  σ !! h = Some (OHeap entries) →
  heappush_obj h x σ = (Ok tt, <[h := OHeap (heappush entries x)]> σ).
Proof.
  intros Hh. unfold heappush_obj.
  by rewrite (bind_py_eq _ _ _ _ _ (heap_load_eq _ _ _ Hh)).
Qed.

Lemma heappop_obj_eq σ h x entries :
  σ !! h = Some (OHeap (x :: entries)) →
  heappop_obj h σ = (Ok x, <[h := OHeap entries]> σ).
Proof.
  intros Hh. unfold heappop_obj.
  by rewrite (bind_py_eq _ _ _ _ _ (heap_load_eq _ _ _ Hh)).
Qed.

Lemma set_add_eq σ s elems v :
  σ !! s = Some (OSet elems) →
  set_add s v σ = (Ok tt, <[s := OSet (elems ∪ {[v]})]> σ).
Proof.
  intros Hs. unfold set_add.
  by rewrite (bind_py_eq _ _ _ _ _ (set_load_eq _ _ _ Hs)).
Qed.

Lemma adj_get_obj_reads l v σ : (adj_get_obj l v σ).2 = σ.
Proof.
  unfold adj_get_obj, bind_py at 1, py_load.
  destruct (σ !! l) as [[| entries | | |]|]; try done.
  destruct (entries !! v) as [lv|]; [|done]. unfold bind_py.
  pose proof (list_load_reads lv σ) as H.
  destruct (list_load lv σ) as [[items|e] σ1]; simpl in H; subst; [|done].
  by destruct (py_pairs items).
Qed.

Lemma adj_get_obj_spec σ l adj v :
  adj_obj σ l adj → adj_get_obj l v σ = (Ok (adj_get adj v), σ).
Proof.
  intros (entries & Hl & Hent). unfold adj_get_obj, bind_py at 1, py_load, adj_get.
  rewrite Hl. specialize (Hent v). destruct (entries !! v) as [lv|].
  - destruct Hent as (items & nbrs & Hlv & Hp & ->).
    rewrite (bind_py_eq _ _ _ _ _ (list_load_eq _ _ _ Hlv)). by rewrite Hp.
  - by rewrite Hent.
Qed.

Lemma push_start_obj_eq σ h entries start_vertex nbrs :
  σ !! h = Some (OHeap entries) →
  push_start_obj h start_vertex nbrs σ =
    (Ok tt, <[h := OHeap (push_start start_vertex nbrs entries)]> σ).
Proof.
  revert σ entries. induction nbrs as [|[neighbor weight] rest IH];
    intros σ entries Hh.
  { simpl. unfold ret. by rewrite insert_id. }
  cbn [push_start_obj].
  rewrite (bind_py_eq _ _ _ _ _ (heappush_obj_eq _ _ _ _ Hh)).
  rewrite (IH _ (heappush entries (weight, start_vertex, neighbor)))
    by (by rewrite lookup_insert_eq).
  by rewrite insert_insert_eq.
Qed.

Lemma push_unvisited_obj_eq σ h vs entries visited v nbrs :
  σ !! h = Some (OHeap entries) → σ !! vs = Some (OSet visited) → h ≠ vs →
  push_unvisited_obj h vs v nbrs σ =
    (Ok tt, <[h := OHeap (push_unvisited v visited nbrs entries)]> σ).
Proof.
  intros Hh Hvs Hne. revert σ entries Hh Hvs.
  induction nbrs as [|[next_neighbor next_weight] rest IH];
    intros σ entries Hh Hvs.
  { simpl. unfold ret. by rewrite insert_id. }
  cbn [push_unvisited_obj].
  rewrite (bind_py_eq _ _ _ _ _ (set_load_eq _ _ _ Hvs)).
  unfold push_unvisited. cbn [foldl].
  fold (push_unvisited v visited rest).
  case_decide.
  - rewrite (bind_py_eq _ _ _ _ _ (heappush_obj_eq _ _ _ _ Hh)).
    rewrite (IH _ (heappush entries (next_weight, v, next_neighbor))).
    + by rewrite insert_insert_eq.
    + by rewrite lookup_insert_eq.
    + by rewrite lookup_insert_ne.
  - unfold bind_py at 1. unfold ret at 1. by apply IH.
Qed.

(** The queue at [h], the set at [vs] and the result at [m] hold the
    variables [s] of the loop. *)
Definition prim_at σ (h vs m : loc) (s : prim_state) : Prop :=
  σ !! h = Some (OHeap (st_heap s)) ∧
  σ !! vs = Some (OSet (st_visited s)) ∧
  edge_list_obj σ m (st_edges s) ∧
  h ≠ vs ∧ h ≠ m ∧ vs ≠ m.

Lemma edge_list_obj_insert σ m F l o :
  l ≠ m → (∀ items, σ !! l ≠ Some (OList items)) →
  edge_list_obj σ m F → edge_list_obj (<[l := o]> σ) m F.
Proof.
  intros Hlm Hl (rows & Hm & HF). exists rows. split.
  - by rewrite lookup_insert_ne.
  - eapply Forall2_impl; [done|]. intros item e (l' & -> & Hl').
    exists l'. split; [done|]. rewrite lookup_insert_ne; [done|].
    intros ->. by eapply Hl.
Qed.

Lemma prim_step_obj_run σ0 V adj_list h vs m σ s :
  σ0 ⊆ σ → σ0 !! h = None → σ0 !! vs = None → σ0 !! m = None →
  prim_at σ h vs m s →
  ∃ res σ',
    prim_step_obj V adj_list h vs m (st_cost s) σ = (res, σ') ∧ σ0 ⊆ σ' ∧
    match res with
    | Ok (Some c') =>
        ∃ s', prim_at σ' h vs m s' ∧ st_cost s' = c' ∧
              ∀ adj, adj_obj σ0 adj_list adj → prim_step V adj s = Some s'
    | Ok None =>
        σ' = σ ∧ ∀ adj, adj_obj σ0 adj_list adj → prim_step V adj s = None
    | Raise e => ∀ adj, ¬ adj_obj σ0 adj_list adj
    end.
Proof.
  intros Hsub Hh0 Hvs0 Hm0 (Hh & Hvs & HF & Hhvs & Hhm & Hvsm).
  unfold prim_step_obj, prim_step.
  rewrite (bind_py_eq _ _ _ _ _ (heap_load_eq _ _ _ Hh)).
  destruct (st_heap s) as [|[[weight u] v] min_heap'] eqn:Hheap.
  { eexists _, _. split; [done|]. split; [done|]. by split. }
  rewrite (bind_py_eq _ _ _ _ _ (set_load_eq _ _ _ Hvs)).
  case_decide as Hsize.
  2:{ eexists _, _. split; [done|]. split; [done|]. by split. }
  rewrite (bind_py_eq _ _ _ _ _ (heappop_obj_eq _ _ _ _ Hh)).
  set (σ1 := <[h := OHeap min_heap']> σ).
  assert (σ0 ⊆ σ1) as Hsub1 by (by apply insert_subseteq_r).
  assert (σ1 !! vs = Some (OSet (st_visited s))) as Hvs1.
  { unfold σ1. by rewrite lookup_insert_ne. }
  assert (edge_list_obj σ1 m (st_edges s)) as HF1.
  { apply edge_list_obj_insert; [done| |done]. intros items. by rewrite Hh. }
  rewrite (bind_py_eq _ _ _ _ _ (set_load_eq _ _ _ Hvs1)).
  case_decide as Hv.
  2:{ eexists _, _. split; [done|]. split; [done|].
      exists (mkPrim min_heap' (st_visited s) (st_cost s) (st_edges s)).
      split; [|done]. split_and!; try done.
      unfold σ1. by rewrite lookup_insert_eq. }
  rewrite (bind_py_eq _ _ _ _ _ (set_add_eq _ _ _ v Hvs1)).
  set (visited' := st_visited s ∪ {[v]}).
  set (σ2 := <[vs := OSet visited']> σ1).
  assert (σ0 ⊆ σ2) as Hsub2 by (by apply insert_subseteq_r).
  assert (edge_list_obj σ2 m (st_edges s)) as HF2.
  { apply edge_list_obj_insert; [done| |done]. intros items. by rewrite Hvs1. }
  unfold bind_py at 1. unfold py_alloc at 1.
  set (row := fresh (dom σ2)).
  assert (σ2 !! row = None) as Hrow by apply fresh_lookup.
  set (σ3 := <[row := _]> σ2).
  destruct HF2 as (rows & Hm2 & Hrows).
  assert (m ≠ row) as Hmrow by congruence.
  assert (σ3 !! m = Some (OList rows)) as Hm3.
  { unfold σ3. by rewrite lookup_insert_ne. }
  rewrite (bind_py_eq _ _ _ _ _ (list_append_eq _ _ _ (VRef row) Hm3)).
  set (σ4 := <[m := _]> σ3).
  assert (edge_list_obj σ4 m (st_edges s ++ [(u, v, weight)])) as HF4.
  { by apply edge_list_obj_append. }
  assert (σ0 ⊆ σ4) as Hsub4.
  { apply insert_subseteq_r; [done|]. apply insert_subseteq_r; [|done].
    by eapply lookup_weaken_None. }
  assert (σ2 !! h = Some (OHeap min_heap')) as Hh2.
  { unfold σ2, σ1. rewrite lookup_insert_ne by done.
    by rewrite lookup_insert_eq. }
  assert (σ2 !! vs = Some (OSet visited')) as Hvs2.
  { unfold σ2. by rewrite lookup_insert_eq. }
  assert (h ≠ row ∧ vs ≠ row) as (? & ?) by (split; congruence).
  assert (σ4 !! h = Some (OHeap min_heap')) as Hh4.
  { unfold σ4, σ3. by rewrite !lookup_insert_ne. }
  assert (σ4 !! vs = Some (OSet visited')) as Hvs4.
  { unfold σ4, σ3. by rewrite !lookup_insert_ne. }
  unfold bind_py at 1.
  pose proof (adj_get_obj_reads adj_list v σ4) as Hreads.
  destruct (adj_get_obj adj_list v σ4) as [[nbrs|e] σ5] eqn:Hget;
    simpl in Hreads; subst σ5.
  2:{ eexists _, _. split; [done|]. split; [done|]. intros adj Hadj.
      apply (adj_obj_weaken _ σ4) in Hadj; [|done].
      rewrite (adj_get_obj_spec _ _ _ v Hadj) in Hget. done. }
  rewrite (bind_py_eq _ _ _ _ _
             (push_unvisited_obj_eq _ _ _ _ _ v nbrs Hh4 Hvs4 Hhvs)).
  eexists _, _. split; [done|]. split; [by apply insert_subseteq_r|].
  exists (mkPrim (push_unvisited v visited' nbrs min_heap') visited'
                 (w_add (st_cost s) weight) (st_edges s ++ [(u, v, weight)])).
  split; [|split; [done|]].
  - split_and!; try done.
    + by rewrite lookup_insert_eq.
    + by rewrite lookup_insert_ne.
    + apply edge_list_obj_insert; [done| |done]. intros items. by rewrite Hh4.
  - intros adj Hadj. apply (adj_obj_weaken _ σ4) in Hadj; [|done].
    rewrite (adj_get_obj_spec _ _ _ v Hadj) in Hget. by simplify_eq.
Qed.

Lemma prim_loop_obj_run σ0 fuel V adj_list h vs m σ s :
  σ0 ⊆ σ → σ0 !! h = None → σ0 !! vs = None → σ0 !! m = None →
  prim_at σ h vs m s →
  ∃ res σ',
    prim_loop_obj fuel V adj_list h vs m (st_cost s) σ = (res, σ') ∧ σ0 ⊆ σ' ∧
    ∀ adj, adj_obj σ0 adj_list adj →
      match prim_loop fuel V adj s with
      | Some s' => res = Ok (Some (st_cost s')) ∧ edge_list_obj σ' m (st_edges s')
      | None => res = Ok None
      end.
Proof.
  intros Hsub Hh0 Hvs0 Hm0. revert σ s Hsub.
  induction fuel as [|fuel IH]; intros σ s Hsub Hat.
  { eexists _, _. split; [done|]. by split. }
  cbn [prim_loop_obj prim_loop].
  destruct (prim_step_obj_run σ0 V adj_list h vs m σ s Hsub Hh0 Hvs0 Hm0 Hat)
    as (rs & σ1 & Hstep & Hsub1 & Hrs).
  rewrite (bind_py_eq _ _ _ _ _ Hstep).
  destruct rs as [[c'|]|e].
  - destruct Hrs as (s' & Hat' & <- & Hpure).
    destruct (IH σ1 s' Hsub1 Hat') as (res & σ' & Hloop & Hsub' & Href).
    exists res, σ'. split; [done|]. split; [done|].
    intros adj Hadj. rewrite (Hpure adj Hadj). by apply Href.
  - destruct Hrs as (-> & Hpure).
    eexists _, _. split; [done|]. split; [done|].
    intros adj Hadj. rewrite (Hpure adj Hadj). split; [done|]. apply Hat.
  - eexists _, _. split; [done|]. split; [done|].
    intros adj Hadj. by destruct (Hrs adj).
Qed.

(** [prims_mst] over the store. *)
Lemma prims_mst_obj_run fuel V l σ :
  ∃ res σ', prims_mst_obj fuel V l σ = (res, σ') ∧ σ ⊆ σ' ∧
    ∀ adj, adj_obj σ l adj →
      match prims_mst_fuel fuel V adj with
      | Some (c, F) =>
          ∃ m, res = Ok (Some (c, m)) ∧ σ !! m = None ∧ edge_list_obj σ' m F
      | None => res = Ok None
      end.
Proof.
  unfold prims_mst_obj, prims_mst_fuel. case_decide as HV.
  { unfold bind_py, py_alloc, ret. eexists _, _. split; [done|].
    split; [apply insert_subseteq, fresh_lookup|].
    intros adj _. eexists. split; [done|]. split; [apply fresh_lookup|].
    exists []. split; [by rewrite lookup_insert_eq|constructor]. }
  unfold bind_py at 1. unfold py_alloc at 1.
  set (h := fresh (dom σ)).
  assert (σ !! h = None) as Hh0 by apply fresh_lookup.
  set (σ1 := <[h := OHeap []]> σ).
  unfold bind_py at 1. unfold py_alloc at 1.
  set (vs := fresh (dom σ1)).
  assert (σ1 !! vs = None) as Hvs1 by apply fresh_lookup.
  set (σ2 := <[vs := OSet ∅]> σ1).
  unfold bind_py at 1. unfold py_alloc at 1.
  set (m := fresh (dom σ2)).
  assert (σ2 !! m = None) as Hm2 by apply fresh_lookup.
  set (σ3 := <[m := OList []]> σ2).
  assert (σ ⊆ σ1) as Hsub1 by (by apply insert_subseteq).
  assert (σ1 ⊆ σ2) as Hsub2 by (by apply insert_subseteq).
  assert (σ2 ⊆ σ3) as Hsub3 by (by apply insert_subseteq).
  assert (σ1 !! h = Some (OHeap [])) as Hh1
    by (unfold σ1; by rewrite lookup_insert_eq).
  assert (σ2 !! vs = Some (OSet ∅)) as Hvs2
    by (unfold σ2; by rewrite lookup_insert_eq).
  assert (σ3 !! m = Some (OList [])) as Hm3
    by (unfold σ3; by rewrite lookup_insert_eq).
  assert (σ3 !! h = Some (OHeap [])) as Hh3.
  { eapply lookup_weaken; [done|]. by transitivity σ2. }
  assert (σ3 !! vs = Some (OSet ∅)) as Hvs3 by (by eapply lookup_weaken).
  assert (h ≠ vs ∧ h ≠ m ∧ vs ≠ m) as (Hhvs & Hhm & Hvsm).
  { split_and!; congruence. }
  assert (σ !! vs = None) as Hvs0 by (by eapply lookup_weaken_None).
  assert (σ !! m = None) as Hm0.
  { eapply lookup_weaken_None; [done|]. by transitivity σ1. }
  assert (σ ⊆ σ3) as Hsub.
  { transitivity σ1; [done|]. by transitivity σ2. }
  rewrite (bind_py_eq _ _ _ _ _ (set_add_eq _ _ _ 0 Hvs3)).
  rewrite (left_id_L ∅ (∪)).
  set (σ4 := <[vs := OSet {[0]}]> σ3).
  assert (σ ⊆ σ4) as Hsub4 by (by apply insert_subseteq_r).
  assert (σ4 !! h = Some (OHeap [])) as Hh4.
  { unfold σ4. by rewrite lookup_insert_ne. }
  unfold bind_py at 1.
  pose proof (adj_get_obj_reads l 0 σ4) as Hreads.
  destruct (adj_get_obj l 0 σ4) as [[nbrs|e] σ5] eqn:Hget;
    simpl in Hreads; subst σ5.
  2:{ eexists _, _. split; [done|]. split; [done|]. intros adj Hadj.
      apply (adj_obj_weaken _ σ4) in Hadj; [|done].
      rewrite (adj_get_obj_spec _ _ _ 0 Hadj) in Hget. done. }
  rewrite (bind_py_eq _ _ _ _ _ (push_start_obj_eq _ _ _ 0 nbrs Hh4)).
  set (σ5 := <[h := _]> σ4).
  set (s0 := mkPrim (push_start 0 nbrs []) {[0]} w_zero []).
  assert (prim_at σ5 h vs m s0) as Hat.
  { unfold σ5, σ4. split_and!; try done.
    - by rewrite lookup_insert_eq.
    - rewrite lookup_insert_ne by done. by rewrite lookup_insert_eq.
    - exists []. split; [|constructor]. by rewrite !lookup_insert_ne. }
  destruct (prim_loop_obj_run σ fuel V l h vs m σ5 s0) as
    (res & σ' & Hloop & Hsub' & Href); try done.
  { by apply insert_subseteq_r. }
  change w_zero with (st_cost s0) at 1.
  rewrite (bind_py_eq _ _ _ _ _ Hloop).
  exists (match res with
          | Ok (Some c) => Ok (Some (c, m))
          | Ok None => Ok None
          | Raise e => Raise e
          end), σ'.
  split; [by destruct res as [[]|]|]. split; [done|].
  intros adj Hadj. specialize (Href adj Hadj).
  pose proof Hadj as Hadj4. apply (adj_obj_weaken _ σ4) in Hadj4; [|done].
  rewrite (adj_get_obj_spec _ _ _ 0 Hadj4) in Hget. simplify_eq.
  change (prim_start adj) with s0.
  destruct (prim_loop fuel V adj s0) as [s'|].
  - destruct Href as (-> & HF). by exists m.
  - by subst.
Qed.

End Objects.

(** ** [kruskals_mst] of [index.py] over the store *)

Lemma index_comparator_reads a b (σ : gmap loc (@pyobj Z)) :
  (IndexObj.comparator a b σ).2 = σ.
Proof.
  unfold IndexObj.comparator, bind_py.
  pose proof (py_key_reads a σ) as Ha.
  destruct (py_key a σ) as [[x|e] σ1]; simpl in Ha; subst; [|done].
  pose proof (py_key_reads b σ) as Hb.
  by destruct (py_key b σ) as [[y|e] σ1]; simpl in Hb; subst.
Qed.

Lemma index_insert_by_cmp_reads x l (σ : gmap loc (@pyobj Z)) :
  (IndexObj.insert_by_cmp x l σ).2 = σ.
Proof.
  induction l as [|y l IH]; [done|]. cbn [IndexObj.insert_by_cmp].
  unfold bind_py at 1. pose proof (index_comparator_reads y x σ) as Hc.
  destruct (IndexObj.comparator y x σ) as [[c|e] σ1]; simpl in Hc; subst;
    [|done].
  destruct (c <? 0)%Z; [|done]. unfold bind_py.
  by destruct (IndexObj.insert_by_cmp x l σ) as [[l''|e] σ1]; simpl in IH; subst.
Qed.

Lemma index_sort_by_cmp_reads items (σ : gmap loc (@pyobj Z)) :
  (IndexObj.sort_by_cmp items σ).2 = σ.
Proof.
  induction items as [|x rest IH]; [done|]. cbn [IndexObj.sort_by_cmp].
  unfold bind_py.
  destruct (IndexObj.sort_by_cmp rest σ) as [[s|e] σ1]; simpl in IH; subst;
    [|done].
  apply index_insert_by_cmp_reads.
Qed.

Lemma index_comparator_spec (σ : gmap loc (@pyobj Z)) a b ea eb :
  edge_obj σ a ea → edge_obj σ b eb →
  IndexObj.comparator a b σ = (Ok (Index.comparator ea eb), σ).
Proof.
  intros Ha Hb. unfold IndexObj.comparator.
  rewrite (bind_py_eq _ _ _ _ _ (py_key_spec _ _ _ Ha)).
  by rewrite (bind_py_eq _ _ _ _ _ (py_key_spec _ _ _ Hb)).
Qed.

Lemma index_insert_by_cmp_spec (σ : gmap loc (@pyobj Z)) x e l E :
  edge_obj σ x e → Forall2 (edge_obj σ) l E →
  ∃ l', IndexObj.insert_by_cmp x l σ = (Ok l', σ) ∧
        Forall2 (edge_obj σ) l' (Index.insert_by_cmp e E).
Proof.
  intros Hx. induction 1 as [|y e' l E Hy HR (l' & Hl' & IH)];
    cbn [IndexObj.insert_by_cmp Index.insert_by_cmp].
  - eexists. split; [done|]. by repeat constructor.
  - rewrite (bind_py_eq _ _ _ _ _ (index_comparator_spec _ _ _ _ _ Hy Hx)).
    destruct (Index.comparator e' e <? 0)%Z.
    + rewrite (bind_py_eq _ _ _ _ _ Hl'). eexists. split; [done|].
      by constructor.
    + eexists. split; [done|]. by repeat constructor.
Qed.

Lemma index_sort_by_cmp_spec (σ : gmap loc (@pyobj Z)) items E :
  Forall2 (edge_obj σ) items E →
  ∃ s, IndexObj.sort_by_cmp items σ = (Ok s, σ) ∧
       Forall2 (edge_obj σ) s (Index.sorted_by_cmp E).
Proof.
  induction 1 as [|x e items E Hx HR (s & Hs & IH)];
    cbn [IndexObj.sort_by_cmp].
  - by exists [].
  - rewrite (bind_py_eq _ _ _ _ _ Hs). by apply index_insert_by_cmp_spec.
Qed.

Lemma index_py_sorted_run l (σ : gmap loc (@pyobj Z)) :
  ∃ res σ', IndexObj.py_sorted l σ = (res, σ') ∧ σ ⊆ σ' ∧
    (∀ s, res = Ok s → σ !! s = None ∧ ∃ items, σ' !! s = Some (OList items)) ∧
    ∀ E, edge_list_obj σ l E →
      ∃ s items, res = Ok s ∧ σ' !! s = Some (OList items) ∧
        Forall2 (edge_obj σ) items (Index.sorted_by_cmp E).
Proof.
  unfold IndexObj.py_sorted. unfold bind_py at 1.
  pose proof (list_load_reads l σ) as Hl.
  destruct (list_load l σ) as [[items|e] σ1] eqn:Hload; simpl in Hl; subst.
  2:{ eexists _, _. split; [done|]. split; [done|]. split; [done|].
      intros E (items & Hitems & _).
      rewrite (list_load_eq _ _ _ Hitems) in Hload. done. }
  unfold bind_py. pose proof (index_sort_by_cmp_reads items σ) as Hk.
  destruct (IndexObj.sort_by_cmp items σ) as [[s|e] σ1] eqn:Hsort;
    simpl in Hk; subst.
  2:{ eexists _, _. split; [done|]. split; [done|]. split; [done|].
      intros E (items' & Hitems & HE).
      rewrite (list_load_eq _ _ _ Hitems) in Hload. simplify_eq.
      destruct (index_sort_by_cmp_spec _ _ _ HE) as (s & Hs & _). congruence. }
  unfold py_alloc. eexists _, _. split; [done|]. split.
  { apply insert_subseteq, fresh_lookup. }
  split.
  { intros s' [= <-]. split; [apply fresh_lookup|].
    eexists. by rewrite lookup_insert_eq. }
  intros E (items' & Hitems & HE).
  rewrite (list_load_eq _ _ _ Hitems) in Hload. simplify_eq.
  destruct (index_sort_by_cmp_spec _ _ _ HE) as (s' & Hs & HR).
  rewrite Hs in Hsort. simplify_eq.
  eexists _, _. split; [done|]. split; [by rewrite lookup_insert_eq|done].
Qed.

Lemma index_kruskal_loop_obj_run (σ0 : gmap loc (@pyobj Z)) V items self p r
    σ d c k :
  σ0 ⊆ σ → σ0 !! p = None → σ0 !! r = None → dsu_at σ self p r d →
  ∃ res σ', IndexObj.kruskal_loop V items self c k σ = (res, σ') ∧ σ0 ⊆ σ' ∧
    ∀ es, Forall2 (edge_obj σ0) items es → res = Index.kruskal_loop V es d c k.
Proof.
  intros Hsub Hp0 Hr0 Hd. revert σ d c k Hsub Hd.
  induction items as [|item rest IH]; intros σ d c k Hsub Hd.
  { eexists _, _. split; [done|]. split; [done|].
    intros es Hes. apply Forall2_nil_inv_l in Hes as ->. done. }
  cbn [IndexObj.kruskal_loop]. unfold bind_py at 1.
  pose proof (py_unpack_edge_reads item σ) as Hreads.
  destruct (py_unpack_edge item σ) as [[[[node1 node2] weight]|e] σ1]
    eqn:Hunpack; simpl in Hreads; subst σ1.
  2:{ eexists _, _. split; [done|]. split; [done|].
      intros es Hes. apply Forall2_cons_inv_l in Hes as (e' & es' & He & _ & ->).
      apply (edge_obj_weaken _ σ) in He; [|done].
      rewrite (py_unpack_edge_spec _ _ _ He) in Hunpack. done. }
  assert (∀ es, Forall2 (edge_obj σ0) (item :: rest) es →
            ∃ es', es = (node1, node2, weight) :: es' ∧
                   Forall2 (edge_obj σ0) rest es') as Hcons.
  { intros es Hes.
    apply Forall2_cons_inv_l in Hes as (e' & es' & He & Hes' & ->).
    exists es'. split; [|done]. f_equal.
    apply (edge_obj_weaken _ σ) in He; [|done].
    rewrite (py_unpack_edge_spec _ _ _ He) in Hunpack. by simplify_eq. }
  assert (∀ σa σb, σ0 ⊆ σa → preserves {[p; r]} σa σb → σ0 ⊆ σb) as Hframe.
  { intros σa σb Ha Hab. eapply preserves_frame; [done| |done]. set_solver. }
  destruct (dsu_run_inv _ _ _ _ _ _ _ Hd (find_obj_run _ _ _ _ _ node1 Hd))
    as (σ1 & Hrun1 & Hpres1 & Hd1).
  rewrite (bind_py_eq _ _ _ _ _ Hrun1).
  pose proof (Hframe _ _ Hsub Hpres1) as Hsub1.
  destruct (find d node1) as [[d1 r1]|e] eqn:Hfind1.
  2:{ eexists _, _. split; [done|]. split; [done|].
      intros es Hes. destruct (Hcons es Hes) as (es' & -> & _).
      cbn [Index.kruskal_loop]. by rewrite Hfind1. }
  specialize (Hd1 _ _ eq_refl).
  destruct (dsu_run_inv _ _ _ _ _ _ _ Hd1 (find_obj_run _ _ _ _ _ node2 Hd1))
    as (σ2 & Hrun2 & Hpres2 & Hd2).
  rewrite (bind_py_eq _ _ _ _ _ Hrun2).
  pose proof (Hframe _ _ Hsub1 Hpres2) as Hsub2.
  destruct (find d1 node2) as [[d2 r2]|e] eqn:Hfind2.
  2:{ eexists _, _. split; [done|]. split; [done|].
      intros es Hes. destruct (Hcons es Hes) as (es' & -> & _).
      cbn [Index.kruskal_loop]. by rewrite Hfind1, Hfind2. }
  specialize (Hd2 _ _ eq_refl).
  case_decide as Hroots.
  2:{ destruct (IH σ2 d2 c k Hsub2 Hd2) as (res & σ' & Hloop & Hsub' & Href).
      exists res, σ'. split; [done|]. split; [done|].
      intros es Hes. destruct (Hcons es Hes) as (es' & -> & Hes').
      cbn [Index.kruskal_loop]. rewrite Hfind1, Hfind2.
      rewrite decide_False by (by intros ?). by apply Href. }
  destruct (dsu_run_inv _ _ _ _ _ _ _ Hd2
              (union_obj_run _ _ _ _ _ node1 node2 Hd2))
    as (σ3 & Hrun3 & Hpres3 & Hd3).
  rewrite (bind_py_eq _ _ _ _ _ Hrun3).
  pose proof (Hframe _ _ Hsub2 Hpres3) as Hsub3.
  destruct (union d2 node1 node2) as [[d3 merged]|e] eqn:Hunion.
  2:{ eexists _, _. split; [done|]. split; [done|].
      intros es Hes. destruct (Hcons es Hes) as (es' & -> & _).
      cbn [Index.kruskal_loop]. rewrite Hfind1, Hfind2.
      rewrite decide_True by done. by rewrite Hunion. }
  specialize (Hd3 _ _ eq_refl).
  case_decide as Hbreak.
  { eexists _, _. split; [done|]. split; [done|].
    intros es Hes. destruct (Hcons es Hes) as (es' & -> & _).
    cbn [Index.kruskal_loop]. rewrite Hfind1, Hfind2.
    rewrite decide_True by done. rewrite Hunion. by rewrite decide_True. }
  destruct (IH σ3 d3 (c + weight)%Z (S k) Hsub3 Hd3)
    as (res & σ' & Hloop & Hsub' & Href).
  exists res, σ'. split; [done|]. split; [done|].
  intros es Hes. destruct (Hcons es Hes) as (es' & -> & Hes').
  cbn [Index.kruskal_loop]. rewrite Hfind1, Hfind2.
  rewrite decide_True by done. rewrite Hunion. rewrite decide_False by done.
  by apply Href.
Qed.

Lemma index_kruskals_mst_obj_run V l (σ : gmap loc (@pyobj Z)) :
  ∃ res σ', IndexObj.kruskals_mst V l σ = (res, σ') ∧ σ ⊆ σ' ∧
    ∀ E, edge_list_obj σ l E → res = Index.kruskals_mst V E.
Proof.
  unfold IndexObj.kruskals_mst.
  destruct (index_py_sorted_run l σ)
    as (rs & σ1 & Hsorted & Hsub1 & Hnew & Hspec).
  rewrite (bind_py_eq _ _ _ _ _ Hsorted).
  destruct rs as [s|e].
  2:{ eexists _, _. split; [done|]. split; [done|].
      intros E HE. by destruct (Hspec E HE) as (? & ? & ? & _). }
  destruct (Hnew s eq_refl) as (Hs0 & sitems & Hs1).
  destruct (DSU_init_obj_run V σ1)
    as (self & p & r & σ2 & d & Hinit & Hd & Hsub2 & Hd2 & Hself1 & Hp1 & Hr1).
  rewrite (bind_py_eq _ _ _ _ _ Hinit).
  assert (σ2 !! s = Some (OList sitems)) as Hs2 by (by eapply lookup_weaken).
  rewrite (bind_py_eq _ _ _ _ _ (list_load_eq _ _ _ Hs2)).
  destruct (index_kruskal_loop_obj_run σ V sitems self p r σ2 d 0%Z 0)
    as (res & σ' & Hloop & Hsub' & Href); try done.
  { by transitivity σ1. }
  { by eapply lookup_weaken_None. }
  { by eapply lookup_weaken_None. }
  rewrite (bind_py_eq _ _ _ _ _ Hloop).
  eexists (match res with
           | Ok (mst_cost, mst_edge_count) =>
               Ok (mst_cost,
                   bool_decide ((Z.of_nat mst_edge_count < V - 1)%Z ∧ (V > 0)%Z))
           | Raise e => Raise e
           end), σ'.
  split; [by destruct res as [[]|]|]. split; [done|].
  intros E HE. destruct (Hspec E HE) as (s' & items' & [= <-] & Hs' & Hitems).
  rewrite Hs1 in Hs'. simplify_eq.
  rewrite (Href _ Hitems). unfold Index.kruskals_mst. by rewrite Hd.
Qed.

(** C7. Over any store of objects, and whatever they come to (a result or
    an exception), [kruskals_mst] and [prims_mst] of [final.py] and
    [kruskals_mst] of [index.py] leave every object that the store held
    as it was, although they create objects and write to them (the
    sorted list, the DSU lists, the queue, the set, the result): so the
    caller's [edge_list] and its rows, and [adj_list] and its lists, keep
    their items in their order.  Where the store holds an edge list,
    respectively an adjacency dictionary, at the reference passed, it
    holds the same one afterwards, and the run comes to what the engine
    comes to on those values, with the result in a list that was not in
    the store. *)
Theorem engines_leave_graph_data {W : Type} {WW : Weight W}
    (V : Z) (fuel : nat) (edge_list adj_list : loc) (σ : gmap loc pyobj) :
  (∀ l o, σ !! l = Some o →
          (kruskals_mst_obj V edge_list σ).2 !! l = Some o) ∧
  (∀ l o, σ !! l = Some o →
          (prims_mst_obj fuel V adj_list σ).2 !! l = Some o) ∧
  (∀ E, edge_list_obj σ edge_list E →
        edge_list_obj (kruskals_mst_obj V edge_list σ).2 edge_list E ∧
        match kruskals_mst V E with
        | Ok (c, F) =>
            ∃ m, (kruskals_mst_obj V edge_list σ).1 = Ok (c, m) ∧
                 σ !! m = None ∧
                 edge_list_obj (kruskals_mst_obj V edge_list σ).2 m F
        | Raise e => (kruskals_mst_obj V edge_list σ).1 = Raise e
        end) ∧
  (∀ adj, adj_obj σ adj_list adj →
        adj_obj (prims_mst_obj fuel V adj_list σ).2 adj_list adj ∧
        match prims_mst_fuel fuel V adj with
        | Some (c, F) =>
            ∃ m, (prims_mst_obj fuel V adj_list σ).1 = Ok (Some (c, m)) ∧
                 σ !! m = None ∧
                 edge_list_obj (prims_mst_obj fuel V adj_list σ).2 m F
        | None => (prims_mst_obj fuel V adj_list σ).1 = Ok None
        end) ∧
  (∀ σz : gmap loc (@pyobj Z),
     (∀ l o, σz !! l = Some o →
             (IndexObj.kruskals_mst V edge_list σz).2 !! l = Some o) ∧
     (∀ E, edge_list_obj σz edge_list E →
           edge_list_obj (IndexObj.kruskals_mst V edge_list σz).2 edge_list E ∧
           (IndexObj.kruskals_mst V edge_list σz).1 = Index.kruskals_mst V E)).
Proof.
  destruct (kruskals_mst_obj_run V edge_list σ) as (rk & σk & -> & Hk & Hrk).
  destruct (prims_mst_obj_run fuel V adj_list σ) as (rp & σp & -> & Hp & Hrp).
  cbn [fst snd]. split_and!.
  - intros l o Hl. by eapply lookup_weaken.
  - intros l o Hl. by eapply lookup_weaken.
  - intros E HE. split; [by eapply edge_list_obj_weaken|]. by apply Hrk.
  - intros adj Hadj. split; [by eapply adj_obj_weaken|]. by apply Hrp.
  - intros σz.
    destruct (index_kruskals_mst_obj_run V edge_list σz)
      as (ri & σi & -> & Hi & Hri).
    cbn [fst snd]. split.
    + intros l o Hl. by eapply lookup_weaken.
    + intros E HE. split; [by eapply edge_list_obj_weaken|]. by apply Hri.
Qed.

(** The scenario as objects: the edge list at reference 0 with its rows at
    1 to 5, the adjacency dictionary at 6 with its lists at 7 to 10. *)
Definition scenario_store : gmap loc (@pyobj Z) :=
  list_to_map
    [(0, OList [VRef 1; VRef 2; VRef 3; VRef 4; VRef 5]);
     (1, OList [VInt 0; VInt 1; VWeight 1%Z]);
     (2, OList [VInt 1; VInt 2; VWeight 2%Z]);
     (3, OList [VInt 2; VInt 3; VWeight 3%Z]);
     (4, OList [VInt 0; VInt 3; VWeight 10%Z]);
     (5, OList [VInt 0; VInt 2; VWeight 4%Z]);
     (6, ODict (list_to_map [(0, 7); (1, 8); (2, 9); (3, 10)]));
     (7, OList [VTuple 1 1%Z; VTuple 3 10%Z; VTuple 2 4%Z]);
     (8, OList [VTuple 0 1%Z; VTuple 2 2%Z]);
     (9, OList [VTuple 1 2%Z; VTuple 3 3%Z; VTuple 0 4%Z]);
     (10, OList [VTuple 2 3%Z; VTuple 0 10%Z])].

(** The store does not protect the graph data: an [append] through the
    reference of the edge list changes the list. *)
Lemma list_append_writes :
  (list_append 0 (VRef 1) scenario_store).2 !! 0 =
    Some (OList [VRef 1; VRef 2; VRef 3; VRef 4; VRef 5; VRef 1]).
Proof. by vm_compute. Qed.

(** On the scenario both engines make objects of their own and write to
    them: after Kruskal the store holds the parent list of the DSU, all of
    whose entries [find] and [union] have rewritten to 0, and the result
    in a new list of new rows. *)
Lemma scenario_store_run :
  (kruskals_mst_obj 4 0 scenario_store).1 = Ok (6%Z, 15) ∧
  (kruskals_mst_obj 4 0 scenario_store).2 !! 12 =
    Some (OList [VInt 0; VInt 0; VInt 0; VInt 0]) ∧
  (kruskals_mst_obj 4 0 scenario_store).2 !! 15 =
    Some (OList [VRef 16; VRef 17; VRef 18]) ∧
  (prims_mst_obj (prim_fuel scenario_adj) 4 6 scenario_store).1 =
    Ok (Some (6%Z, 13)) ∧
  (prims_mst_obj (prim_fuel scenario_adj) 4 6 scenario_store).2 !! 11 =
    Some (OHeap [(4%Z, 0, 2); (10%Z, 0, 3)]) ∧
  (IndexObj.kruskals_mst 4 0 scenario_store).1 = Ok (6%Z, false).
Proof. vm_compute. done. Qed.

Lemma engines_leave_graph_data_witness :
  (∀ l o, scenario_store !! l = Some o →
          (kruskals_mst_obj 4 0 scenario_store).2 !! l = Some o) ∧
  (∀ l o, scenario_store !! l = Some o →
          (prims_mst_obj (prim_fuel scenario_adj) 4 6 scenario_store).2 !! l =
          Some o) ∧
  (∀ E, edge_list_obj scenario_store 0 E →
        edge_list_obj (kruskals_mst_obj 4 0 scenario_store).2 0 E ∧
        match kruskals_mst 4 E with
        | Ok (c, F) =>
            ∃ m, (kruskals_mst_obj 4 0 scenario_store).1 = Ok (c, m) ∧
                 scenario_store !! m = None ∧
                 edge_list_obj (kruskals_mst_obj 4 0 scenario_store).2 m F
        | Raise e => (kruskals_mst_obj 4 0 scenario_store).1 = Raise e
        end) ∧
  (∀ adj, adj_obj scenario_store 6 adj →
        adj_obj (prims_mst_obj (prim_fuel scenario_adj) 4 6 scenario_store).2
                6 adj ∧
        match prims_mst_fuel (prim_fuel scenario_adj) 4 adj with
        | Some (c, F) =>
            ∃ m, (prims_mst_obj (prim_fuel scenario_adj) 4 6 scenario_store).1 =
                   Ok (Some (c, m)) ∧
                 scenario_store !! m = None ∧
                 edge_list_obj
                   (prims_mst_obj (prim_fuel scenario_adj) 4 6 scenario_store).2
                   m F
        | None =>
            (prims_mst_obj (prim_fuel scenario_adj) 4 6 scenario_store).1 =
            Ok None
        end) ∧
  (∀ σz : gmap loc (@pyobj Z),
     (∀ l o, σz !! l = Some o →
             (IndexObj.kruskals_mst 4 0 σz).2 !! l = Some o) ∧
     (∀ E, edge_list_obj σz 0 E →
           edge_list_obj (IndexObj.kruskals_mst 4 0 σz).2 0 E ∧
           (IndexObj.kruskals_mst 4 0 σz).1 = Index.kruskals_mst 4 E)).
Proof.
  apply (engines_leave_graph_data 4 (prim_fuel scenario_adj) 0 6 scenario_store).
Defined.

(** * More on the DSU: what [find] rewrites, what [union] merges, and the
      ranks *)

(** [on_path p i j]: [j] is met when the parent entries are followed from
    [i]. *)
Definition parent_step (p : list nat) (a b : nat) : Prop :=
  p !! a = Some b ∧ b ≠ a.

Definition on_path (p : list nat) : relation nat := rtc (parent_step p).

Lemma on_path_root p i j : p !! i = Some i → on_path p i j → j = i.
Proof.
  intros Hi Hp. destruct Hp as [|a b c [Hab Hne] _]; [done|]. congruence.
Qed.

Lemma on_path_step p i q j :
  p !! i = Some q → on_path p i j → j = i ∨ on_path p q j.
Proof.
  intros Hi Hp. destruct Hp as [|a b c [Hab Hne] Hbc]; [by left|].
  right. by simplify_eq.
Qed.

Lemma find_rec_path fuel d i d' r :
  find_rec fuel d i = Ok (d', r) →
  ∀ j, (on_path (parent d) i j → parent d' !! j = Some r) ∧
       (¬ on_path (parent d) i j → parent d' !! j = parent d !! j).
Proof.
  revert i d' r. induction fuel as [|fuel IH]; intros i d' r Hf j; [done|].
  simpl in Hf. unfold py_getitem in Hf at 1.
  destruct (parent d !! i) as [p|] eqn:Hi; [|done].
  case_decide as Hp.
  - simplify_eq. split; [|done]. by intros ->%on_path_root.
  - destruct (find_rec fuel d p) as [[d1 r1]|] eqn:Hrec; [|done].
    specialize (IH _ _ _ Hrec j) as [IHon IHoff].
    unfold py_setitem in Hf. case_decide as Hil; [|done].
    unfold py_getitem in Hf. simpl in Hf.
    rewrite list_lookup_insert_eq in Hf by done. simplify_eq/=.
    destruct (decide (j = i)) as [->|Hne].
    + rewrite list_lookup_insert_eq by done. split; [done|].
      intros Hoff. exfalso. apply Hoff. apply rtc_refl.
    + rewrite list_lookup_insert_ne by done. split.
      * intros [?|Hon]%(on_path_step _ _ p); [done|auto|done].
      * intros Hoff. apply IHoff. intros Hon. apply Hoff.
        eapply rtc_l; [|apply Hon]. by split.
Qed.

(** The ranks, read with 0 beyond the end of the array. *)
Definition rk (d : DSU) (i : nat) : nat := default 0 (rank d !! i).

(** What union by rank keeps: the rank grows along every parent entry, no
    rank is below 1, and the set of a root of rank [k] has at least
    [2 ^ (k - 1)] elements. *)
Record rank_ok (d : DSU) : Prop := {
  ro_up : ∀ i j, parent d !! i = Some j → j ≠ i → rk d i < rk d j;
  ro_pos : ∀ i, i < length (rank d) → 1 ≤ rk d i;
  ro_size : ∀ r, parent d !! r = Some r →
    ∃ L, NoDup L ∧ (∀ j, j ∈ L → root_of (parent d) j r) ∧
         2 ^ (rk d r - 1) ≤ length L
}.

Lemma chain_rank d k i r :
  rank_ok d → chain (parent d) k i r → rk d i + k ≤ rk d r.
Proof.
  intros Hok. induction 1 as [r Hr|k i j r Hi Hne Hc IH]; [lia|].
  pose proof (ro_up _ Hok i j Hi Hne). lia.
Qed.

Lemma rank_ok_init n : rank_ok (mkDSU (seq 0 n) (replicate n 1)).
Proof.
  split; unfold rk; simpl.
  - intros i j Hi Hne. apply lookup_seq in Hi as [-> _]. done.
  - intros i Hi. rewrite length_replicate in Hi.
    by rewrite lookup_replicate_2.
  - intros r Hr. apply lookup_seq in Hr as [_ Hr]. exists [r].
    split_and!; [apply NoDup_singleton| |].
    + intros j ->%list_elem_of_singleton. apply root_of_self.
      by apply lookup_seq_lt.
    + by rewrite lookup_replicate_2.
Qed.

Lemma rank_ok_find d i d' r :
  find d i = Ok (d', r) → rank_ok d → rank_ok d'.
Proof.
  intros (Hir & Hrk & Hlen & Hrr & _ & Hpres & Hent)%find_Ok Hok.
  assert (Hrk' : ∀ j, rk d' j = rk d j) by (intros j; unfold rk; by rewrite Hrk).
  split.
  - intros a b Hab Hne. rewrite !Hrk'. destruct (Hent a) as [Ha|Ha].
    + rewrite Hab in Ha. by apply (ro_up _ Hok).
    + rewrite Hab in Ha. simplify_eq.
      assert (root_of (parent d) a r) as [k Hk].
      { apply Hpres. eapply root_of_step; [done|]. by apply root_of_self. }
      pose proof (chain_rank _ _ _ _ Hok Hk).
      destruct Hk; [done|lia].
  - intros j Hj. rewrite Hrk'. apply (ro_pos _ Hok). by rewrite <-Hrk.
  - intros r' Hr'. rewrite Hrk'.
    destruct (ro_size _ Hok r') as (L & HND & HL & Hsize).
    { apply root_of_self_inv, Hpres. by apply root_of_self. }
    exists L. split_and!; [done| |done]. intros j Hj. apply Hpres. auto.
Qed.

(** Linking the root [lo] under the root [hi], with the rank of [hi]
    above that of [lo], or raised by one when they are equal. *)
Lemma rank_ok_link p rkl rkl' lo hi :
  rank_ok (mkDSU p rkl) →
  p !! lo = Some lo → p !! hi = Some hi → lo ≠ hi →
  (rkl' = rkl ∧ default 0 (rkl !! lo) < default 0 (rkl !! hi)) ∨
  (rkl' = <[hi := default 0 (rkl !! hi) + 1]> rkl ∧
   default 0 (rkl !! lo) = default 0 (rkl !! hi) ∧ hi < length rkl) →
  rank_ok (mkDSU (<[lo:=hi]> p) rkl').
Proof.
  intros [Hup Hpos Hsize] Hlo Hhi Hne Hcase. unfold rk in *. simpl in *.
  assert (Hlol : lo < length p) by eauto using lookup_lt_Some.
  set (k := default 0 (rkl !! hi)) in *.
  assert (Hrk' : ∀ i, i ≠ hi → default 0 (rkl' !! i) = default 0 (rkl !! i)).
  { intros i Hi. destruct Hcase as [[-> _]|(-> & _)]; [done|].
    by rewrite list_lookup_insert_ne. }
  assert (Hhi' : k ≤ default 0 (rkl' !! hi)).
  { destruct Hcase as [[-> _]|(-> & _ & Hl)]; [done|].
    rewrite list_lookup_insert_eq by done. simpl. lia. }
  assert (Hmono : ∀ i, default 0 (rkl !! i) ≤ default 0 (rkl' !! i)).
  { intros i. destruct (decide (i = hi)) as [->|Hi]; [done|]. by rewrite Hrk'. }
  split; unfold rk; simpl.
  - intros i j Hij Hji. destruct (decide (i = lo)) as [->|Hi].
    + rewrite list_lookup_insert_eq in Hij by done. simplify_eq.
      rewrite Hrk' by done.
      destruct Hcase as [[-> ?]|(-> & Heq & Hl)]; [done|].
      rewrite list_lookup_insert_eq by done. simpl. fold k. lia.
    + rewrite list_lookup_insert_ne in Hij by done.
      assert (i ≠ hi) by (intros ->; congruence).
      rewrite Hrk' by done. specialize (Hup i j Hij Hji).
      specialize (Hmono j). lia.
  - intros i Hi.
    assert (i < length rkl) as Hi'.
    { destruct Hcase as [[-> _]|(-> & _)]; [done|]. by rewrite length_insert in Hi. }
    specialize (Hpos i Hi'). specialize (Hmono i). lia.
  - intros r Hr.
    assert (r ≠ lo) as Hrlo.
    { intros ->. rewrite list_lookup_insert_eq in Hr by done. congruence. }
    rewrite list_lookup_insert_ne in Hr by done.
    destruct (Hsize r Hr) as (L & HND & HL & HLsize).
    assert (HL' : ∀ j, j ∈ L → root_of (<[lo:=hi]> p) j r).
    { intros j Hj. apply root_of_link; [done..|]. left. auto. }
    destruct (decide (r = hi)) as [->|Hrhi].
    + destruct Hcase as [[-> _]|(-> & Heq & Hl)].
      * exists L. by split_and!.
      * destruct (Hsize lo Hlo) as (L0 & HND0 & HL0 & HL0size).
        exists (L0 ++ L). split_and!.
        -- apply NoDup_app. split_and!; [done| |done].
           intros j Hj0 Hj. apply Hne. eapply root_of_fun; eauto.
        -- intros j [Hj|Hj]%elem_of_app; [|auto].
           apply root_of_link; [done..|]. right. auto.
        -- rewrite list_lookup_insert_eq by done. simpl.
           rewrite length_app. fold k in HLsize. rewrite Heq in HL0size.
           fold k in HL0size. specialize (Hpos hi Hl). fold k in Hpos.
           replace (k + 1 - 1) with (S (k - 1)) by lia.
           rewrite Nat.pow_succ_r'. lia.
    + exists L. split_and!; [done..|]. by rewrite Hrk'.
Qed.

Lemma rank_ok_union d x y d' b :
  union d x y = Ok (d', b) → rank_ok d → rank_ok d'.
Proof.
  unfold union. intros Hu Hok.
  destruct (find d x) as [[d1 rx]|] eqn:Hfx; [|done]. cbn [bind] in Hu.
  destruct (find d1 y) as [[d2 ry]|] eqn:Hfy; [|done]. cbn [bind] in Hu.
  pose proof (rank_ok_find _ _ _ _ Hfy (rank_ok_find _ _ _ _ Hfx Hok)) as Hok2.
  apply find_Ok in Hfx as (_ & _ & _ & Hrx1 & _ & _ & _).
  apply find_Ok in Hfy as (_ & _ & _ & Hry2 & _ & Hpres2 & _).
  assert (Hrx2 : parent d2 !! rx = Some rx).
  { apply root_of_self_inv, Hpres2. by apply root_of_self. }
  case_decide as Hne; [|by simplify_eq].
  unfold py_getitem in Hu.
  destruct (rank d2 !! rx) as [kx|] eqn:Hkx; [|done]. cbn [bind] in Hu.
  destruct (rank d2 !! ry) as [ky|] eqn:Hky; [|done]. cbn [bind] in Hu.
  assert (Hd2 : d2 = mkDSU (parent d2) (rank d2)) by by destruct d2.
  rewrite Hd2 in Hok2. unfold py_setitem in Hu.
  repeat case_decide; try done; cbn [bind] in Hu; simplify_eq.
  - apply (rank_ok_link _ (rank d2)); try done. left. by rewrite Hkx, Hky.
  - apply (rank_ok_link _ (rank d2)); try done. left. by rewrite Hkx, Hky.
  - apply (rank_ok_link _ (rank d2)); try done. right.
    rewrite Hkx, Hky. simpl. split_and!; [done|lia|done].
Qed.

Lemma reachable_rank_ok n d : reachable n d → rank_ok d.
Proof.
  induction 1 as [d Hd|d i d' r _ IH Hi Hf|d x y d' b _ IH Hx Hy Hu].
  - unfold DSU_init in Hd. simplify_eq. apply rank_ok_init.
  - by eapply rank_ok_find.
  - by eapply rank_ok_union.
Qed.

Lemma rank_ok_set_bound n d r :
  rank_ok d → length (parent d) = n → parent d !! r = Some r →
  2 ^ (rk d r - 1) ≤ n.
Proof.
  intros Hok Hlen Hr. destruct (ro_size _ Hok r Hr) as (L & HND & HL & Hsize).
  assert (L ⊆+ seq 0 n) as Hsub.
  { apply NoDup_submseteq; [done|]. intros j Hj%HL%root_of_lt.
    apply elem_of_seq. lia. }
  apply submseteq_length in Hsub. rewrite length_seq in Hsub. lia.
Qed.

(** * Forests: what the engines return on any graph *)

Section Forest.
Context {W : Type} {WW : Weight W}.
Implicit Types (F E : list (@edge W)) (e : @edge W) (adj : adjacency W).

(** No edge of [F] closes a cycle: the other edges leave its end points
    apart. *)
Definition forest F : Prop :=
  ∀ F1 e F2, F = F1 ++ e :: F2 → ¬ conn (F1 ++ F2) (e_src e) (e_dst e).

Lemma forest_nil : forest [].
Proof. by intros [|??] ?? ?. Qed.

Lemma forest_snoc F e :
  forest F → ¬ conn F (e_src e) (e_dst e) → forest (F ++ [e]).
Proof.
  intros HF Hne F1 e' F2 Heq. destruct F2 as [|z F2 _] using rev_ind.
  - apply app_inj_tail in Heq as [<- <-]. by rewrite app_nil_r.
  - rewrite app_comm_cons, app_assoc in Heq.
    apply app_inj_tail in Heq as [-> <-].
    assert (Hm : ∀ a b, conn (F1 ++ F2) a b → conn (F1 ++ e' :: F2) a b).
    { intros a b. apply conn_mono. intros e0. rewrite !elem_of_app, elem_of_cons.
      tauto. }
    assert (He' : conn (F1 ++ e' :: F2) (e_src e') (e_dst e')).
    { eapply conn_edge; [|apply joins_self]. apply elem_of_app. right. by left. }
    rewrite app_assoc. intros [Hc|[[H1 H2]|[H1 H2]]]%conn_snoc.
    + by apply (HF F1 e' F2).
    + apply Hne. eapply conn_trans; [apply conn_sym, Hm, H1|].
      eapply conn_trans; [apply He'|]. apply conn_sym, Hm, H2.
    + apply Hne. eapply conn_trans; [apply Hm, H2|].
      eapply conn_trans; [apply conn_sym, He'|]. apply Hm, H1.
Qed.

(** A walk over edges that stay inside a set does not leave it. *)
Lemma conn_inside F (S : gset nat) a b :
  (∀ e, e ∈ F → e_src e ∈ S ∧ e_dst e ∈ S) → conn F a b → a ∈ S → b ∈ S.
Proof.
  intros HF. induction 1 as [|a b c (e & He & Hj) _ IH]; [done|].
  intros Ha. apply IH. destruct (HF e He), Hj as [[<- <-]|[<- <-]]; done.
Qed.

Lemma kruskal_shape_conn n E processed d F :
  kruskal_shape n E processed d F →
  (length F + 1 = n ∨ ∀ e, e ∈ E → e ∈ processed) →
  ∀ x y, x < n → y < n → conn F x y ↔ conn E x y.
Proof.
  intros [Hok Hsets Hdone Hsub Hgraph HND Hcount] Hexit x y Hx Hy. split.
  - apply conn_mono. auto.
  - destruct Hexit as [Hfull|Hall].
    + intros _. apply Hsets; [done..|].
      apply (roots_one_same _ n); [apply Hok|lia|done..].
    + apply conn_subst. intros e a b He Hj. apply Hall, Hdone in He.
      destruct Hj as [[<- <-]|[<- <-]]; auto using conn_sym.
Qed.

Lemma kruskals_mst_forest n E :
  endpoints_below n E →
  ∃ c F, kruskals_mst (Z.of_nat n) E = Ok (c, F) ∧
    (∀ e, e ∈ F → e ∈ E) ∧ NoDup F ∧ forest F ∧
    (∀ x y, x < n → y < n → conn F x y ↔ conn E x y).
Proof.
  intros Hn. unfold kruskals_mst, DSU_init. cbn [bind]. rewrite Nat2Z.id.
  destruct (kruskal_loop_shape n E (sorted_by_weight E) forest Hn) with
      (es := sorted_by_weight E) (processed := @nil (@edge W))
      (d := mkDSU (seq 0 n) (replicate n 1)) (F := @nil (@edge W))
      (c := w_zero)
    as (c & F & d' & processed' & Hrun & Hc & Hinv & HF & Hexit);
    [| |done|apply kruskal_shape_init|apply forest_nil|done|].
  - intros e. by rewrite sorted_by_weight_perm.
  - intros processed x y w es d F _ _ _ _ Hnxy HF. by apply forest_snoc.
  - exists c, F. split; [done|]. split_and!; [| |done|].
    + intros e He. eapply ks_graph; [done|]. eapply ks_sub; eauto.
    + eapply ks_nodup; eauto.
    + by eapply kruskal_shape_conn.
Qed.

Lemma prim_forest_step n E adj s s' :
  prim_reach n E adj s → forest (st_edges s) →
  prim_step (Z.of_nat n) adj s = Some s' → forest (st_edges s').
Proof.
  intros Hreach HF Hstep. unfold prim_step in Hstep.
  destruct (st_heap s) as [|[[w u] v] h'] eqn:Hheap; [done|].
  case_decide; [|done]. case_decide as Hv; simplify_eq; [|done].
  cbn [st_edges]. apply forest_snoc; [done|]. unfold e_src, e_dst. simpl.
  intros Hc. apply Hv.
  apply (conn_inside (st_edges s) (st_visited s) u v); [|done|].
  - intros e He. by destruct (pr_edges _ _ _ _ Hreach e He) as (_ & ? & ?).
  - apply (pr_heap_ok _ _ _ _ Hreach w u v). rewrite Hheap. by left.
Qed.

Lemma prims_mst_component n E adj :
  endpoints_below n E → adj_rep E adj → 0 < n →
  ∃ c F, prims_mst (Z.of_nat n) adj = Some (c, F) ∧
    (∀ e, e ∈ F → in_graph E e) ∧ forest F ∧
    (∀ x, x ∈ visited_after F ↔ conn E 0 x) ∧
    (∀ x, conn E 0 x → conn F 0 x) ∧
    size (visited_after F) = S (length F).
Proof.
  intros Hbelow Hrep Hn. unfold prims_mst, prims_mst_fuel.
  rewrite decide_False by lia.
  destruct (prim_loop_total (Z.of_nat n) adj (prim_fuel adj) (prim_start adj)
              (prim_start_measure adj)) as [s Hrun].
  rewrite Hrun.
  destruct (prim_loop_inv
              (λ s, prim_reach n E adj s ∧ prim_shape (Z.of_nat n) s ∧
                    forest (st_edges s))
              (Z.of_nat n) adj) with (fuel := prim_fuel adj)
              (s := prim_start adj) (s' := s) as [(Hinv & Hshape & HF) Hexit];
    [|split_and!|done|].
  - intros s1 s2 (? & ? & ?) Hstep. split_and!;
      [by eapply prim_reach_step|by eapply prim_shape_step
      |by eapply prim_forest_step].
  - by apply prim_reach_start.
  - apply prim_shape_start.
  - apply forest_nil.
  - pose proof (prim_shape_size _ _ Hshape) as Hsize.
    pose proof (ps_visited _ _ Hshape) as Hvis.
    assert (H0 : 0 ∈ st_visited s).
    { rewrite Hvis. unfold visited_after. set_solver. }
    assert (HFE : ∀ x y, conn (st_edges s) x y → conn E x y).
    { intros x y. apply conn_subst. intros e a b He Hj.
      destruct (pr_edges _ _ _ _ Hinv e He) as (HeE & _).
      by eapply in_graph_conn. }
    assert (Hall : ∀ x, conn E 0 x → x ∈ st_visited s).
    { intros x Hx. apply prim_step_None in Hexit as [Hheap|Hge].
      - by eapply prim_reach_closed.
      - assert (st_visited s ⊆ set_seq 0 n) as Hsub.
        { intros v Hv. apply elem_of_set_seq. split; [lia|].
          simpl. by apply (pr_below _ _ _ _ Hinv). }
        assert (st_visited s = set_seq 0 n) as ->.
        { apply set_subseteq_size_eq; [done|]. rewrite size_set_seq. lia. }
        apply elem_of_set_seq. split; [lia|]. simpl.
        by eapply conn_below. }
    exists (st_cost s), (st_edges s). split; [done|]. split_and!.
    + intros e He. by destruct (pr_edges _ _ _ _ Hinv e He).
    + done.
    + intros x. rewrite <-Hvis. split; [|auto].
      intros Hx. apply HFE. by apply (pr_conn _ _ _ _ Hinv).
    + intros x Hx. apply (pr_conn _ _ _ _ Hinv). auto.
    + by rewrite <-Hvis.
Qed.

End Forest.

(** * End points out of range *)

Lemma find_out_of_range d i :
  length (parent d) ≤ i → find d i = Raise IndexError.
Proof.
  intros Hi. unfold find. simpl. unfold py_getitem.
  by rewrite lookup_ge_None_2.
Qed.

Lemma union_out_of_range n d x y :
  dsu_ok n d → ¬ (x < n ∧ y < n) → union d x y = Raise IndexError.
Proof.
  intros Hok Hout. unfold union. destruct (decide (x < n)) as [Hx|Hx].
  - destruct (find_spec n d x Hok Hx) as (d1 & rx & -> & _ & _ & Hok1 & _).
    cbn [bind]. rewrite find_out_of_range; [done|].
    destruct Hok1 as [-> _]. lia.
  - rewrite find_out_of_range; [done|]. destruct Hok as [-> _]. lia.
Qed.

Lemma kruskal_loop_raise {W : Type} {WW : Weight W} n V
    (es : list (@edge W)) d c F x :
  dsu_ok n d → kruskal_loop V es d c F = Raise x →
  x = IndexError ∧ ∃ e, e ∈ es ∧ ¬ (e_src e < n ∧ e_dst e < n).
Proof.
  revert d c F. induction es as [|[[a b] w] es IH]; intros d c F Hok Hrun;
    [done|].
  simpl in Hrun. destruct (decide (a < n ∧ b < n)) as [[Ha Hb]|Hout].
  - destruct (union_spec n d a b Hok Ha Hb) as (d' & bb & Hu & Hpost).
    rewrite Hu in Hrun. pose proof Hpost as (_ & _ & _ & _ & Hok' & _).
    assert (kruskal_loop V es d' (if bb then w_add c w else c)
              (if bb then F ++ [(a, b, w)] else F) = Raise x) as Hrun'.
    { destruct bb; [|done]. by case_decide. }
    apply IH in Hrun' as [-> (e & He & Hne)]; [|done].
    split; [done|]. exists e. split; [by right|done].
  - rewrite (union_out_of_range n) in Hrun by done. simplify_eq.
    split; [done|]. exists (a, b, w). split; [by left|done].
Qed.

(** The loop of [index.py] and the loop of [final.py] come to the same,
    also when an end point is out of range. *)
Lemma index_loop_agrees_all n V es :
  ∀ df di c F,
    dsu_ok n df → dsu_ok n di →
    (∀ i j, i < n → j < n →
       same_set (parent df) i j ↔ same_set (parent di) i j) →
    match kruskal_loop V es df c F with
    | Ok (c', F') =>
        Index.kruskal_loop V es di c (length F) = Ok (c', length F')
    | Raise x => Index.kruskal_loop V es di c (length F) = Raise x
    end.
Proof.
  induction es as [|[[x y] w] es IH]; intros df di c F Hokf Hoki Hsame; [done|].
  cbn [kruskal_loop Index.kruskal_loop].
  destruct (decide (x < n ∧ y < n)) as [[Hx Hy]|Hout].
  - destruct (union_spec n df x y Hokf Hx Hy) as (df' & b & Hu & Hpost).
    pose proof Hpost as (_ & _ & _ & _ & Hokf' & _).
    destruct (union_post_same_set n df x y df' b Hokf Hpost) as [Hb Hsetf].
    destruct (find_spec n di x Hoki Hx)
      as (d1 & r1 & Hf1 & Hr1 & _ & Hok1 & _ & _ & Hpres1).
    destruct (find_spec n d1 y Hok1 Hy)
      as (d2 & r2 & Hf2 & Hr2 & _ & Hok2 & _ & _ & Hpres2).
    apply Hpres1 in Hr2.
    assert (Hpres : ∀ i j, same_set (parent d2) i j ↔ same_set (parent di) i j).
    { intros i j. rewrite (same_set_preserved _ _ _ _ Hpres2).
      apply (same_set_preserved _ _ _ _ Hpres1). }
    assert (Hdec : b = true ↔ r1 ≠ r2).
    { rewrite Hb, (Hsame x y Hx Hy). by rewrite (same_set_roots _ _ _ _ _ Hr1 Hr2). }
    rewrite Hu, Hf1, Hf2. destruct b.
    + rewrite (decide_True (P:=r1 ≠ r2)) by by apply Hdec.
      destruct (union_spec n d2 x y Hok2 Hx Hy) as (d3 & b3 & Hu3 & Hpost3).
      pose proof Hpost3 as (_ & _ & _ & _ & Hok3 & _).
      destruct (union_post_same_set n d2 x y d3 b3 Hok2 Hpost3) as [Hb3 Hset3].
      assert (b3 = true) as ->.
      { apply Hb3. rewrite Hpres, <-(Hsame x y Hx Hy). by apply Hb. }
      rewrite Hu3. rewrite length_app. simpl.
      replace (length F + 1) with (S (length F)) by lia.
      case_decide.
      * rewrite length_app. simpl.
        by replace (length F + 1) with (S (length F)) by lia.
      * specialize (IH df' d3 (c + w)%Z (F ++ [(x, y, w)]) Hokf' Hok3).
        rewrite length_app in IH. simpl in IH.
        replace (length F + 1) with (S (length F)) in IH by lia.
        apply IH. intros i j Hi Hj. rewrite Hsetf, Hset3 by done.
        rewrite !Hpres, !(Hsame i j), !(Hsame i x), !(Hsame y j),
          !(Hsame i y), !(Hsame x j) by done. done.
    + rewrite (decide_False (P:=r1 ≠ r2)); [|intros Hne; by apply Hdec in Hne].
      apply IH; try done. intros i j Hi Hj. rewrite Hsetf, Hpres by done.
      rewrite <-(Hsame i j) by done. split; [by intros [?|[? _]]|auto].
  - rewrite (union_out_of_range n) by done.
    destruct (decide (x < n)) as [Hx|Hx].
    + destruct (find_spec n di x Hoki Hx) as (d1 & r1 & -> & _ & _ & Hok1 & _).
      rewrite find_out_of_range; [done|]. destruct Hok1 as [-> _]. lia.
    + rewrite find_out_of_range; [done|]. destruct Hoki as [-> _]. lia.
Qed.

Lemma index_kruskals_mst_agrees (V : Z) (E : list (@edge Z)) :
  match kruskals_mst V E with
  | Ok (c, F) =>
      Index.kruskals_mst V E =
        Ok (c, bool_decide ((Z.of_nat (length F) < V - 1)%Z ∧ (V > 0)%Z))
  | Raise x => Index.kruskals_mst V E = Raise x
  end.
Proof.
  unfold kruskals_mst, Index.kruskals_mst, DSU_init. cbn [bind].
  rewrite index_sorted_by_cmp_eq.
  pose proof (index_loop_agrees_all (Z.to_nat V) V (sorted_by_weight E)
    (mkDSU (seq 0 (Z.to_nat V)) (replicate (Z.to_nat V) 1))
    (mkDSU (seq 0 (Z.to_nat V)) (replicate (Z.to_nat V) 1)) 0%Z []
    (dsu_ok_init _) (dsu_ok_init _) ltac:(done)) as Hagree.
  simpl in Hagree.
  destruct (kruskal_loop V (sorted_by_weight E) _ _ _) as [[c F]|x];
    by rewrite Hagree.
Qed.

(** ** Too few end points *)

Section FewEndpoints.
Context {W : Type} {WW : Weight W}.
Implicit Types (F E : list (@edge W)) (e : @edge W).

(** The vertices that occur in the edges. *)
Definition endpoints E : gset nat :=
  list_to_set (e_src <$> E) ∪ list_to_set (e_dst <$> E).

Lemma elem_of_endpoints E x :
  x ∈ endpoints E ↔ ∃ e, e ∈ E ∧ (e_src e = x ∨ e_dst e = x).
Proof.
  unfold endpoints. rewrite elem_of_union, !elem_of_list_to_set,
    !list_elem_of_fmap. split.
  - intros [(e & -> & ?)|(e & -> & ?)]; exists e; auto.
  - intros (e & ? & [<-|<-]); [left|right]; by exists e.
Qed.

Lemma endpoints_below_alt n E :
  endpoints_below n E ↔ ∀ x, x ∈ endpoints E → x < n.
Proof.
  split.
  - intros Hn x (e & He & [<-|<-])%elem_of_endpoints; by destruct (Hn e He).
  - intros Hn e He. split; apply Hn, elem_of_endpoints; exists e; auto.
Qed.

Lemma conn_endpoint F a b : conn F a b → a ≠ b → a ∈ endpoints F.
Proof.
  intros Hc Hne. destruct Hc as [|a b c (e & He & Hj) _]; [done|].
  apply elem_of_endpoints. exists e. split; [done|].
  destruct Hj as [[? ?]|[? ?]]; auto.
Qed.

(** With no more distinct end points than vertices, and one of them out
    of range, the selection never comes to [n - 1] edges. *)
Lemma kruskal_shape_short n E processed d F :
  size (endpoints E) ≤ n → ¬ endpoints_below n E →
  kruskal_shape n E processed d F → F ≠ [] → length F + 1 ≠ n.
Proof.
  intros Hsize Hout [Hok Hsets Hdone Hsub Hgraph HND Hcount] HF Hlen.
  apply Hout, endpoints_below_alt.
  assert (2 ≤ n) as Hn2 by (destruct F; [done|simpl in *; lia]).
  assert (Hspan : ∀ i j, i < n → j < n → conn F i j).
  { intros i j Hi Hj. apply Hsets; [done..|].
    apply (roots_one_same _ n); [apply Hok|lia|done..]. }
  assert (Hsub' : set_seq 0 n ⊆ endpoints E).
  { intros i [_ Hi]%elem_of_set_seq. simpl in Hi.
    assert (∃ j, j < n ∧ i ≠ j) as (j & Hj & Hij).
    { destruct (decide (i = 0)) as [->|]; [exists 1|exists 0]; lia. }
    pose proof (conn_endpoint F i j (Hspan i j Hi Hj) Hij) as Hin.
    apply elem_of_endpoints in Hin as (e & He & Hor).
    apply elem_of_endpoints. exists e. split; [auto|done]. }
  assert (endpoints E = set_seq 0 n) as ->.
  { symmetry. apply set_subseteq_size_eq; [done|]. by rewrite size_set_seq. }
  intros x [_ Hx]%elem_of_set_seq. done.
Qed.

Lemma kruskal_loop_fails n E L :
  size (endpoints E) ≤ n → ¬ endpoints_below n E → (∀ e, e ∈ L ↔ e ∈ E) →
  ∀ es processed d F c,
    L = processed ++ es → kruskal_shape n E processed d F →
    (∃ e, e ∈ es ∧ ¬ (e_src e < n ∧ e_dst e < n)) →
    kruskal_loop (Z.of_nat n) es d c F = Raise IndexError.
Proof.
  intros Hsize Hout HL es. induction es as [|[[x y] w] es IH];
    intros processed d F c Hsplit Hinv (e & He & Hne).
  - by apply elem_of_nil in He.
  - cbn [kruskal_loop]. destruct (decide (x < n ∧ y < n)) as [[Hx Hy]|Hxy].
    + assert (HE : (x, y, w) ∈ E).
      { apply HL. rewrite Hsplit. apply elem_of_app. right. by left. }
      assert (Hes : ∃ e, e ∈ es ∧ ¬ (e_src e < n ∧ e_dst e < n)).
      { exists e. split; [|done]. apply elem_of_cons in He as [->|?]; [|done].
        exfalso. apply Hne. done. }
      assert (Hsplit' : L = (processed ++ [(x, y, w)]) ++ es)
        by (by rewrite <-app_assoc).
      destruct (union_spec n d x y (ks_ok _ _ _ _ _ Hinv) Hx Hy)
        as (d' & b & Hu & Hpost).
      rewrite Hu. destruct b.
      * assert (Hinv' : kruskal_shape n E (processed ++ [(x, y, w)]) d'
                          (F ++ [(x, y, w)])) by by eapply kruskal_shape_take.
        rewrite decide_False; [by eapply IH|].
        pose proof (kruskal_shape_short n E _ _ _ Hsize Hout Hinv') as Hshort.
        intros Hlen. apply Hshort; [by destruct F|lia].
      * eapply IH; [done| |done]. by eapply kruskal_shape_skip.
    + by rewrite (union_out_of_range n) by (done || apply (ks_ok _ _ _ _ _ Hinv)).
Qed.

Lemma kruskals_mst_fails n E :
  size (endpoints E) ≤ n → ¬ endpoints_below n E →
  kruskals_mst (Z.of_nat n) E = Raise IndexError.
Proof.
  intros Hsize Hout. unfold kruskals_mst, DSU_init. cbn [bind].
  rewrite Nat2Z.id.
  apply (kruskal_loop_fails n E (sorted_by_weight E) Hsize Hout) with
    (processed := []); [|done|apply kruskal_shape_init|].
  - intros e. by rewrite sorted_by_weight_perm.
  - destruct (decide (Forall (λ e, e_src e < n ∧ e_dst e < n) E)) as [Hall|Hex].
    + exfalso. apply Hout. intros e He. rewrite Forall_forall in Hall. auto.
    + apply not_Forall_Exists in Hex; [|apply _].
      apply Exists_exists in Hex as (e & He & Hne). exists e.
      split; [|done]. by rewrite sorted_by_weight_perm.
Qed.

End FewEndpoints.

(** * The cost depends on the graph alone (integer weights) *)

Lemma spanning_tree_same_graph n (E E' T : list (@edge Z)) :
  (∀ e, in_graph E e ↔ in_graph E' e) →
  spanning_tree n E T → spanning_tree n E' T.
Proof.
  intros Hsame (HT & ? & ?). split_and!; [|done..].
  intros e He. by apply Hsame, HT.
Qed.

Lemma same_graph_conn {W} (E E' : list (@edge W)) a b :
  (∀ e, in_graph E e → in_graph E' e) → conn E a b → conn E' a b.
Proof.
  intros Hsame. apply conn_subst. intros e x y He Hj.
  eapply in_graph_conn; [|done]. apply Hsame. by left.
Qed.

Lemma total_submseteq (F E : list (@edge Z)) :
  F ⊆+ E → (∀ e, e ∈ E → (0 ≤ e_weight e)%Z) → (total F ≤ total E)%Z.
Proof.
  induction 1 as [|x l1 l2 _ IH|x y l|x l1 l2 _ IH|l1 l2 l3 _ IH1 H23 IH2];
    intros Hnn; simpl.
  - lia.
  - assert (total l1 ≤ total l2)%Z by (apply IH; intros e ?; apply Hnn; by right).
    lia.
  - lia.
  - assert (total l1 ≤ total l2)%Z by (apply IH; intros e ?; apply Hnn; by right).
    assert (0 ≤ e_weight x)%Z by (apply Hnn; by left). lia.
  - assert (total l2 ≤ total l3)%Z by auto.
    assert (total l1 ≤ total l2)%Z; [|lia].
    apply IH1. intros e He. apply Hnn. by eapply elem_of_submseteq.
Qed.

Lemma total_nonneg (F : list (@edge Z)) :
  (∀ e, e ∈ F → (0 ≤ e_weight e)%Z) → (0 ≤ total F)%Z.
Proof.
  induction F as [|e F IH]; intros Hnn; simpl; [lia|].
  assert (0 ≤ e_weight e)%Z by (apply Hnn; by left).
  assert (0 ≤ total F)%Z by (apply IH; intros ??; apply Hnn; by right). lia.
Qed.

(** Kruskal's cost lies between 0 and the weight of the whole graph. *)
Lemma kruskals_mst_cost_bounds n (E : list (@edge Z)) :
  endpoints_below n E → (∀ e, e ∈ E → (0 ≤ e_weight e)%Z) →
  ∃ c F, kruskals_mst (Z.of_nat n) E = Ok (c, F) ∧ (0 ≤ c ≤ total E)%Z.
Proof.
  intros Hn Hnn.
  destruct (kruskals_mst_shape n E Hn) as (c & F & HK & -> & HFE & HND & _).
  exists (sum_weights F), F. split; [done|]. rewrite sum_weights_total. split.
  - apply total_nonneg. auto.
  - apply total_submseteq; [|done]. by apply NoDup_submseteq.
Qed.

(** * The sort of the edge list *)

Lemma filter_insert_by_weight (w : Z) e (l : list (@edge Z)) :
  filter (λ e, e_weight e = w) (insert_by_weight e l) =
  filter (λ e, e_weight e = w) (e :: l).
Proof.
  induction l as [|x l IH]; simpl; [done|].
  destruct (Z.ltb_spec (e_weight x) (e_weight e)); [|done].
  rewrite (filter_cons _ x), IH, !filter_cons.
  repeat case_decide; done || lia.
Qed.

(** * [main] of [final.py] *)

Section MainTheory.
Implicit Types (rows : list (Z * Z * PrimFloat.float)) (d : gmap Z nat).

(** Identifiers that float64 holds exactly. *)
Definition exact_ids rows : Prop :=
  Forall (λ row, (Z.abs row.1.1 < 2 ^ 53)%Z ∧ (Z.abs row.1.2 < 2 ^ 53)%Z) rows.

(** Weights that are numbers: the sort and the queue order them. *)
Definition number_weights rows : Prop :=
  Forall (λ row, PrimFloat.is_nan row.2 = false) rows.

Lemma via_float64_exact z : (Z.abs z < 2 ^ 53)%Z → via_float64 z = z.
Proof.
  intros Hz. unfold via_float64. cbv zeta.
  by rewrite (proj2 (Z.ltb_lt _ _) Hz).
Qed.

Lemma row_id_exact float_weights z :
  (Z.abs z < 2 ^ 53)%Z → row_id float_weights z = z.
Proof. intros Hz. destruct float_weights; [by apply via_float64_exact|done]. Qed.

(** An identifier above 2^53 is not read back as it is. *)
Lemma via_float64_rounds :
  via_float64 9007199254740993 = 9007199254740992%Z ∧
  via_float64 9007199254740995 = 9007199254740996%Z.
Proof. by vm_compute. Qed.

Lemma main_rows_exact float_weights d rows E0 adj0 t0 :
  exact_ids rows →
  main_rows float_weights d rows E0 adj0 t0 = main_rows false d rows E0 adj0 t0.
Proof.
  intros Hex. revert E0 adj0 t0.
  induction Hex as [|[[s t] w] rows [Hs Ht] _ IH]; intros E0 adj0 t0; [done|].
  cbn [main_rows]. cbv zeta. simpl in Hs, Ht.
  rewrite !(row_id_exact float_weights), !(row_id_exact false) by done.
  destruct (dict_getitem d s) as [a|]; [|done]. cbn [bind].
  destruct (dict_getitem d t) as [b|]; [|done]. cbn [bind].
  destruct (adj_append adj0 a (b, w)) as [adj1|]; [|done]. cbn [bind].
  destruct (adj_append adj1 b (a, w)) as [adj2|]; [|done]. cbn [bind].
  apply IH.
Qed.

Lemma main_costs_exact float_weights iteration rows :
  exact_ids rows →
  main_costs float_weights iteration rows = main_costs false iteration rows.
Proof.
  intros Hex. unfold main_costs. case_decide; [done|].
  by rewrite (main_rows_exact float_weights).
Qed.

(** The rows with their identifiers replaced by the indices of the
    dictionary. *)
Definition remap d rows : list (@edge PrimFloat.float) :=
  (λ row, (default 0 (d !! row.1.1), default 0 (d !! row.1.2), row.2)) <$> rows.

Lemma main_rows_spec d rows E0 adj0 t0 :
  (∀ row, row ∈ rows → is_Some (d !! row.1.1) ∧ is_Some (d !! row.1.2)) →
  main_rows false d rows E0 adj0 t0 =
    match adj_fill adj0 (remap d rows) with
    | Ok adj =>
        Ok (E0 ++ remap d rows, adj, foldl (λ acc row, w_add acc row.2) t0 rows)
    | Raise e => Raise e
    end.
Proof.
  revert E0 adj0 t0. induction rows as [|[[s t] w] rows IH];
    intros E0 adj0 t0 Hd.
  - simpl. by rewrite app_nil_r.
  - destruct (Hd (s, t, w)) as [[a Ha] [b Hb]]; [by left|]. simpl in Ha, Hb.
    cbn [main_rows remap fmap list_fmap adj_fill row_id]. unfold dict_getitem.
    cbn [fst snd]. rewrite Ha, Hb. cbn [bind default].
    change (id a) with a. change (id b) with b.
    destruct (adj_append adj0 a (b, w)) as [adj1|]; [|done]. cbn [bind].
    destruct (adj_append adj1 b (a, w)) as [adj2|]; [|done]. cbn [bind].
    rewrite IH by (intros row ?; apply Hd; by right).
    fold (remap d rows). destruct (adj_fill adj2 (remap d rows)); [|done].
    cbn [foldl]. by rewrite <-app_assoc.
Qed.

Lemma elem_of_all_node_ids rows id :
  id ∈ all_node_ids rows ↔ ∃ row, row ∈ rows ∧ (row.1.1 = id ∨ row.1.2 = id).
Proof.
  unfold all_node_ids. rewrite elem_of_union, !elem_of_list_to_set,
    !list_elem_of_fmap. split.
  - intros [(p & -> & (row & -> & ?)%list_elem_of_fmap)
           |(p & -> & (row & -> & ?)%list_elem_of_fmap)]; exists row; auto.
  - intros (row & ? & [<-|<-]); [left|right]; exists row.1;
      (split; [done|]); apply list_elem_of_fmap; by exists row.
Qed.

(** What [main] hands to the engines, for any file with a row and any
    iteration order of the set of identifiers. *)
Lemma main_graph iteration rows :
  rows ≠ [] → NoDup iteration → list_to_set iteration = all_node_ids rows →
  let V := size (all_node_ids rows) in
  let E := remap (map_id_to_idx iteration) rows in
  0 < V ∧ all_node_ids rows ≠ ∅ ∧
  Forall2 (λ row e,
             map_id_to_idx iteration !! row.1.1 = Some (e_src e) ∧
             map_id_to_idx iteration !! row.1.2 = Some (e_dst e) ∧
             row.2 = e_weight e) rows E ∧
  endpoints_below V E ∧ endpoints E = set_seq 0 V ∧
  ∃ adj,
    main_rows false (map_id_to_idx iteration) rows []
              (list_to_map ((λ i, (i, [])) <$> seq 0 V)) w_zero =
      Ok (E, adj, foldl (λ acc row, w_add acc row.2) w_zero rows) ∧
    adj_rep E adj.
Proof.
  intros Hrows HND Hset V E.
  assert (HV : V = length iteration).
  { unfold V. by rewrite <-Hset, size_list_to_set. }
  assert (Hd : ∀ id, id ∈ all_node_ids rows →
            ∃ i, map_id_to_idx iteration !! id = Some i ∧ i < V).
  { intros id Hid. rewrite <-Hset in Hid. apply elem_of_list_to_set in Hid.
    apply list_elem_of_lookup in Hid as [i Hi]. exists i.
    split; [by apply map_id_to_idx_lookup|].
    rewrite HV. by eapply lookup_lt_Some. }
  assert (Hrow : ∀ row, row ∈ rows →
            (∃ i, map_id_to_idx iteration !! row.1.1 = Some i ∧ i < V) ∧
            (∃ i, map_id_to_idx iteration !! row.1.2 = Some i ∧ i < V)).
  { intros row Hin. split; apply Hd, elem_of_all_node_ids; exists row; auto. }
  assert (Hne : all_node_ids rows ≠ ∅).
  { destruct rows as [|row rows']; [done|].
    assert (row.1.1 ∈ all_node_ids (row :: rows')) as Hin
      by (apply elem_of_all_node_ids; exists row; split; [by left|auto]).
    intros Hemp. rewrite Hemp in Hin. by apply not_elem_of_empty in Hin. }
  assert (Hbelow : endpoints_below V E).
  { intros e (row & -> & Hin)%list_elem_of_fmap.
    destruct (Hrow row Hin) as [(i & Hi & ?) (j & Hj & ?)].
    unfold e_src, e_dst. simpl. by rewrite Hi, Hj. }
  split_and!.
  - assert (V ≠ 0); [|lia]. apply size_non_empty_iff.
    intros Hemp. by apply leibniz_equiv in Hemp.
  - done.
  - unfold E, remap. apply Forall2_fmap_r, Forall_Forall2_diag, Forall_forall.
    intros row Hin. destruct (Hrow row Hin) as [(i & Hi & ?) (j & Hj & ?)].
    unfold e_src, e_dst, e_weight. simpl. by rewrite Hi, Hj.
  - done.
  - apply set_eq. intros i. rewrite elem_of_set_seq. split.
    + intros Hi. split; [lia|]. simpl.
      by apply (proj1 (endpoints_below_alt V E) Hbelow).
    + intros [_ Hi]. simpl in Hi. rewrite HV in Hi.
      destruct (lookup_lt_is_Some_2 iteration i Hi) as [id Hid].
      assert (id ∈ all_node_ids rows) as Hin.
      { rewrite <-Hset. apply elem_of_list_to_set.
        by eapply list_elem_of_lookup_2. }
      apply map_id_to_idx_lookup in Hid; [|done].
      apply elem_of_all_node_ids in Hin as (row & Hin & Hor).
      apply elem_of_endpoints.
      exists (default 0 (map_id_to_idx iteration !! row.1.1),
              default 0 (map_id_to_idx iteration !! row.1.2), row.2).
      split; [apply list_elem_of_fmap; by exists row|].
      unfold e_src, e_dst. simpl.
      destruct Hor as [->| ->]; rewrite Hid; auto.
  - destruct (build_adj_spec V E Hbelow) as (adj & Hfill & Hadj).
    exists adj. split; [|done]. unfold build_adj in Hfill.
    rewrite main_rows_spec.
    + fold E. by rewrite Hfill.
    + intros row Hin. destruct (Hrow row Hin) as [(i & Hi & ?) (j & Hj & ?)].
      rewrite Hi, Hj. eauto.
Qed.

End MainTheory.

(** * The script of [index.py] *)

Lemma foldr_min_spec x (l : list Z) :
  foldr Z.min x l ∈ x :: l ∧ ∀ y, y ∈ x :: l → (foldr Z.min x l ≤ y)%Z.
Proof.
  induction l as [|a l [IHin IHle]]; simpl.
  - split; [by left|]. intros y ->%list_elem_of_singleton. lia.
  - split.
    + destruct (Z.min_spec a (foldr Z.min x l)) as [[_ ->]|[_ ->]].
      * right. by left.
      * apply elem_of_cons in IHin as [->|?]; [by left|by do 2 right].
    + intros y [->|[->|Hy]%elem_of_cons]%elem_of_cons.
      * specialize (IHle x ltac:(by left)). lia.
      * lia.
      * specialize (IHle y ltac:(by right)). lia.
Qed.

Lemma foldr_max_spec x (l : list Z) :
  foldr Z.max x l ∈ x :: l ∧ ∀ y, y ∈ x :: l → (y ≤ foldr Z.max x l)%Z.
Proof.
  induction l as [|a l [IHin IHle]]; simpl.
  - split; [by left|]. intros y ->%list_elem_of_singleton. lia.
  - split.
    + destruct (Z.max_spec a (foldr Z.max x l)) as [[_ ->]|[_ ->]].
      * apply elem_of_cons in IHin as [->|?]; [by left|by do 2 right].
      * right. by left.
    + intros y [->|[->|Hy]%elem_of_cons]%elem_of_cons.
      * specialize (IHle x ltac:(by left)). lia.
      * lia.
      * specialize (IHle y ltac:(by right)). lia.
Qed.

(** [min(all_node_ids_in_file)] and [max(all_node_ids_in_file)]. *)
Definition min_id (ids : gset Z) : Z :=
  match elements ids with
  | [] => 0%Z
  | x :: l => foldr Z.min x l
  end.

Definition max_id (ids : gset Z) : Z :=
  match elements ids with
  | [] => 0%Z
  | x :: l => foldr Z.max x l
  end.

(** Identifiers whose differences numpy forms in int64 without wrapping
    around. *)
Definition int64_exact (rows : list (Z * Z)) : Prop :=
  Forall (λ row, (- 2 ^ 62 ≤ row.1 < 2 ^ 62)%Z ∧ (- 2 ^ 62 ≤ row.2 < 2 ^ 62)%Z)
         rows.

Lemma int64_sub_exact a b :
  (- 2 ^ 62 ≤ a < 2 ^ 62)%Z → (- 2 ^ 62 ≤ b < 2 ^ 62)%Z →
  Index.int64_sub a b = (a - b)%Z.
Proof.
  intros Ha Hb. unfold Index.int64_sub.
  rewrite Z.mod_small; lia.
Qed.

(** A difference that wraps around: the least and the greatest int64. *)
Lemma int64_sub_wraps :
  Index.int64_sub 9223372036854775807 (-9223372036854775808) = (-1)%Z.
Proof. by vm_compute. Qed.

(** The identifiers are all the integers from the least to the
    greatest. *)
Definition contiguous (ids : gset Z) : Prop :=
  (max_id ids - min_id ids + 1 = Z.of_nat (size ids))%Z.

Lemma elements_non_empty (ids : gset Z) :
  ids ≠ ∅ → ∃ x l, elements ids = x :: l.
Proof.
  intros Hne. destruct (elements ids) as [|x l] eqn:Hel; [|by eauto].
  exfalso. apply Hne. apply leibniz_equiv. by apply elements_empty_inv.
Qed.

Lemma min_id_spec (ids : gset Z) :
  ids ≠ ∅ → min_id ids ∈ ids ∧ ∀ y, y ∈ ids → (min_id ids ≤ y)%Z.
Proof.
  intros (x & l & Hel)%elements_non_empty. unfold min_id. rewrite Hel.
  destruct (foldr_min_spec x l) as [Hin Hle]. split.
  - apply elem_of_elements. by rewrite Hel.
  - intros y Hy%elem_of_elements. rewrite Hel in Hy. auto.
Qed.

Lemma max_id_spec (ids : gset Z) :
  ids ≠ ∅ → max_id ids ∈ ids ∧ ∀ y, y ∈ ids → (y ≤ max_id ids)%Z.
Proof.
  intros (x & l & Hel)%elements_non_empty. unfold max_id. rewrite Hel.
  destruct (foldr_max_spec x l) as [Hin Hle]. split.
  - apply elem_of_elements. by rewrite Hel.
  - intros y Hy%elem_of_elements. rewrite Hel in Hy. auto.
Qed.

Lemma ids_within (ids : gset Z) :
  ids ≠ ∅ →
  ids ⊆ list_to_set (seqZ (min_id ids) (max_id ids - min_id ids + 1)).
Proof.
  intros Hne id Hid. apply elem_of_list_to_set, elem_of_seqZ.
  destruct (min_id_spec ids Hne) as [_ Hmin], (max_id_spec ids Hne) as [_ Hmax].
  specialize (Hmin id Hid). specialize (Hmax id Hid). lia.
Qed.

Lemma ids_span (ids : gset Z) :
  ids ≠ ∅ → (Z.of_nat (size ids) ≤ max_id ids - min_id ids + 1)%Z.
Proof.
  intros Hne. pose proof (subseteq_size _ _ (ids_within ids Hne)) as Hle.
  rewrite size_list_to_set, length_seqZ in Hle by apply NoDup_seqZ.
  destruct (min_id_spec ids Hne) as [Hin _], (max_id_spec ids Hne) as [_ Hmax].
  specialize (Hmax _ Hin). lia.
Qed.

Lemma contiguous_range (ids : gset Z) :
  ids ≠ ∅ →
  contiguous ids ↔
  ∃ m, ∀ z, z ∈ ids ↔ (m ≤ z < m + Z.of_nat (size ids))%Z.
Proof.
  intros Hne. destruct (min_id_spec ids Hne) as [Hminin Hmin],
    (max_id_spec ids Hne) as [Hmaxin Hmax]. unfold contiguous. split.
  - intros Hc. exists (min_id ids). intros z.
    assert (ids = list_to_set (seqZ (min_id ids) (max_id ids - min_id ids + 1)))
      as Heq.
    { apply set_subseteq_size_eq; [by apply ids_within|].
      rewrite size_list_to_set, length_seqZ by apply NoDup_seqZ. lia. }
    rewrite Heq at 1. rewrite elem_of_list_to_set, elem_of_seqZ. lia.
  - intros (m & Hm).
    pose proof (proj1 (Hm _) Hminin). pose proof (proj1 (Hm _) Hmaxin).
    assert (m ∈ ids) as Hmin' by (apply Hm; lia).
    assert ((m + Z.of_nat (size ids) - 1)%Z ∈ ids) as Hmax' by (apply Hm; lia).
    apply Hmin in Hmin'. apply Hmax in Hmax'. lia.
Qed.

Lemma index_offset_spec (ids : gset Z) :
  ids ≠ ∅ →
  ∃ off, Index.id_offset ids = Some off ∧
    (∀ id, id ∈ ids → (off ≤ id)%Z) ∧
    ((∀ id, id ∈ ids → (id - off < Z.of_nat (size ids))%Z) ↔ contiguous ids).
Proof.
  intros Hne. pose proof (ids_span ids Hne) as Hspan.
  destruct (min_id_spec ids Hne) as [Hminin Hmin],
    (max_id_spec ids Hne) as [Hmaxin Hmax].
  assert (Hall : ∀ off, (∀ id, id ∈ ids → (id - off < Z.of_nat (size ids))%Z) ↔
                        (max_id ids - off < Z.of_nat (size ids))%Z).
  { intros off. split; [auto|]. intros Hlt id Hid. specialize (Hmax id Hid). lia. }
  unfold contiguous, Index.id_offset. unfold min_id, max_id in *.
  destruct (elements_non_empty ids Hne) as (x & l & Hel). rewrite Hel in *.
  eexists. split; [done|]. repeat case_decide.
  - split; [intros id Hid; specialize (Hmin id Hid); lia|]. rewrite Hall. lia.
  - split; [intros id Hid; specialize (Hmin id Hid); lia|]. rewrite Hall. lia.
  - split; [intros id Hid; specialize (Hmin id Hid); lia|]. rewrite Hall. lia.
  - split; [intros id Hid; specialize (Hmin id Hid); lia|]. rewrite Hall. lia.
Qed.

Lemma index_offset_cases (ids : gset Z) off :
  Index.id_offset ids = Some off → off = 0%Z ∨ off = 1%Z ∨ off ∈ ids.
Proof.
  unfold Index.id_offset. destruct (elements ids) as [|x l] eqn:Hel; [done|].
  intros [= <-]. repeat case_decide; auto.
  right. right. apply elem_of_elements. rewrite Hel.
  apply foldr_min_spec.
Qed.

Lemma elem_of_all_node_ids_in_file rows id :
  id ∈ Index.all_node_ids_in_file rows ↔
  ∃ row, row ∈ rows ∧ (row.1 = id ∨ row.2 = id).
Proof.
  unfold Index.all_node_ids_in_file.
  rewrite elem_of_union, !elem_of_list_to_set, !list_elem_of_fmap. split.
  - intros [(row & -> & ?)|(row & -> & ?)]; exists row; auto.
  - intros (row & ? & [<-|<-]); [left|right]; by exists row.
Qed.

(** The edges the script hands to [kruskals_mst], one weight per row. *)
Lemma index_kruskal_edges_spec rows weights :
  rows ≠ [] → int64_exact rows → length weights = length rows →
  let ids := Index.all_node_ids_in_file rows in
  let V := size ids in
  ∃ off E,
    Index.id_offset ids = Some off ∧
    Index.kruskal_edges rows weights = Some (Z.of_nat V, E) ∧
    (∀ id, id ∈ ids → (off ≤ id)%Z) ∧
    e_weight <$> E = weights ∧
    (endpoints_below V E ↔ contiguous ids) ∧
    size (endpoints E) ≤ V ∧ 0 < V.
Proof.
  intros Hrows Hexact Hlen ids V.
  assert (Hne : ids ≠ ∅).
  { destruct rows as [|row rows']; [done|].
    assert (row.1 ∈ ids) as Hin
      by (apply elem_of_all_node_ids_in_file; exists row; split; [by left|auto]).
    intros Hemp. rewrite Hemp in Hin. by apply not_elem_of_empty in Hin. }
  destruct (index_offset_spec ids Hne) as (off & Hoff & Hnn & Hrange).
  assert (Hbound : ∀ id, id ∈ ids → (- 2 ^ 62 ≤ id < 2 ^ 62)%Z).
  { intros id (row & Hin & Hor)%elem_of_all_node_ids_in_file.
    unfold int64_exact in Hexact. rewrite Forall_forall in Hexact.
    destruct (Hexact row Hin).
    by destruct Hor as [<-|<-]. }
  assert (Hoffb : (- 2 ^ 62 ≤ off < 2 ^ 62)%Z).
  { destruct (index_offset_cases ids off Hoff) as [->|[->|Hin]];
      [lia|lia|by apply Hbound]. }
  set (f := λ id : Z, Z.to_nat (Index.int64_sub id off)).
  assert (Hf : ∀ id, id ∈ ids → f id = Z.to_nat (id - off)).
  { intros id Hid. unfold f. by rewrite int64_sub_exact by auto. }
  set (E := zip_with (λ '(source_orig, destination_orig) weight,
                        (f source_orig, f destination_orig, weight))
                     rows weights).
  exists off, E. split; [done|].
  assert (HE : ∀ e, e ∈ E ↔
            ∃ i row w, rows !! i = Some row ∧ weights !! i = Some w ∧
                       e = (f row.1, f row.2, w)).
  { intros e. unfold E. rewrite elem_of_lookup_zip_with. split.
    - intros (i & [s t] & w & -> & ? & ?). by exists i, (s, t), w.
    - intros (i & [s t] & w & ? & ? & ->). by exists i, (s, t), w. }
  assert (Hrow : ∀ row, row ∈ rows → ∃ w, (f row.1, f row.2, w) ∈ E).
  { intros row [i Hi]%list_elem_of_lookup.
    destruct (lookup_lt_is_Some_2 weights i) as [w Hw].
    { rewrite Hlen. by eapply lookup_lt_Some. }
    exists w. apply HE. by exists i, row, w. }
  assert (Hends : ∀ x, x ∈ endpoints E ↔ ∃ id, id ∈ ids ∧ x = f id).
  { intros x. rewrite elem_of_endpoints. split.
    - intros (e & (i & row & w & Hi & _ & ->)%HE & Hor).
      apply list_elem_of_lookup_2 in Hi. unfold e_src, e_dst in Hor. simpl in Hor.
      destruct Hor as [<-|<-]; [exists row.1|exists row.2];
        (split; [|done]); apply elem_of_all_node_ids_in_file; exists row; auto.
    - intros (id & (row & Hin & Hor)%elem_of_all_node_ids_in_file & ->).
      destruct (Hrow row Hin) as [w Hw]. exists (f row.1, f row.2, w).
      split; [done|]. unfold e_src, e_dst. simpl.
      destruct Hor as [<-|<-]; auto. }
  split_and!.
  - unfold Index.kruskal_edges. fold ids. rewrite Hoff. done.
  - done.
  - unfold E. clear -Hlen. revert weights Hlen.
    induction rows as [|[s t] rows IH]; intros [|w weights] Hlen;
      simplify_eq/=; [done|]. f_equal. by apply IH.
  - rewrite endpoints_below_alt, <-Hrange. split.
    + intros Hb id Hid. specialize (Hnn id Hid).
      assert (f id < V) as Hlt by (apply Hb, Hends; by exists id).
      rewrite Hf in Hlt by done. unfold V in Hlt. lia.
    + intros Hb x (id & Hid & ->)%Hends. specialize (Hb id Hid).
      specialize (Hnn id Hid). rewrite Hf by done. unfold V. lia.
  - assert (endpoints E ⊆ list_to_set (f <$> elements ids)) as Hsub.
    { intros x (id & Hid & ->)%Hends. apply elem_of_list_to_set.
      apply list_elem_of_fmap. exists id. split; [done|].
      by apply elem_of_elements. }
    apply subseteq_size in Hsub. rewrite size_list_to_set in Hsub.
    + by rewrite length_fmap in Hsub.
    + apply NoDup_fmap_2_strong; [|apply NoDup_elements].
      intros a b Ha%elem_of_elements Hb%elem_of_elements Hab.
      rewrite !Hf in Hab by done.
      apply Hnn in Ha, Hb. lia.
  - assert (V ≠ 0); [|lia]. apply size_non_empty_iff.
    intros Hemp. by apply leibniz_equiv in Hemp.
Qed.

Lemma foldl_edge_weights (E : list (@edge Z)) (a : Z) :
  foldl (λ acc e, acc + e_weight e)%Z a E = (a + total E)%Z.
Proof.
  revert a. induction E as [|e E IH]; intros a; simpl; [lia|].
  rewrite IH. lia.
Qed.

(** * Further properties of the code *)

(** ** The DSU *)

Lemma same_set_sym p a b : same_set p a b → same_set p b a.
Proof. intros (r & ? & ?). by exists r. Qed.

Lemma same_set_trans p a b c :
  same_set p a b → same_set p b c → same_set p a c.
Proof.
  intros (r & Ha & Hb) (r' & Hb' & Hc).
  rewrite (root_of_fun _ _ _ _ Hb Hb') in Ha. by exists r'.
Qed.

(** X1. Whatever the state, a [find(i)] that returns has rewritten every
    entry met on the way from [i] to the root so that it holds the root,
    and has left every other entry, and the ranks, as they were. *)
Theorem find_compresses_path d i d' r :
  find d i = Ok (d', r) →
  rank d' = rank d ∧
  ∀ j, (on_path (parent d) i j → parent d' !! j = Some r) ∧
       (¬ on_path (parent d) i j → parent d' !! j = parent d !! j).
Proof.
  intros Hf. split; [by apply find_Ok in Hf as (_ & ? & _)|].
  by apply find_rec_path with (fuel := S (length (parent d))).
Qed.

Lemma find_compresses_path_witness :
  rank chain_state_compressed = rank chain_state ∧
  ∀ j, (on_path (parent chain_state) 3 j →
          parent chain_state_compressed !! j = Some 0) ∧
       (¬ on_path (parent chain_state) 3 j →
          parent chain_state_compressed !! j = parent chain_state !! j).
Proof.
  apply (find_compresses_path chain_state 3 chain_state_compressed 0).
  reflexivity.
Defined.

(** X2. In a DSU created over [n] elements, [union(x, y)] on indices below
    [n] returns [True] exactly when [x] and [y] were in different sets;
    afterwards two elements are in the same set exactly when they were
    before or one was with [x] and the other with [y]; the number of sets
    goes down by one when it returns [True] and stays otherwise. *)
Theorem union_partition n d x y :
  reachable n d → x < n → y < n →
  ∃ d' b, union d x y = Ok (d', b) ∧
    (b = true ↔ ¬ same_set (parent d) x y) ∧
    (∀ i j, i < n → j < n →
       same_set (parent d') i j ↔
       same_set (parent d) i j ∨
       (same_set (parent d) i x ∧ same_set (parent d) y j) ∨
       (same_set (parent d) i y ∧ same_set (parent d) x j)) ∧
    length (roots (parent d)) =
      length (roots (parent d')) + (if b then 1 else 0).
Proof.
  intros Hok%reachable_ok Hx Hy.
  destruct (union_spec n d x y Hok Hx Hy) as (d' & b & Hu & Hpost).
  destruct (union_post_same_set n d x y d' b Hok Hpost) as [Hb Hsets].
  exists d', b. split_and!; try done.
  - intros i j Hi Hj. rewrite Hsets by done. split.
    + intros [?|[_ ?]]; auto.
    + intros [?|Hor]; [by left|]. destruct b; [by auto|]. left.
      assert (same_set (parent d) x y) as Hxy.
      { destruct Hpost as (rx & ry & Hrx & Hry & _ & Hcase).
        destruct (decide (rx = ry)) as [->|]; [by exists ry|].
        by destruct Hcase. }
      destruct Hor as [[Hix Hyj]|[Hiy Hxj]].
      * eauto using same_set_trans.
      * apply same_set_sym in Hxy. eauto using same_set_trans.
  - destruct Hpost as (rx & ry & _ & _ & _ & Hcase).
    destruct (decide (rx = ry)).
    + destruct Hcase as (-> & _ & -> & _). lia.
    + destruct Hcase as (-> & -> & _). lia.
Qed.

Lemma union_partition_witness :
  ∃ d' b, union (mkDSU [0; 1; 2; 3] [1; 1; 1; 1]) 0 1 = Ok (d', b) ∧
    (b = true ↔ ¬ same_set [0; 1; 2; 3] 0 1) ∧
    (∀ i j, i < 4 → j < 4 →
       same_set (parent d') i j ↔
       same_set [0; 1; 2; 3] i j ∨
       (same_set [0; 1; 2; 3] i 0 ∧ same_set [0; 1; 2; 3] 1 j) ∨
       (same_set [0; 1; 2; 3] i 1 ∧ same_set [0; 1; 2; 3] 0 j)) ∧
    length (roots [0; 1; 2; 3]) =
      length (roots (parent d')) + (if b then 1 else 0).
Proof.
  apply (union_partition 4 (mkDSU [0; 1; 2; 3] [1; 1; 1; 1]) 0 1).
  - apply reach_init. reflexivity.
  - lia.
  - lia.
Defined.

(** X3. Union by rank keeps the trees shallow: in a DSU created over [n]
    elements, the parent chain from any index reaches its root in [k]
    steps with [2 ^ k ≤ n], so that [find] returns within a recursion depth
    of [k + 1], and no rank [ρ] exceeds [2 ^ (ρ - 1) ≤ n]. *)
Theorem find_depth_log n d i :
  reachable n d → i < n →
  ∃ k r d', chain (parent d) k i r ∧ 2 ^ k ≤ n ∧
    (∀ fuel, k < fuel → find_rec fuel d i = Ok (d', r)) ∧
    2 ^ (rk d i - 1) ≤ n.
Proof.
  intros Hreach Hi. pose proof (reachable_rank_ok n d Hreach) as Hrank.
  pose proof (reachable_ok n d Hreach) as (Hlen & Hrlen & Hall).
  destruct (Hall i Hi) as (r & k & Hk).
  pose proof (chain_rank d k i r Hrank Hk) as Hle.
  pose proof (ro_pos _ Hrank i ltac:(lia)) as Hpos.
  pose proof (rank_ok_set_bound n d r Hrank Hlen (chain_end_root _ _ _ _ Hk))
    as Hsize.
  destruct (find_rec_chain (S k) d k i r Hk ltac:(lia)) as (p' & Hf & _).
  exists k, r, (mkDSU p' (rank d)). split_and!; [done| | |].
  - etrans; [|apply Hsize]. apply Nat.pow_le_mono_r; lia.
  - intros fuel Hfuel. eapply find_rec_fuel; [apply Hf|lia].
  - etrans; [|apply Hsize]. apply Nat.pow_le_mono_r; lia.
Qed.

Lemma find_depth_log_witness :
  ∃ k r d', chain (parent chain_state) k 3 r ∧ 2 ^ k ≤ 4 ∧
    (∀ fuel, k < fuel → find_rec fuel chain_state 3 = Ok (d', r)) ∧
    2 ^ (rk chain_state 3 - 1) ≤ 4.
Proof.
  apply (find_depth_log 4 chain_state 3).
  - apply chain_state_reachable.
  - lia.
Defined.

(** X4. In a DSU created over [n] elements, [union] raises [IndexError]
    when one of its arguments is not below [n], and so does [find] on an
    index that is not below [n]. *)
Theorem dsu_out_of_range n d x y :
  reachable n d → ¬ (x < n ∧ y < n) →
  union d x y = Raise IndexError ∧
  (n ≤ x → find d x = Raise IndexError).
Proof.
  intros Hok%reachable_ok Hout. split; [by eapply union_out_of_range|].
  intros Hx. apply find_out_of_range. destruct Hok as [-> _]. done.
Qed.

Lemma dsu_out_of_range_witness :
  union (mkDSU [0; 1; 2; 3] [1; 1; 1; 1]) 7 0 = Raise IndexError ∧
  (4 ≤ 7 → find (mkDSU [0; 1; 2; 3] [1; 1; 1; 1]) 7 = Raise IndexError).
Proof.
  apply (dsu_out_of_range 4 (mkDSU [0; 1; 2; 3] [1; 1; 1; 1]) 7 0).
  - apply reach_init. reflexivity.
  - lia.
Defined.

(** ** The engines on any graph *)

(** Two components, {0, 1} and {2, 3}, with one edge each. *)
Definition split_edges : list (@edge Z) := [(0, 1, 5%Z); (2, 3, 7%Z)].

Definition split_adj : adjacency Z :=
  list_to_map
    [(0, [(1, 5%Z)]); (1, [(0, 5%Z)]); (2, [(3, 7%Z)]); (3, [(2, 7%Z)])].

Lemma split_below : endpoints_below 4 split_edges.
Proof.
  intros e He. unfold split_edges in He.
  repeat (apply elem_of_cons in He as [->|He]; [unfold e_src, e_dst; simpl; lia|]).
  by apply elem_of_nil in He.
Qed.

Lemma split_adj_rep : adj_rep split_edges split_adj.
Proof.
  destruct (build_adj_spec 4 split_edges split_below) as (adj & Hb & Hadj).
  assert (build_adj 4 split_edges = Ok split_adj) as Heq
    by (vm_compute; reflexivity).
  rewrite Heq in Hb. by simplify_eq.
Qed.

(** X5. On any graph with end points below [V], connected or not and
    whatever the weights, [kruskals_mst] returns a spanning forest: edges
    of the graph, none twice, none closing a cycle, that join exactly the
    vertices the graph joins. *)
Theorem kruskal_spanning_forest {W : Type} {WW : Weight W} n
    (E : list (@edge W)) :
  endpoints_below n E →
  ∃ c F, kruskals_mst (Z.of_nat n) E = Ok (c, F) ∧
    (∀ e, e ∈ F → e ∈ E) ∧ NoDup F ∧ forest F ∧
    (∀ x y, x < n → y < n → conn F x y ↔ conn E x y).
Proof. apply kruskals_mst_forest. Qed.

Lemma kruskal_spanning_forest_witness :
  ∃ c F, kruskals_mst (Z.of_nat 4) split_edges = Ok (c, F) ∧
    (∀ e, e ∈ F → e ∈ split_edges) ∧ NoDup F ∧ forest F ∧
    (∀ x y, x < 4 → y < 4 → conn F x y ↔ conn split_edges x y).
Proof. apply (kruskal_spanning_forest 4 split_edges), split_below. Defined.

(** X6. On any graph with end points below [V >= 1], whatever the
    weights, [prims_mst] returns a tree that spans the component of its
    start vertex 0 and nothing else: the vertices it visits are those the
    graph joins to 0, its edges are edges of the graph without a cycle
    that join 0 to each of them, and there is one edge less than visited
    vertices. *)
Theorem prim_spans_component {W : Type} {WW : Weight W} n
    (E : list (@edge W)) (adj : adjacency W) :
  endpoints_below n E → adj_rep E adj → 0 < n →
  ∃ c F, prims_mst (Z.of_nat n) adj = Some (c, F) ∧
    (∀ e, e ∈ F → in_graph E e) ∧ forest F ∧
    (∀ x, x ∈ visited_after F ↔ conn E 0 x) ∧
    (∀ x, conn E 0 x → conn F 0 x) ∧
    size (visited_after F) = S (length F).
Proof. apply prims_mst_component. Qed.

Lemma prim_spans_component_witness :
  ∃ c F, prims_mst (Z.of_nat 4) split_adj = Some (c, F) ∧
    (∀ e, e ∈ F → in_graph split_edges e) ∧ forest F ∧
    (∀ x, x ∈ visited_after F ↔ conn split_edges 0 x) ∧
    (∀ x, conn split_edges 0 x → conn F 0 x) ∧
    size (visited_after F) = S (length F).
Proof.
  apply (prim_spans_component 4 split_edges split_adj).
  - apply split_below.
  - apply split_adj_rep.
  - lia.
Defined.

(** X7. On a connected graph with integer weights, the edges each engine
    returns are a spanning tree of the graph ([V - 1] of its edges that
    connect all vertices), and their common cost is the least weight of
    any spanning tree. *)
Theorem engines_minimum n (E : list (@edge Z)) (adj : adjacency Z) :
  endpoints_below n E → adj_rep E adj → connected n E →
  ∃ c FK FP,
    kruskals_mst (Z.of_nat n) E = Ok (c, FK) ∧
    prims_mst (Z.of_nat n) adj = Some (c, FP) ∧
    spanning_tree n E FK ∧ spanning_tree n E FP ∧
    ∀ T, spanning_tree n E T → (c ≤ total T)%Z.
Proof.
  intros Hbelow Hrep [Hn Hsp].
  destruct (kruskals_mst_spec n E Hbelow)
    as (cK & FK & HK & -> & HKE & HKnd & HKprom & HKfull & _).
  destruct (prims_mst_spec n E adj Hbelow Hrep Hn)
    as (cP & FP & HP & -> & HPE & HPnd & HPprom & HPfull & _).
  destruct (HKfull Hn Hsp) as [HKlen HKsp], (HPfull Hsp) as [HPlen HPsp].
  assert (HKtree : spanning_tree n E FK).
  { split_and!; [|done..]. intros e He. left. auto. }
  assert (HPtree : spanning_tree n E FP) by by split_and!.
  pose proof (promising_full n E FK FP HKprom HKnd HKlen HPtree).
  pose proof (promising_full n E FP FK HPprom HPnd HPlen HKtree).
  exists (total FK), FK, FP. split_and!; try done.
  - rewrite HP. do 2 f_equal. lia.
  - intros T HT. by apply (promising_full n E FK T).
Qed.

Lemma engines_minimum_witness :
  ∃ c FK FP,
    kruskals_mst (Z.of_nat 4) scenario_edges = Ok (c, FK) ∧
    prims_mst (Z.of_nat 4) scenario_adj = Some (c, FP) ∧
    spanning_tree 4 scenario_edges FK ∧ spanning_tree 4 scenario_edges FP ∧
    ∀ T, spanning_tree 4 scenario_edges T → (c ≤ total T)%Z.
Proof.
  apply (engines_minimum 4 scenario_edges scenario_adj).
  - apply scenario_below.
  - apply scenario_adj_rep.
  - apply scenario_connected.
Defined.

(** X8. With integer weights, the cost of a connected graph does not
    depend on how the graph is written down: two edge lists with the same
    undirected edges (in any order and orientation) and any adjacency
    lists that hold them give the same cost, with either engine. *)
Theorem cost_of_graph n (E E' : list (@edge Z)) (adj adj' : adjacency Z) :
  endpoints_below n E → connected n E →
  (∀ e, in_graph E e ↔ in_graph E' e) →
  adj_rep E adj → adj_rep E' adj' →
  ∃ c FK FK' FP FP',
    kruskals_mst (Z.of_nat n) E = Ok (c, FK) ∧
    kruskals_mst (Z.of_nat n) E' = Ok (c, FK') ∧
    prims_mst (Z.of_nat n) adj = Some (c, FP) ∧
    prims_mst (Z.of_nat n) adj' = Some (c, FP').
Proof.
  intros Hbelow Hconn Hsame Hrep Hrep'.
  assert (Hbelow' : endpoints_below n E').
  { intros e He. apply (in_graph_below n E); [done|]. apply Hsame. by left. }
  assert (Hconn' : connected n E').
  { destruct Hconn as [Hn Hsp]. split; [done|]. intros x y Hx Hy.
    eapply same_graph_conn; [|by apply Hsp]. intros e. apply Hsame. }
  destruct (engines_agree n E adj Hbelow Hrep Hconn)
    as (c & FK & FP & HK & HP & _ & _).
  destruct (engines_agree n E' adj' Hbelow' Hrep' Hconn')
    as (c' & FK' & FP' & HK' & HP' & _ & _).
  destruct Hconn as [Hn Hsp], Hconn' as [_ Hsp'].
  destruct (kruskals_mst_spec n E Hbelow)
    as (c1 & F1 & HK1 & -> & HE1 & Hnd1 & Hprom1 & Hfull1 & _).
  destruct (kruskals_mst_spec n E' Hbelow')
    as (c2 & F2 & HK2 & -> & HE2 & Hnd2 & Hprom2 & Hfull2 & _).
  rewrite HK in HK1. rewrite HK' in HK2. simplify_eq.
  destruct (Hfull1 Hn Hsp) as [Hlen1 Hsp1], (Hfull2 Hn Hsp') as [Hlen2 Hsp2].
  assert (spanning_tree n E F1) as Ht1.
  { split_and!; [|done..]. intros e He. left. auto. }
  assert (spanning_tree n E' F2) as Ht2.
  { split_and!; [|done..]. intros e He. left. auto. }
  pose proof (promising_full n E F1 F2 Hprom1 Hnd1 Hlen1
    (spanning_tree_same_graph n E' E F2 ltac:(intros e; by rewrite Hsame) Ht2)).
  pose proof (promising_full n E' F2 F1 Hprom2 Hnd2 Hlen2
    (spanning_tree_same_graph n E E' F1 Hsame Ht1)).
  assert (total F1 = total F2) as Heq by lia.
  exists (total F1), F1, F2, FP, FP'. rewrite HK', HP', <-Heq. by split_and!.
Qed.

Lemma cost_of_graph_witness :
  ∃ c FK FK' FP FP',
    kruskals_mst (Z.of_nat 4) scenario_edges = Ok (c, FK) ∧
    kruskals_mst (Z.of_nat 4) (reverse scenario_edges) = Ok (c, FK') ∧
    prims_mst (Z.of_nat 4) scenario_adj = Some (c, FP) ∧
    prims_mst (Z.of_nat 4) scenario_adj = Some (c, FP').
Proof.
  assert (Hsame : ∀ e, in_graph scenario_edges e ↔
                       in_graph (reverse scenario_edges) e).
  { intros e. unfold in_graph. by rewrite !elem_of_reverse. }
  apply (cost_of_graph 4 scenario_edges (reverse scenario_edges)
           scenario_adj scenario_adj).
  - apply scenario_below.
  - apply scenario_connected.
  - apply Hsame.
  - apply scenario_adj_rep.
  - intros u v w. rewrite <-Hsame. apply scenario_adj_rep.
Defined.

(** X9. Without edges, whatever the number of vertices, Kruskal returns
    the cost 0 and no edge, and so does Prim when the start vertex has no
    neighbour. *)
Theorem no_edges_result {W : Type} {WW : Weight W} (V : Z)
    (adj : adjacency W) :
  adj_get adj 0 = [] →
  kruskals_mst V (@nil (@edge W)) = Ok (w_zero, []) ∧
  prims_mst V adj = Some (w_zero, []).
Proof.
  intros Hadj. split; [done|].
  unfold prims_mst, prims_mst_fuel. case_decide; [done|].
  unfold prim_fuel, prim_start. rewrite Hadj. done.
Qed.

Lemma no_edges_result_witness :
  kruskals_mst 3 (@nil (@edge Z)) = Ok (w_zero, []) ∧
  prims_mst 3 (∅ : adjacency Z) = Some (w_zero, []).
Proof. apply (no_edges_result 3 (∅ : adjacency Z)). reflexivity. Defined.

(** ** End points out of range *)

(** X10. [kruskals_mst] raises nothing but [IndexError], and raises it
    only when an edge has an end point that is not below the number of
    vertices. *)
Theorem kruskals_mst_raises {W : Type} {WW : Weight W} (V : Z)
    (E : list (@edge W)) x :
  kruskals_mst V E = Raise x →
  x = IndexError ∧
  ∃ e, e ∈ E ∧ ¬ (Z.of_nat (e_src e) < V ∧ Z.of_nat (e_dst e) < V)%Z.
Proof.
  unfold kruskals_mst, DSU_init. cbn [bind]. intros Hrun.
  apply (kruskal_loop_raise (Z.to_nat V)) in Hrun as [-> (e & He & Hne)];
    [|apply dsu_ok_init].
  split; [done|]. exists e. split; [by rewrite sorted_by_weight_perm in He|].
  intros [? ?]. apply Hne. lia.
Qed.

Lemma kruskals_mst_raises_witness :
  IndexError = IndexError ∧
  ∃ e, e ∈ [(0, 4, 7%Z)] ∧
       ¬ (Z.of_nat (e_src e) < 2 ∧ Z.of_nat (e_dst e) < 2)%Z.
Proof.
  apply (kruskals_mst_raises 2 [(0, 4, 7%Z)] IndexError). reflexivity.
Defined.

(** X11. When the edges have no more distinct end points than there are
    vertices and one of them is out of range, [kruskals_mst] does not
    return a cost: it raises [IndexError], whatever the weights. *)
Theorem kruskals_mst_few_endpoints {W : Type} {WW : Weight W} n
    (E : list (@edge W)) :
  size (endpoints E) ≤ n → ¬ endpoints_below n E →
  kruskals_mst (Z.of_nat n) E = Raise IndexError.
Proof. apply kruskals_mst_fails. Qed.

Lemma kruskals_mst_few_endpoints_witness :
  kruskals_mst (Z.of_nat 2) [(0, 4, 7%Z)] = Raise IndexError.
Proof.
  apply (kruskals_mst_few_endpoints 2 [(0, 4, 7%Z)]).
  - by vm_compute.
  - intros Hbelow. destruct (Hbelow (0, 4, 7%Z)) as [_ Hdst]; [by left|].
    unfold e_dst in Hdst. simpl in Hdst. lia.
Defined.

(** ** The sort, and [kruskals_mst] of [index.py] *)

(** X12. The sort [kruskals_mst] starts with returns the edges of the
    list in ascending order of weight, edges of equal weight in the order
    of the list; the sort by [cmp_to_key(comparator)] of [index.py]
    returns the same list as the sort by key of [final.py]. *)
Theorem sorted_edge_list_contract (l : list (@edge Z)) :
  sorted_by_weight l ≡ₚ l ∧
  StronglySorted by_weight (sorted_by_weight l) ∧
  (∀ w, filter (λ e, e_weight e = w) (sorted_by_weight l) =
        filter (λ e, e_weight e = w) l) ∧
  Index.sorted_by_cmp l = sorted_by_weight l.
Proof.
  split_and!.
  - apply sorted_by_weight_perm.
  - apply sorted_by_weight_sorted.
  - intros w. induction l as [|e l IH]; [done|]. simpl.
    by rewrite filter_insert_by_weight, !filter_cons, IH.
  - apply index_sorted_by_cmp_eq.
Qed.

(** X13. For every number of vertices and every edge list,
    [kruskals_mst] of [index.py] comes to what [kruskals_mst] of
    [final.py] comes to: the same cost, with its warning exactly when that
    one returns fewer than [V - 1] edges for [V > 0], or the same
    exception. *)
Theorem index_kruskal_same (V : Z) (E : list (@edge Z)) :
  match kruskals_mst V E with
  | Ok (c, F) =>
      Index.kruskals_mst V E =
        Ok (c, bool_decide ((Z.of_nat (length F) < V - 1)%Z ∧ (V > 0)%Z))
  | Raise x => Index.kruskals_mst V E = Raise x
  end.
Proof. apply index_kruskals_mst_agrees. Qed.

(** ** [main] of [final.py] *)

(** X14. The dictionary [map_id_to_idx] of [final.py] is a bijection
    between the distinct identifiers and [0 .. V-1], whatever the order in
    which the set is iterated. *)
Theorem map_id_to_idx_bijective (all_ids : gset Z) iteration :
  NoDup iteration → list_to_set iteration = all_ids →
  let num_vertices := length iteration in
  num_vertices = size all_ids ∧
  (∀ id, id ∈ all_ids →
     ∃ i, map_id_to_idx iteration !! id = Some i ∧ i < num_vertices) ∧
  (∀ id id' i, map_id_to_idx iteration !! id = Some i →
     map_id_to_idx iteration !! id' = Some i → id = id') ∧
  (∀ i, i < num_vertices →
     ∃ id, id ∈ all_ids ∧ map_id_to_idx iteration !! id = Some i).
Proof.
  intros HND <-. simpl. split_and!.
  - by rewrite size_list_to_set.
  - intros id Hid%elem_of_list_to_set.
    apply list_elem_of_lookup in Hid as [i Hi]. exists i.
    split; [by apply map_id_to_idx_lookup|]. by eapply lookup_lt_Some.
  - intros id id' i Hid Hid'. apply map_id_to_idx_lookup in Hid, Hid'; try done.
    congruence.
  - intros i Hi. destruct (lookup_lt_is_Some_2 iteration i Hi) as [id Hid].
    exists id. split; [|by apply map_id_to_idx_lookup].
    apply elem_of_list_to_set. by eapply list_elem_of_lookup_2.
Qed.

Lemma map_id_to_idx_bijective_witness :
  let num_vertices := length [7; 3; 10]%Z in
  num_vertices = size ({[7; 3; 10]}%Z : gset Z) ∧
  (∀ id, id ∈ ({[7; 3; 10]}%Z : gset Z) →
     ∃ i, map_id_to_idx [7; 3; 10]%Z !! id = Some i ∧ i < num_vertices) ∧
  (∀ id id' i, map_id_to_idx [7; 3; 10]%Z !! id = Some i →
     map_id_to_idx [7; 3; 10]%Z !! id' = Some i → id = id') ∧
  (∀ i, i < num_vertices →
     ∃ id, id ∈ ({[7; 3; 10]}%Z : gset Z) ∧
           map_id_to_idx [7; 3; 10]%Z !! id = Some i).
Proof.
  apply (map_id_to_idx_bijective {[7; 3; 10]}%Z [7; 3; 10]%Z).
  - repeat (apply NoDup_cons; split; [set_solver|]). apply NoDup_nil_2.
  - set_solver.
Defined.

(** The rows [7 3 1.0] and [3 10 2.0], and an order of their
    identifiers. *)
Definition sample_rows : list (Z * Z * PrimFloat.float) :=
  [(7%Z, 3%Z, PrimFloat.one); (3%Z, 10%Z, PrimFloat.two)].
Definition sample_iteration : list Z := [7; 3; 10]%Z.

Lemma sample_iteration_NoDup : NoDup sample_iteration.
Proof.
  unfold sample_iteration.
  repeat (apply NoDup_cons; split; [set_solver|]). apply NoDup_nil_2.
Qed.

Lemma sample_iteration_set :
  list_to_set sample_iteration = all_node_ids sample_rows.
Proof. unfold all_node_ids, sample_rows, sample_iteration. simpl. set_solver. Qed.

Lemma sample_rows_exact : exact_ids sample_rows.
Proof. repeat constructor. Qed.

Lemma sample_rows_numbers : number_weights sample_rows.
Proof. repeat constructor. Qed.

(** Above 2^53 the row is not read back as the file has it: the one row
    [9007199254740993 1 0.5] makes [main] raise [KeyError]. *)
Lemma main_KeyError :
  main_costs true [9007199254740993; 1]%Z
             [(9007199254740993%Z, 1%Z, PrimFloat.one)] = Raised KeyError.
Proof. by vm_compute. Qed.

(** X15. For any file with at least one row, whose identifiers are below
    2^53 in absolute value (those that a row holds exactly when
    [iterrows()] hands it out as float64) and whose weights are numbers,
    whatever the order in which Python iterates over the set of
    identifiers and whether the weights are read as integers or as floats,
    [main] raises nothing ([KeyError] from the dictionary or the adjacency
    list, [IndexError] from the DSU): it hands both engines the rows with
    their identifiers replaced by indices that fill [0 .. V-1] exactly,
    Prim an adjacency list that holds each row at both ends, and comes to
    the two costs the engines return on those floats and to the sum of the
    weights. *)
Theorem main_runs (float_weights : bool) iteration
    (rows : list (Z * Z * PrimFloat.float)) :
  rows ≠ [] → exact_ids rows → number_weights rows →
  NoDup iteration → list_to_set iteration = all_node_ids rows →
  let V := size (all_node_ids rows) in
  ∃ E adj cK FK cP FP,
    Forall2 (λ row e,
               map_id_to_idx iteration !! row.1.1 = Some (e_src e) ∧
               map_id_to_idx iteration !! row.1.2 = Some (e_dst e) ∧
               row.2 = e_weight e) rows E ∧
    endpoints_below V E ∧ endpoints E = set_seq 0 V ∧ adj_rep E adj ∧
    kruskals_mst (Z.of_nat V) E = Ok (cK, FK) ∧
    prims_mst (Z.of_nat V) adj = Some (cP, FP) ∧
    main_costs float_weights iteration rows =
      Costs V (foldl (λ acc row, w_add acc row.2) w_zero rows) cK (Some cP).
Proof.
  intros Hrows Hexact _ HND Hset V.
  destruct (main_graph iteration rows Hrows HND Hset)
    as (HV & Hne & Hremap & Hbelow & Hends & adj & Hmain & Hrep).
  fold V in HV, Hbelow, Hends, Hmain.
  set (E := remap (map_id_to_idx iteration) rows) in *.
  destruct (kruskals_mst_shape V E Hbelow) as (cK & FK & HK & _).
  destruct (prims_mst_inv V E adj (λ _, True) Hbelow Hrep HV)
    as (s & HP & _); [done..|].
  exists E, adj, cK, FK, (st_cost s), (st_edges s).
  split_and!; try done.
  rewrite (main_costs_exact float_weights) by done.
  unfold main_costs. rewrite decide_False by done. fold V.
  rewrite Hmain, decide_True by done. by rewrite HK, HP.
Qed.

Lemma main_runs_witness :
  ∃ E adj cK FK cP FP,
    Forall2 (λ row e,
               map_id_to_idx sample_iteration !! row.1.1 = Some (e_src e) ∧
               map_id_to_idx sample_iteration !! row.1.2 = Some (e_dst e) ∧
               row.2 = e_weight e) sample_rows E ∧
    endpoints_below (size (all_node_ids sample_rows)) E ∧
    endpoints E = set_seq 0 (size (all_node_ids sample_rows)) ∧
    adj_rep E adj ∧
    kruskals_mst (Z.of_nat (size (all_node_ids sample_rows))) E = Ok (cK, FK) ∧
    prims_mst (Z.of_nat (size (all_node_ids sample_rows))) adj = Some (cP, FP) ∧
    main_costs true sample_iteration sample_rows =
      Costs (size (all_node_ids sample_rows))
            (foldl (λ acc row, w_add acc row.2) w_zero sample_rows)
            cK (Some cP).
Proof.
  apply (main_runs true sample_iteration sample_rows).
  - done.
  - apply sample_rows_exact.
  - apply sample_rows_numbers.
  - apply sample_iteration_NoDup.
  - apply sample_iteration_set.
Defined.

(** ** The script of [index.py] *)

(** X17. In [index.py], for identifiers between -2^62 and 2^62 (int64
    values whose differences are exact in int64), the offset is not above
    any of them, so that no remapped index is negative; the remapped end
    points all lie below the number of vertices exactly when the
    identifiers are contiguous, that is, when they are all the integers
    from some [m] on. *)
Theorem index_remap_range rows weights :
  rows ≠ [] → int64_exact rows → length weights = length rows →
  let ids := Index.all_node_ids_in_file rows in
  ∃ off E,
    Index.id_offset ids = Some off ∧
    Index.kruskal_edges rows weights = Some (Z.of_nat (size ids), E) ∧
    (∀ id, id ∈ ids → (off ≤ id)%Z) ∧
    (endpoints_below (size ids) E ↔ contiguous ids) ∧
    (contiguous ids ↔
     ∃ m, ∀ z, z ∈ ids ↔ (m ≤ z < m + Z.of_nat (size ids))%Z).
Proof.
  intros Hrows Hexact Hlen ids.
  destruct (index_kruskal_edges_spec rows weights Hrows Hexact Hlen)
    as (off & E & Hoff & HE & Hnn & _ & Hrange & _ & HV).
  exists off, E. split_and!; try done.
  apply contiguous_range. intros Hemp. fold ids in HV. rewrite Hemp in HV.
  rewrite size_empty in HV. lia.
Qed.

Lemma index_remap_range_witness :
  ∃ off E,
    Index.id_offset (Index.all_node_ids_in_file [(1, 5)%Z]) = Some off ∧
    Index.kruskal_edges [(1, 5)%Z] [7%Z] =
      Some (Z.of_nat (size (Index.all_node_ids_in_file [(1, 5)%Z])), E) ∧
    (∀ id, id ∈ Index.all_node_ids_in_file [(1, 5)%Z] → (off ≤ id)%Z) ∧
    (endpoints_below (size (Index.all_node_ids_in_file [(1, 5)%Z])) E ↔
     contiguous (Index.all_node_ids_in_file [(1, 5)%Z])) ∧
    (contiguous (Index.all_node_ids_in_file [(1, 5)%Z]) ↔
     ∃ m, ∀ z, z ∈ Index.all_node_ids_in_file [(1, 5)%Z] ↔
               (m ≤ z < m + Z.of_nat (size (Index.all_node_ids_in_file
                                              [(1, 5)%Z])))%Z).
Proof.
  apply (index_remap_range [(1, 5)%Z] [7%Z]).
  - done.
  - repeat constructor; done.
  - done.
Defined.

(** X18. The script of [index.py], on a file with at least one row,
    identifiers between -2^62 and 2^62 (int64 values whose differences are
    exact in int64) and weights between 1 and 100: when the identifiers
    are contiguous it prints the cost that [kruskals_mst] of [final.py]
    returns on the remapped edges, a saving that is not negative, and the
    warning exactly when the graph is not connected; when they are not
    contiguous it ends in [IndexError]. *)
Theorem index_script_outcome rows weights :
  rows ≠ [] → int64_exact rows → length weights = length rows →
  (∀ w, w ∈ weights → (1 ≤ w ≤ 100)%Z) →
  let ids := Index.all_node_ids_in_file rows in
  (contiguous ids →
   ∃ E c F warned,
     Index.kruskal_edges rows weights = Some (Z.of_nat (size ids), E) ∧
     kruskals_mst (Z.of_nat (size ids)) E = Ok (c, F) ∧
     Index.script rows weights =
       Index.Report c (total E) (total E - c) ((total E - c) * 2) warned ∧
     (0 ≤ c ≤ total E)%Z ∧
     (warned = true ↔ ¬ connected (size ids) E)) ∧
  (¬ contiguous ids → Index.script rows weights = Index.Raised IndexError).
Proof.
  intros Hrows Hexact Hlen Hw ids.
  destruct (index_kruskal_edges_spec rows weights Hrows Hexact Hlen)
    as (off & E & Hoff & HE & Hnn & Hweights & Hrange & Hsize & HV).
  fold ids in Hoff, HE, Hnn, Hrange, Hsize, HV.
  pose proof (index_kruskals_mst_agrees (Z.of_nat (size ids)) E) as Hagree.
  split.
  - intros Hbelow%Hrange.
    destruct (kruskals_mst_cost_bounds (size ids) E Hbelow)
      as (c & F & HK & Hbounds).
    { intros e He. assert (e_weight e ∈ weights) as Hin.
      { rewrite <-Hweights. apply list_elem_of_fmap. by exists e. }
      apply Hw in Hin. lia. }
    rewrite HK in Hagree.
    destruct (kruskals_mst_shape (size ids) E Hbelow)
      as (c' & F' & HK' & _ & _ & _ & Hfull & Hpart).
    rewrite HK in HK'. simplify_eq.
    eexists E, c', F', _.
    split; [done|split; [done|split; [|split; [done|]]]].
    + unfold Index.script. rewrite HE, decide_True by lia.
      rewrite Hagree, foldl_edge_weights. f_equal; lia.
    + rewrite bool_decide_eq_true. split.
      * intros [Hlt _] [_ Hsp]. destruct (Hfull HV Hsp). lia.
      * intros Hnc. split; [|lia].
        assert (¬ spans (size ids) E) as Hns by (intros ?; by apply Hnc).
        specialize (Hpart HV Hns). lia.
  - intros Hnc. assert (¬ endpoints_below (size ids) E) as Hout
      by (intros ?; by apply Hnc, Hrange).
    rewrite (kruskals_mst_fails (size ids) E Hsize Hout) in Hagree.
    unfold Index.script. rewrite HE, decide_True by lia. by rewrite Hagree.
Qed.

Lemma index_script_outcome_witness :
  (contiguous (Index.all_node_ids_in_file [(1, 2); (2, 3)]%Z) →
   ∃ E c F warned,
     Index.kruskal_edges [(1, 2); (2, 3)]%Z [5; 7]%Z =
       Some (Z.of_nat (size (Index.all_node_ids_in_file [(1, 2); (2, 3)]%Z)),
             E) ∧
     kruskals_mst
       (Z.of_nat (size (Index.all_node_ids_in_file [(1, 2); (2, 3)]%Z))) E =
       Ok (c, F) ∧
     Index.script [(1, 2); (2, 3)]%Z [5; 7]%Z =
       Index.Report c (total E) (total E - c) ((total E - c) * 2) warned ∧
     (0 ≤ c ≤ total E)%Z ∧
     (warned = true ↔
      ¬ connected (size (Index.all_node_ids_in_file [(1, 2); (2, 3)]%Z)) E)) ∧
  (¬ contiguous (Index.all_node_ids_in_file [(1, 2); (2, 3)]%Z) →
   Index.script [(1, 2); (2, 3)]%Z [5; 7]%Z = Index.Raised IndexError).
Proof.
  apply (index_script_outcome [(1, 2); (2, 3)]%Z [5; 7]%Z).
  - done.
  - repeat constructor; done.
  - done.
  - intros w Hw.
    repeat (apply elem_of_cons in Hw as [->|Hw]; [lia|]).
    by apply elem_of_nil in Hw.
Defined.
